(** * storage/raft_transport.go: the Raft message transport

    A shallow embedding of [RaftTransport] and [RaftSender]:
    the handler registry ([Listen], [Stop]), the inbound dispatcher
    ([RaftMessage]), the outbound queue table and its non-blocking
    enqueue ([SendAsync]) and the delivery worker ([processQueue]).

    Go maps are [gmap]s, buffered channels are bounded FIFO lists kept in
    a channel store indexed by reference, goroutines are entries of a
    worker table that the scheduler advances one [select] at a time, and
    the calls the code makes on its collaborators (the stopper, the
    stream, the [onError] callback, [SnapshotStatusChan]) are recorded in
    a chronological event log. *)

From stdpp Require Import base option list functions gmap strings.
From Stdlib Require Import ZArith Lia.

Local Open Scope Z_scope.

(** ** External packages: only what raft_transport.go reads of them *)

Module raftpb.
(** etcd's [raftpb.MessageType] enumeration. *)
Inductive MessageType : Set :=
| MsgHup | MsgBeat | MsgProp | MsgApp | MsgAppResp | MsgVote | MsgVoteResp
| MsgSnap | MsgHeartbeat | MsgHeartbeatResp | MsgUnreachable | MsgSnapStatus.

#[global] Instance MessageType_eq_dec : EqDecision MessageType.
Proof. solve_decision. Defined.

(** [raftpb.Message]; the transport reads [Type] and [To] only. *)
Record Message : Set := mkMessage {
  Type_ : MessageType;
  To : Z;
  From_ : Z;
  Term : Z
}.

#[global] Instance Message_eq_dec : EqDecision Message.
Proof. solve_decision. Defined.
End raftpb.

Module roachpb.
(** [NodeID], [StoreID] and [ReplicaID] are named [int32]s; nothing here
    does arithmetic on them. *)
Abbreviation NodeID := Z.
Abbreviation StoreID := Z.
Abbreviation ReplicaID := Z.

(** The routing key of the outbound queues. *)
Record ReplicaDescriptor : Set := mkReplica {
  NodeID_ : NodeID;
  StoreID_ : StoreID;
  ReplicaID_ : ReplicaID
}.

#[global] Instance ReplicaDescriptor_eq_dec : EqDecision ReplicaDescriptor.
Proof. solve_decision. Defined.

#[global] Instance ReplicaDescriptor_countable : Countable ReplicaDescriptor.
Proof.
  refine (inj_countable'
            (fun r => (NodeID_ r, StoreID_ r, ReplicaID_ r))
            (fun t => mkReplica t.1.1 t.1.2 t.2) _).
  by intros [].
Defined.
End roachpb.

Import raftpb roachpb.

(** Go's [error] interface. [None : option error] is a nil error. *)
Inductive error : Set :=
| Errorf (format : string) (arg : Z)   (* errors.Errorf with one verb *)
| ExternalError (what : string).       (* an error made by a collaborator *)

#[global] Instance error_eq_dec : EqDecision error.
Proof. solve_decision. Defined.

Record RaftMessageRequest : Set := mkRequest {
  GroupID : Z;
  FromReplica : ReplicaDescriptor;
  ToReplica : ReplicaDescriptor;
  Message_ : Message
}.

#[global] Instance RaftMessageRequest_eq_dec : EqDecision RaftMessageRequest.
Proof. solve_decision. Defined.

(** [RaftMessageResponse] carries no field. *)
Inductive RaftMessageResponse : Set := mkResponse.

(** [raftMessageHandler]: a function from a request to an error. *)
Abbreviation raftMessageHandler := (RaftMessageRequest -> option error).

(** [RaftSnapshotStatus]: a MsgSnap request and its resulting error. *)
Record RaftSnapshotStatus : Set := mkSnapshotStatus {
  Req : RaftMessageRequest;
  Err : option error
}.

#[global] Instance RaftSnapshotStatus_eq_dec : EqDecision RaftSnapshotStatus.
Proof. solve_decision. Defined.

(** ** Constants *)

(** Outgoing messages are queued per-replica on a channel of this size. *)
Definition raftSendBufferSize : nat := 100.

(** ** The handler registry: [t.mu.handlers] *)

Module Registry.
Abbreviation handlers := (gmap StoreID raftMessageHandler).

(** [NewRaftTransport]: [make(map[roachpb.StoreID]raftMessageHandler)] *)
Definition empty : handlers := ∅.

(** [Listen]: [t.mu.handlers[storeID] = handler] *)
Definition Listen (storeID : StoreID) (handler : raftMessageHandler)
    (hs : handlers) : handlers :=
  <[storeID := handler]> hs.

(** [Stop]: [delete(t.mu.handlers, storeID)] *)
Definition Stop (storeID : StoreID) (hs : handlers) : handlers :=
  delete storeID hs.
End Registry.

(** ** The inbound dispatcher: [RaftTransport.RaftMessage] *)

Module Inbound.
Import Registry.

(** What the reader goroutine meets, in order: the results of its
    [stream.Recv()] calls, interleaved with the [Listen] and [Stop]
    calls other goroutines make on the shared registry. *)
Inductive InboundEvent : Type :=
| InRecv (r : RaftMessageRequest + error)
| InListen (storeID : StoreID) (handler : raftMessageHandler)
| InStop (storeID : StoreID).

(** The reader either returned an error into [errCh] or is still
    blocked in [stream.Recv()] with the registry as it stands. *)
Inductive ReadLoop : Type :=
| Reading (hs : handlers)
| Returned (err : error).

Definition proxy_format : string := "Unable to proxy message to node: %d".

(** The [for] loop of the reader goroutine. *)
Fixpoint recvLoop (evs : list InboundEvent) (hs : handlers) : ReadLoop :=
  match evs with
  | [] => Reading hs
  | InListen s h :: evs' => recvLoop evs' (Listen s h hs)
  | InStop s :: evs' => recvLoop evs' (Stop s hs)
  | InRecv (inr err) :: _ => Returned err
  | InRecv (inl req) :: evs' =>
      match hs !! StoreID_ (ToReplica req) with
      | None => Returned (Errorf proxy_format (To (Message_ req)))
      | Some handler =>
          match handler req with
          | Some err => Returned err
          | None => recvLoop evs' hs
          end
      end
  end.

(** The branch taken by the final [select]. *)
Inductive ServerSelect : Set :=
| SelectErrCh          (* case err := <-errCh *)
| SelectShouldDrain.   (* case <-t.rpcContext.Stopper.ShouldDrain() *)

(** What the handler writes back on the stream. *)
Inductive StreamReply : Set :=
| SendAndClose (resp : RaftMessageResponse).

(** [RaftMessage]: [runTask] is the result of [Stopper.RunTask],
    [sendAndClose] the result [stream.SendAndClose] would give. The
    result is the returned error and the replies sent on the stream;
    [None] when the [select] cannot take branch [sel] (nothing is on
    [errCh]). *)
Definition RaftMessage (runTask : option error) (evs : list InboundEvent)
    (hs : handlers) (sel : ServerSelect) (sendAndClose : option error)
    : option (option error * list StreamReply) :=
  match runTask with
  | Some err => Some (Some err, [])
  | None =>
      match sel with
      | SelectErrCh =>
          match recvLoop evs hs with
          | Returned err => Some (Some err, [])
          | Reading _ => None
          end
      | SelectShouldDrain =>
          Some (sendAndClose, [SendAndClose mkResponse])
      end
  end.
End Inbound.

(** ** The outbound side: queue table, channels, workers *)

(** A reference to a channel made by [make(chan *RaftMessageRequest, n)]. *)
Definition chan : Set := nat.

(** Where a worker goroutine stands inside [processQueue]. *)
Inductive Phase : Set :=
| Dialing    (* before the [for] loop: resolver, dial, stream, reader task *)
| Draining.  (* inside the [for] loop *)

(** The variables captured by the worker closure of [SendAsync]:
    [queues] (the inner map of class [w_isSnap]) and [toReplica]. *)
Record Worker : Set := mkWorker {
  w_isSnap : bool;
  w_toReplica : ReplicaDescriptor;
  w_phase : Phase
}.

(** Calls observable from outside, in the order they happen. *)
Inductive Event : Set :=
| EvEnqueue (ch : chan) (req : RaftMessageRequest)
    (* [ch <- req] went through *)
| EvSpawn (ch : chan) (toReplica : ReplicaDescriptor)
    (* [RunWorker] started a worker *)
| EvStreamSend (ch : chan) (req : RaftMessageRequest) (err : option error)
    (* [stream.Send(req)] returned [err] on the stream of [ch]'s worker *)
| EvSnapshotStatus (st : RaftSnapshotStatus)
    (* [t.SnapshotStatusChan <- st] went through *)
| EvOnError (err : option error) (toReplica : ReplicaDescriptor).
    (* [s.onError(err, toReplica)] *)

#[global] Instance Event_eq_dec : EqDecision Event.
Proof. solve_decision. Defined.

Record World : Type := mkWorld {
  (** [t.mu.queues]: traffic class, then destination, to channel *)
  queues : gmap bool (gmap ReplicaDescriptor chan);
  (** the buffer of every channel, oldest message first *)
  chans : chan -> list RaftMessageRequest;
  (** the next reference [make] hands out *)
  next_chan : chan;
  (** the running worker goroutines, by the channel they drain *)
  workers : gmap chan Worker;
  log : list Event
}.

(** [NewRaftTransport] *)
Definition NewRaftTransport : World :=
  mkWorld ∅ (fun _ => []) 0%nat ∅ [].

Definition set_queues (q : gmap bool (gmap ReplicaDescriptor chan))
    (w : World) : World :=
  mkWorld q (chans w) (next_chan w) (workers w) (log w).

Definition set_chan (ch : chan) (buf : list RaftMessageRequest)
    (w : World) : World :=
  mkWorld (queues w) (<[ch := buf]> (chans w)) (next_chan w) (workers w)
          (log w).

Definition set_workers (ws : gmap chan Worker) (w : World) : World :=
  mkWorld (queues w) (chans w) (next_chan w) ws (log w).

Definition emit (e : Event) (w : World) : World :=
  mkWorld (queues w) (chans w) (next_chan w) (workers w) (log w ++ [e]).

(** [make(chan *RaftMessageRequest, raftSendBufferSize)]: a new, empty
    channel. *)
Definition make_chan (w : World) : chan * World :=
  (next_chan w,
   mkWorld (queues w) (<[next_chan w := []]> (chans w)) (S (next_chan w))
           (workers w) (log w)).

Definition isSnap (req : RaftMessageRequest) : bool :=
  bool_decide (Type_ (Message_ req) = MsgSnap).

(** The entry of the queue table for a class and a destination. *)
Definition queue_of (w : World) (snap : bool) (to : ReplicaDescriptor)
    : option chan :=
  queues w !! snap ≫= fun inner => inner !! to.

(** Lines 257-270 of [SendAsync], under [s.transport.mu]: find or make
    the inner map of the class, then find or make the channel. The
    boolean is the second [ok]: false when this call made the entry. *)
Definition lookup_or_create (req : RaftMessageRequest) (w : World)
    : chan * bool * World :=
  let snap := isSnap req in
  let toReplica := ToReplica req in
  let '(inner, w1) :=
    match queues w !! snap with
    | Some inner => (inner, w)
    | None => (∅, set_queues (<[snap := ∅]> (queues w)) w)
    end in
  match inner !! toReplica with
  | Some ch => (ch, true, w1)
  | None =>
      let '(ch, w2) := make_chan w1 in
      (ch, false,
       set_queues (<[snap := <[toReplica := ch]> inner]> (queues w2)) w2)
  end.

(** Lines 272-285: when this call made the entry, register the worker.
    [runTask] is what [Stopper.RunTask] returns: nil and the worker runs,
    or an error, handed to [onError] at once. *)
Definition spawn_worker (runTask : option error) (ch : chan)
    (req : RaftMessageRequest) (w : World) : World :=
  match runTask with
  | None =>
      emit (EvSpawn ch (ToReplica req))
        (set_workers
           (<[ch := mkWorker (isSnap req) (ToReplica req) Dialing]>
              (workers w)) w)
  | Some err => emit (EvOnError (Some err) (ToReplica req)) w
  end.

(** Lines 287-292: [select { case ch <- req: ... default: ... }]. *)
Definition try_send (ch : chan) (req : RaftMessageRequest) (w : World)
    : World * bool :=
  if decide (length (chans w ch) < raftSendBufferSize)%nat
  then (emit (EvEnqueue ch req) (set_chan ch (chans w ch ++ [req]) w), true)
  else (w, false).

(** [RaftSender.SendAsync] *)
Definition SendAsync (runTask : option error) (req : RaftMessageRequest)
    (w : World) : World * bool :=
  let '(ch, ok, w1) := lookup_or_create req w in
  let w2 := if ok then w1 else spawn_worker runTask ch req w1 in
  try_send ch req w2.

(** ** The delivery worker: [RaftTransport.processQueue] *)

(** The results of the four calls made before the loop; nil is [None]. *)
Record DialOutcome : Set := mkDial {
  resolver_err : option error;     (* t.resolver(toReplica.NodeID) *)
  GRPCDial_err : option error;     (* t.rpcContext.GRPCDial(addr.String()) *)
  RaftMessage_err : option error;  (* client.RaftMessage(ctx) *)
  RunTask_err : option error       (* Stopper.RunTask of the stream reader *)
}.

(** Lines 179-206: each failure returns its error at once. *)
Definition processQueue_dial (d : DialOutcome) : option error :=
  match resolver_err d with
  | Some err => Some err
  | None =>
      match GRPCDial_err d with
      | Some err => Some err
      | None =>
          match RaftMessage_err d with
          | Some err => Some err
          | None => RunTask_err d
          end
      end
  end.

(** The inner [select] that publishes a snapshot status. *)
Inductive PublishSelect : Set :=
| PubShouldStop   (* case <-t.rpcContext.Stopper.ShouldStop() *)
| PubDelivered.   (* case t.SnapshotStatusChan <- RaftSnapshotStatus{req, err} *)

(** The branch taken by the [select] of one loop iteration. [SelErrCh]
    carries what [stream.RecvMsg] returned, [SelQueue] what
    [stream.Send] returns and the branch of the inner [select]. *)
Inductive LoopSelect : Set :=
| SelShouldStop
| SelIdleTimer
| SelErrCh (err : option error)
| SelQueue (sendErr : option error) (pub : PublishSelect).

Inductive Flow : Set :=
| Continue
| Return (err : option error).

(** [if err != nil { return err }] at the end of the [case req := <-ch]. *)
Definition after_send (sendErr : option error) : Flow :=
  match sendErr with
  | Some err => Return (Some err)
  | None => Continue
  end.

(** One iteration of the [for] loop on channel [ch] (lines 210-234).
    [None]: the branch is not ready ([<-ch] on an empty channel). *)
Definition processQueue_select (ch : chan) (sel : LoopSelect) (w : World)
    : option (World * Flow) :=
  match sel with
  | SelShouldStop => Some (w, Return None)
  | SelIdleTimer => Some (w, Return None)
  | SelErrCh err => Some (w, Return err)
  | SelQueue sendErr pub =>
      match chans w ch with
      | [] => None
      | req :: rest =>
          let w1 := emit (EvStreamSend ch req sendErr) (set_chan ch rest w) in
          if isSnap req then
            match pub with
            | PubShouldStop => Some (w1, Return None)
            | PubDelivered =>
                Some (emit (EvSnapshotStatus (mkSnapshotStatus req sendErr)) w1,
                      after_send sendErr)
            end
          else Some (w1, after_send sendErr)
      end
  end.

(** The rest of the worker closure once [processQueue] has returned
    [ret] (lines 276-280): [s.onError(ret, toReplica)], then
    [delete(queues, toReplica)] on the captured inner map. *)
Definition worker_exit (ch : chan) (wk : Worker) (ret : option error)
    (w : World) : World :=
  let w1 := emit (EvOnError ret (w_toReplica wk)) w in
  let w2 :=
    set_queues (alter (delete (w_toReplica wk)) (w_isSnap wk) (queues w1)) w1 in
  set_workers (delete ch (workers w2)) w2.

(** What the scheduler lets a worker do next. *)
Inductive WorkerEvent : Set :=
| WDial (d : DialOutcome)
| WSelect (sel : LoopSelect).

Definition set_phase (ch : chan) (wk : Worker) (p : Phase) (w : World)
    : World :=
  set_workers
    (<[ch := mkWorker (w_isSnap wk) (w_toReplica wk) p]> (workers w)) w.

(** One scheduling of the worker that drains [ch]: the calls before the
    loop, or one iteration of the loop; when [processQueue] returns, the
    rest of the closure runs in the same step. [None]: there is no such
    worker, or the event does not fit where it stands. *)
Definition worker_step (ch : chan) (ev : WorkerEvent) (w : World)
    : option World :=
  match workers w !! ch with
  | None => None
  | Some wk =>
      match w_phase wk, ev with
      | Dialing, WDial d =>
          match processQueue_dial d with
          | Some err => Some (worker_exit ch wk (Some err) w)
          | None => Some (set_phase ch wk Draining w)
          end
      | Draining, WSelect sel =>
          match processQueue_select ch sel w with
          | None => None
          | Some (w1, Continue) => Some w1
          | Some (w1, Return ret) => Some (worker_exit ch wk ret w1)
          end
      | _, _ => None
      end
  end.

(** ** Interleavings *)

Inductive Action : Set :=
| ActSendAsync (runTask : option error) (req : RaftMessageRequest)
| ActWorker (ch : chan) (ev : WorkerEvent).

Definition step (a : Action) (w : World) : option World :=
  match a with
  | ActSendAsync runTask req => Some (SendAsync runTask req w).1
  | ActWorker ch ev => worker_step ch ev w
  end.

Fixpoint run (tr : list Action) (w : World) : option World :=
  match tr with
  | [] => Some w
  | a :: tr' =>
      match step a w with
      | Some w' => run tr' w'
      | None => None
      end
  end.

(** [SendAsync] called on each request in turn, no worker scheduled in
    between; the answers come back in order. *)
Fixpoint SendAsync_all (reqs : list (option error * RaftMessageRequest))
    (w : World) : World * list bool :=
  match reqs with
  | [] => (w, [])
  | (runTask, req) :: reqs' =>
      let '(w1, ok) := SendAsync runTask req w in
      let '(w2, oks) := SendAsync_all reqs' w1 in
      (w2, ok :: oks)
  end.

(** ** Reading the log *)

(** The messages that went onto [ch], oldest first. *)
Definition enqueued_on (ch : chan) (l : list Event)
    : list RaftMessageRequest :=
  omap (fun e => match e with
                 | EvEnqueue c req => if decide (c = ch) then Some req else None
                 | _ => None
                 end) l.

(** The messages written to the stream of [ch]'s worker, oldest first. *)
Definition written_on (ch : chan) (l : list Event)
    : list RaftMessageRequest :=
  omap (fun e => match e with
                 | EvStreamSend c req _ =>
                     if decide (c = ch) then Some req else None
                 | _ => None
                 end) l.

(** The calls of [onError]. *)
Definition onError_calls (l : list Event)
    : list (option error * ReplicaDescriptor) :=
  omap (fun e => match e with
                 | EvOnError err to => Some (err, to)
                 | _ => None
                 end) l.

(** The pairs published on [SnapshotStatusChan]. *)
Definition snapshot_statuses (l : list Event) : list RaftSnapshotStatus :=
  omap (fun e => match e with
                 | EvSnapshotStatus st => Some st
                 | _ => None
                 end) l.

(** The workers started. *)
Definition spawned (l : list Event) : list (chan * ReplicaDescriptor) :=
  omap (fun e => match e with
                 | EvSpawn ch to => Some (ch, to)
                 | _ => None
                 end) l.

(** ** Sample data *)

Definition store1 : ReplicaDescriptor := mkReplica 1 1 1.
Definition store2 : ReplicaDescriptor := mkReplica 2 2 1.
Definition store3 : ReplicaDescriptor := mkReplica 3 3 1.

Definition heartbeat (to : ReplicaDescriptor) (term : Z)
    : RaftMessageRequest :=
  mkRequest 1 store1 to (mkMessage MsgHeartbeat (NodeID_ to) 1 term).

Definition snapshot (to : ReplicaDescriptor) (term : Z)
    : RaftMessageRequest :=
  mkRequest 1 store1 to (mkMessage MsgSnap (NodeID_ to) 1 term).

Definition dial_ok : DialOutcome := mkDial None None None None.

Definition stopping : error := ExternalError "node unavailable; try another peer".
Definition broken_pipe : error := ExternalError "write: broken pipe".




(** The world [lookup_or_create] leaves behind when it has to make the
    entry of class [snap] and destination [to]. *)
Definition with_new_queue (snap : bool) (to : ReplicaDescriptor) (w : World)
    : World :=
  mkWorld
    (<[snap := <[to := next_chan w]> (default ∅ (queues w !! snap))]>
       (queues w))
    (<[next_chan w := []]> (chans w)) (S (next_chan w)) (workers w) (log w).

(** Every request of the list is of class [snap] and goes to [to]. *)
Definition same_key (snap : bool) (to : ReplicaDescriptor)
    (reqs : list (option error * RaftMessageRequest)) : Prop :=
  Forall (fun r => isSnap r.2 = snap ∧ ToReplica r.2 = to) reqs.

(** ** Sample interleavings *)

(** One heartbeat to store 2: accepted, sent, then the worker idles out. *)
Definition idle_out : list Action :=
  [ActSendAsync None (heartbeat store2 1);
   ActWorker 0%nat (WDial dial_ok);
   ActWorker 0%nat (WSelect (SelQueue None PubDelivered));
   ActWorker 0%nat (WSelect SelIdleTimer)].


(** One snapshot to store 2: accepted and sent, but the stopper fires
    while the worker waits to publish the status. *)
Definition stop_while_publishing : list Action :=
  [ActSendAsync None (snapshot store2 1);
   ActWorker 0%nat (WDial dial_ok);
   ActWorker 0%nat (WSelect (SelQueue None PubShouldStop))].

(** Two destinations: the worker of the second gets to run first. *)
Definition second_destination_first : list Action :=
  [ActSendAsync None (heartbeat store2 1);
   ActSendAsync None (heartbeat store3 2);
   ActWorker 0%nat (WDial dial_ok);
   ActWorker 1%nat (WDial dial_ok);
   ActWorker 1%nat (WSelect (SelQueue None PubDelivered));
   ActWorker 0%nat (WSelect (SelQueue None PubDelivered))].

(** One destination, two classes: the snapshot is enqueued first and
    written last. *)
Definition heartbeat_before_snapshot : list Action :=
  [ActSendAsync None (snapshot store2 1);
   ActSendAsync None (heartbeat store2 2);
   ActWorker 0%nat (WDial dial_ok);
   ActWorker 1%nat (WDial dial_ok);
   ActWorker 1%nat (WSelect (SelQueue None PubDelivered));
   ActWorker 0%nat (WSelect (SelQueue None PubDelivered))].

(** The world an interleaving leads to. *)
Definition after (tr : list Action) : World :=
  default NewRaftTransport (run tr NewRaftTransport).

(** Three heartbeats to store 2, of which the worker has sent two. *)
Definition two_of_three : list Action :=
  [ActSendAsync None (heartbeat store2 1);
   ActWorker 0%nat (WDial dial_ok);
   ActSendAsync None (heartbeat store2 2);
   ActWorker 0%nat (WSelect (SelQueue None PubDelivered));
   ActSendAsync None (heartbeat store2 3);
   ActWorker 0%nat (WSelect (SelQueue None PubDelivered))].

(** The events that neither put a message on a channel nor write one to
    a stream. *)
Definition silent (e : Event) : Prop :=
  match e with
  | EvEnqueue _ _ | EvStreamSend _ _ _ => False
  | _ => True
  end.

(** ** What holds of every world reached from [NewRaftTransport] *)

Record Inv (w : World) : Prop := mkInv {
  (** what went onto a channel is what was written to its stream,
      followed by what still waits in its buffer *)
  inv_fifo : ∀ ch,
    enqueued_on ch (log w) = written_on ch (log w) ++ chans w ch;
  (** nothing has gone onto a channel that is not made yet *)
  inv_fresh : ∀ ch, (next_chan w ≤ ch)%nat → enqueued_on ch (log w) = [];
  (** the table only holds channels that were made *)
  inv_table : ∀ snap to ch,
    queue_of w snap to = Some ch → (ch < next_chan w)%nat;
  (** a running worker drains the channel the table holds for its key *)
  inv_workers : ∀ ch wk,
    workers w !! ch = Some wk →
    queue_of w (w_isSnap wk) (w_toReplica wk) = Some ch;
  (** a channel serves one class and one destination *)
  inv_key : ∀ ch, ∃ snap to,
    Forall (fun r => isSnap r = snap ∧ ToReplica r = to)
           (enqueued_on ch (log w))
    ∧ ∀ snap' to', queue_of w snap' to' = Some ch → snap' = snap ∧ to' = to
}.

(** In log [l], [a] was enqueued before [b] and yet [b] was written to
    its stream before [a] was written to its own. *)
Definition overtaken (a b : RaftMessageRequest) (l : list Event) : Prop :=
  ∃ (ca cb : chan) (i j i' j' : nat),
    l !! i = Some (EvEnqueue ca a) ∧ l !! j = Some (EvEnqueue cb b)
    ∧ (i < j)%nat
    ∧ l !! i' = Some (EvStreamSend ca a None)
    ∧ l !! j' = Some (EvStreamSend cb b None)
    ∧ (j' < i')%nat.

(** The entry of a key holds channel [ch], no worker drains [ch] and
    nothing was ever written from it: the state a refused spawn leaves. *)
Definition orphaned (snap : bool) (to : ReplicaDescriptor) (ch : chan)
    (w : World) : Prop :=
  queue_of w snap to = Some ch
  ∧ workers w !! ch = None
  ∧ written_on ch (log w) = [].

(** A refused spawn, then calls for other keys and their workers. *)
Definition refused_then_others : list Action :=
  [ActSendAsync None (heartbeat store3 1);
   ActWorker 1%nat (WDial dial_ok);
   ActSendAsync None (heartbeat store2 2);
   ActWorker 1%nat (WSelect (SelQueue None PubDelivered));
   ActWorker 1%nat (WSelect SelIdleTimer)].

(** ** Further bookkeeping on worlds and logs *)

(** The snapshots written to a stream, each with the error of its
    [stream.Send], oldest first. *)
Definition snapshot_writes (l : list Event) : list RaftSnapshotStatus :=
  omap (fun e => match e with
                 | EvStreamSend _ req err =>
                     if isSnap req then Some (mkSnapshotStatus req err)
                     else None
                 | _ => None
                 end) l.

(** Every status in the log is that of a snapshot, and the [stream.Send]
    of that snapshot with that very error stands before it. *)
Definition status_backed (l : list Event) : Prop :=
  ∀ i st, l !! i = Some (EvSnapshotStatus st) →
    isSnap (Req st) = true
    ∧ ∃ j ch, (j < i)%nat
              ∧ l !! j = Some (EvStreamSend ch (Req st) (Err st)).

(** More of what holds of every world reached from [NewRaftTransport]. *)
Record Inv2 (w : World) : Prop := mkInv2 {
  (** no buffer holds more than the channel's capacity *)
  inv2_bound : ∀ ch, (length (chans w ch) ≤ raftSendBufferSize)%nat;
  (** every channel made has had its [onError] call, or its worker
      still runs *)
  inv2_account :
    (length (onError_calls (log w)) + size (workers w))%nat = next_chan w;
  (** a worker that has not reached its loop has written nothing *)
  inv2_dialing : ∀ ch wk,
    workers w !! ch = Some wk → w_phase wk = Dialing →
    written_on ch (log w) = [];
  inv2_status : status_backed (log w);
  (** no more statuses than snapshots written *)
  inv2_count :
    (length (snapshot_statuses (log w))
     ≤ length (snapshot_writes (log w)))%nat
}.

(** Channel [ch] was made, no worker drains it and the table does not
    hold it: the state a worker leaves behind when it ends. *)
Definition dead_chan (ch : chan) (w : World) : Prop :=
  (ch < next_chan w)%nat
  ∧ workers w !! ch = None
  ∧ ∀ snap to, queue_of w snap to ≠ Some ch.

(** Between [w] and [w'] nothing went onto channel [ch], nothing came
    off it and nothing of it was written. *)
Definition untouched (ch : chan) (w w' : World) : Prop :=
  chans w' ch = chans w ch
  ∧ enqueued_on ch (log w') = enqueued_on ch (log w)
  ∧ written_on ch (log w') = written_on ch (log w).

(** A heartbeat is accepted for store 2, then the address of node 2
    cannot be resolved. *)
Definition resolver_fails : DialOutcome :=
  mkDial (Some (ExternalError "unable to look up descriptor for node 2"))
         None None None.

Definition dial_fails : list Action :=
  [ActSendAsync None (heartbeat store2 1);
   ActSendAsync None (heartbeat store2 2);
   ActWorker 0%nat (WDial resolver_fails)].

(** What may follow: further calls for the key and the new worker. *)
Definition retry_after_failure : list Action :=
  [ActSendAsync None (heartbeat store2 3);
   ActWorker 1%nat (WDial dial_ok);
   ActWorker 1%nat (WSelect (SelQueue None PubDelivered))].

(** The errors the collaborators return in the course of an action:
    [RunTask] for a call of [SendAsync]; the resolver, the dial, the
    opening of the stream, [RunTask], [stream.RecvMsg] and [stream.Send]
    for a worker. *)
Definition DialOutcome_errors (d : DialOutcome) : list error :=
  omap id [resolver_err d; GRPCDial_err d; RaftMessage_err d; RunTask_err d].

Definition Action_errors (a : Action) : list error :=
  match a with
  | ActSendAsync (Some err) _ => [err]
  | ActSendAsync None _ => []
  | ActWorker _ (WDial d) => DialOutcome_errors d
  | ActWorker _ (WSelect (SelErrCh (Some err))) => [err]
  | ActWorker _ (WSelect (SelQueue (Some err) _)) => [err]
  | ActWorker _ (WSelect _) => []
  end.

(** The worker of [ch] takes [n] messages off its queue, one after the
    other, each send and each status publication going through. *)
Definition drain (ch : chan) (n : nat) : list Action :=
  replicate n (ActWorker ch (WSelect (SelQueue None PubDelivered))).

(** The statuses a worker publishes for the snapshots among [buf] when
    every send succeeds. *)
Definition statuses_of (buf : list RaftMessageRequest)
    : list RaftSnapshotStatus :=
  omap (fun req => if isSnap req then Some (mkSnapshotStatus req None)
                   else None) buf.

(** ** The same code, step by step between its lock boundaries

    Above, a call of [SendAsync] is one step and so is the way out of a
    worker. Here a call goes through its three regions one at a time
    (lines 255-270 under the lock, 272-285, 287-292) and a worker
    returns from [processQueue], calls [onError] and deletes its entry
    (lines 278-280) in separate steps, so that other goroutines run in
    between. *)

(** Where a call of [SendAsync] stands after its lookup. *)
Inductive Stage : Set :=
| ToSpawn   (* it made the entry and is about to call [RunTask] *)
| ToSend.   (* it is about to run the last [select] *)

(** The local variables [ch] and [req] of a call in progress. *)
Record Pending : Set := mkPending {
  p_ch : chan;
  p_req : RaftMessageRequest;
  p_stage : Stage
}.

(** Where a worker closure stands once [processQueue] has returned. *)
Inductive ExitStage : Set :=
| Returned (ret : option error)   (* about to call [onError(ret, toReplica)] *)
| Reported.                       (* about to delete its entry *)

Record FWorld : Type := mkFWorld {
  base : World;
  (** the calls of [SendAsync] in progress, by caller *)
  pending : gmap nat Pending;
  (** the workers that are past [processQueue] *)
  exiting : gmap chan ExitStage;
  (** what the finished calls of [SendAsync] returned, by caller *)
  answers : gmap nat bool
}.

Definition FNew : FWorld := mkFWorld NewRaftTransport ∅ ∅ ∅.

Definition set_base (w : World) (fw : FWorld) : FWorld :=
  mkFWorld w (pending fw) (exiting fw) (answers fw).

Inductive FAction : Set :=
| FLookup (sid : nat) (req : RaftMessageRequest)
    (* lines 255-270: caller [sid] finds or makes the channel *)
| FSpawn (sid : nat) (runTask : option error)
    (* lines 272-285: it registers the worker, [RunTask] answering *)
| FSend (sid : nat)
    (* lines 287-292: it tries to enqueue and returns *)
| FWorker (ch : chan) (ev : WorkerEvent)
    (* a step of [processQueue] in the worker of [ch] *)
| FOnError (ch : chan)
    (* line 276: the closure calls [onError] with what was returned *)
| FDelete (ch : chan).
    (* lines 278-280: the closure deletes its entry and ends *)

(** Lines 278-280 alone: [delete(queues, toReplica)] and the end of the
    goroutine. *)
Definition delete_entry (ch : chan) (wk : Worker) (w : World) : World :=
  let w2 :=
    set_queues (alter (delete (w_toReplica wk)) (w_isSnap wk) (queues w)) w in
  set_workers (delete ch (workers w2)) w2.

Definition fstep (a : FAction) (fw : FWorld) : option FWorld :=
  match a with
  | FLookup sid req =>
      match pending fw !! sid with
      | Some _ => None
      | None =>
          let '(ch, ok, w1) := lookup_or_create req (base fw) in
          Some (mkFWorld w1
                  (<[sid := mkPending ch req (if ok then ToSend else ToSpawn)]>
                     (pending fw))
                  (exiting fw) (answers fw))
      end
  | FSpawn sid runTask =>
      match pending fw !! sid with
      | Some (mkPending ch req ToSpawn) =>
          Some (mkFWorld (spawn_worker runTask ch req (base fw))
                  (<[sid := mkPending ch req ToSend]> (pending fw))
                  (exiting fw) (answers fw))
      | _ => None
      end
  | FSend sid =>
      match pending fw !! sid with
      | Some (mkPending ch req ToSend) =>
          let '(w1, ok) := try_send ch req (base fw) in
          Some (mkFWorld w1 (delete sid (pending fw)) (exiting fw)
                  (<[sid := ok]> (answers fw)))
      | _ => None
      end
  | FWorker ch ev =>
      match workers (base fw) !! ch, exiting fw !! ch with
      | Some wk, None =>
          match w_phase wk, ev with
          | Dialing, WDial d =>
              match processQueue_dial d with
              | Some err =>
                  Some (mkFWorld (base fw) (pending fw)
                          (<[ch := Returned (Some err)]> (exiting fw))
                          (answers fw))
              | None => Some (set_base (set_phase ch wk Draining (base fw)) fw)
              end
          | Draining, WSelect sel =>
              match processQueue_select ch sel (base fw) with
              | None => None
              | Some (w1, Continue) => Some (set_base w1 fw)
              | Some (w1, Return ret) =>
                  Some (mkFWorld w1 (pending fw)
                          (<[ch := Returned ret]> (exiting fw)) (answers fw))
              end
          | _, _ => None
          end
      | _, _ => None
      end
  | FOnError ch =>
      match workers (base fw) !! ch, exiting fw !! ch with
      | Some wk, Some (Returned ret) =>
          Some (mkFWorld (emit (EvOnError ret (w_toReplica wk)) (base fw))
                  (pending fw) (<[ch := Reported]> (exiting fw)) (answers fw))
      | _, _ => None
      end
  | FDelete ch =>
      match workers (base fw) !! ch, exiting fw !! ch with
      | Some wk, Some Reported =>
          Some (mkFWorld (delete_entry ch wk (base fw)) (pending fw)
                  (delete ch (exiting fw)) (answers fw))
      | _, _ => None
      end
  end.

Fixpoint frun (tr : list FAction) (fw : FWorld) : option FWorld :=
  match tr with
  | [] => Some fw
  | a :: tr' =>
      match fstep a fw with
      | Some fw' => frun tr' fw'
      | None => None
      end
  end.

(** The regions of one call of [SendAsync] by caller [sid], back to
    back; [created] tells whether the call has to make the entry. *)
Definition call_SendAsync (sid : nat) (runTask : option error)
    (req : RaftMessageRequest) (created : bool) : list FAction :=
  FLookup sid req
  :: (if created then [FSpawn sid runTask] else []) ++ [FSend sid].

(** The way out of the worker of [ch], back to back. *)
Definition leave (ch : chan) : list FAction := [FOnError ch; FDelete ch].

(** Caller [sid] has looked up the channel when the worker idles out and
    deletes its entry; only then does the caller enqueue. *)
Definition late_send (sid : nat) (ch : chan) (req : RaftMessageRequest)
    : list FAction :=
  [FLookup sid req; FWorker ch (WSelect SelIdleTimer); FOnError ch;
   FDelete ch; FSend sid].

(** No call in progress and no worker on its way out. *)
Definition quiet (fw : FWorld) : Prop :=
  pending fw = ∅ ∧ exiting fw = ∅.

(** What holds of the queues in every world reached step by step. *)
Record Inv0 (w : World) : Prop := mkInv0 {
  inv0_fifo : ∀ ch,
    enqueued_on ch (log w) = written_on ch (log w) ++ chans w ch;
  inv0_fresh : ∀ ch, (next_chan w ≤ ch)%nat → enqueued_on ch (log w) = [];
  inv0_table : ∀ snap to ch,
    queue_of w snap to = Some ch → (ch < next_chan w)%nat;
  inv0_inj : ∀ s1 t1 s2 t2 ch,
    queue_of w s1 t1 = Some ch → queue_of w s2 t2 = Some ch →
    s1 = s2 ∧ t1 = t2;
  inv0_bound : ∀ ch, (length (chans w ch) ≤ raftSendBufferSize)%nat
}.

(** The calls in progress hold channels that were made. *)
Definition FInv (fw : FWorld) : Prop :=
  Inv0 (base fw)
  ∧ ∀ sid p, pending fw !! sid = Some p → (p_ch p < next_chan (base fw))%nat.

(** Channel [ch] was made, no worker drains it, the table does not hold
    it and no call in progress has looked it up. *)
Definition fdead (ch : chan) (fw : FWorld) : Prop :=
  dead_chan ch (base fw)
  ∧ ∀ sid p, pending fw !! sid = Some p → p_ch p ≠ ch.

(** Workers and entries, step by step: a worker that has not deleted
    its entry is the one the table holds for its key; a call that made
    an entry and has not yet called [RunTask] still finds it in the
    table, without a worker, and is the only such call for its
    channel. *)
Record FInv2 (fw : FWorld) : Prop := mkFInv2 {
  finv2_workers : ∀ ch wk,
    workers (base fw) !! ch = Some wk →
    queue_of (base fw) (w_isSnap wk) (w_toReplica wk) = Some ch;
  finv2_tospawn : ∀ sid p,
    pending fw !! sid = Some p → p_stage p = ToSpawn →
    queue_of (base fw) (isSnap (p_req p)) (ToReplica (p_req p))
    = Some (p_ch p)
    ∧ workers (base fw) !! p_ch p = None;
  finv2_unique : ∀ sid1 sid2 p1 p2,
    pending fw !! sid1 = Some p1 → pending fw !! sid2 = Some p2 →
    p_stage p1 = ToSpawn → p_stage p2 = ToSpawn →
    p_ch p1 = p_ch p2 → sid1 = sid2
}.

(** Two callers race on a destination that has no queue yet; both are
    accepted and the worker starts. *)
Definition cold_race : list FAction :=
  [FLookup 1%nat (heartbeat store2 1);
   FLookup 2%nat (heartbeat store2 2);
   FSend 2%nat;
   FSpawn 1%nat None;
   FSend 1%nat;
   FWorker 0%nat (WDial dial_ok)].

(** Caller 0 makes the entry of store 2 and unlocks; before it calls
    [RunTask] and reaches its [select], a hundred other callers find
    the entry and fill the buffer. *)
Definition crowded_out : list FAction :=
  FLookup 0%nat (heartbeat store2 0)
  :: flat_map
       (fun i => call_SendAsync i None (heartbeat store2 (Z.of_nat i)) false)
       (seq 1 100)
  ++ [FSpawn 0%nat None; FSend 0%nat].

(** ** The inbound session, call by call

    [Inbound.RaftMessage] gives what one call of [RaftMessage] returns.
    Here the same lines run one step at a time: the reader goroutine
    (lines 124-143) makes one turn of its loop per step, the body of
    [RaftMessage] waits in its [select] (lines 149-154), and other
    goroutines call [Listen] and [Stop] in between. Every call made on
    the stream and on a handler is recorded, in order. *)

Module Session.
Import Registry Inbound.

(** The reader goroutine: never started ([RunTask] refused), inside its
    [for] loop, or returned. *)
Inductive Reader : Set :=
| NotStarted
| InLoop
| Ended.

(** The calls the session makes on its collaborators. *)
Inductive Call : Type :=
| CallRecv (r : RaftMessageRequest + error)
    (* [stream.Recv()] returned [r] *)
| CallHandler (req : RaftMessageRequest) (res : option error)
    (* [handler(req)] returned [res] *)
| CallSendAndClose (resp : RaftMessageResponse) (res : option error).
    (* [stream.SendAndClose(resp)] returned [res] *)

Record State : Type := mkState {
  (** [t.mu.handlers] *)
  s_handlers : handlers;
  s_reader : Reader;
  (** [errCh], of capacity 1: what it holds *)
  s_errCh : option error;
  s_calls : list Call;
  (** what [RaftMessage] returned, once it has *)
  s_result : option (option error)
}.

(** Lines 119-147: [runTask] is the result of [Stopper.RunTask]. When
    it refuses, [RaftMessage] has returned its error and the reader was
    never started. *)
Definition RaftMessage_start (runTask : option error) (hs : handlers)
    : State :=
  match runTask with
  | Some err => mkState hs NotStarted None [] (Some (Some err))
  | None => mkState hs InLoop None [] None
  end.

Inductive SAction : Type :=
| SRecv (r : RaftMessageRequest + error)
    (* one turn of the reader's loop, [stream.Recv()] returning [r] *)
| SListen (storeID : StoreID) (handler : raftMessageHandler)
| SStop (storeID : StoreID)
| SSelectErrCh
    (* case err := <-errCh *)
| SSelectShouldDrain (sendAndClose : option error).
    (* case <-ShouldDrain(), [stream.SendAndClose] returning [sendAndClose] *)

(** The reader returns [err]: it is sent on [errCh], which has room for
    it, and the goroutine ends. *)
Definition reader_returns (err : error) (calls : list Call) (st : State)
    : State :=
  mkState (s_handlers st) Ended (Some err) calls (s_result st).

(** [None]: the step cannot be taken (the reader is not in its loop;
    nothing is on [errCh]; [RaftMessage] has returned already). *)
Definition sstep (a : SAction) (st : State) : option State :=
  match a with
  | SListen s h =>
      Some (mkState (Listen s h (s_handlers st)) (s_reader st) (s_errCh st)
              (s_calls st) (s_result st))
  | SStop s =>
      Some (mkState (Stop s (s_handlers st)) (s_reader st) (s_errCh st)
              (s_calls st) (s_result st))
  | SRecv r =>
      match s_reader st with
      | InLoop =>
          let calls := s_calls st ++ [CallRecv r] in
          match r with
          | inr err => Some (reader_returns err calls st)
          | inl req =>
              match s_handlers st !! StoreID_ (ToReplica req) with
              | None =>
                  Some (reader_returns
                          (Errorf proxy_format (To (Message_ req))) calls st)
              | Some handler =>
                  let calls' := calls ++ [CallHandler req (handler req)] in
                  match handler req with
                  | Some err => Some (reader_returns err calls' st)
                  | None =>
                      Some (mkState (s_handlers st) InLoop (s_errCh st)
                              calls' (s_result st))
                  end
              end
          end
      | _ => None
      end
  | SSelectErrCh =>
      match s_result st, s_errCh st with
      | None, Some err =>
          Some (mkState (s_handlers st) (s_reader st) None (s_calls st)
                  (Some (Some err)))
      | _, _ => None
      end
  | SSelectShouldDrain sendAndClose =>
      match s_result st with
      | None =>
          Some (mkState (s_handlers st) (s_reader st) (s_errCh st)
                  (s_calls st ++ [CallSendAndClose mkResponse sendAndClose])
                  (Some sendAndClose))
      | Some _ => None
      end
  end.

Fixpoint srun (acts : list SAction) (st : State) : option State :=
  match acts with
  | [] => Some st
  | a :: acts' =>
      match sstep a st with
      | Some st' => srun acts' st'
      | None => None
      end
  end.

(** What [stream.Recv()] returned, call after call. *)
Definition reads (calls : list Call) : list (RaftMessageRequest + error) :=
  omap (fun c => match c with CallRecv r => Some r | _ => None end) calls.

(** The messages handed to a handler. *)
Definition handled (calls : list Call) : list RaftMessageRequest :=
  omap (fun c => match c with CallHandler req _ => Some req | _ => None end)
    calls.

(** The replies written on the stream. *)
Definition replies (calls : list Call) : list StreamReply :=
  omap (fun c => match c with
                 | CallSendAndClose resp _ => Some (SendAndClose resp)
                 | _ => None
                 end) calls.

(** The [Recv] results among the steps. *)
Definition recvs (acts : list SAction) : list (RaftMessageRequest + error) :=
  omap (fun a => match a with SRecv r => Some r | _ => None end) acts.


(** What the reader meets among the steps. *)
Definition to_events (acts : list SAction) : list InboundEvent :=
  omap (fun a => match a with
                 | SRecv r => Some (InRecv r)
                 | SListen s h => Some (InListen s h)
                 | SStop s => Some (InStop s)
                 | _ => None
                 end) acts.




End Session.

(** * Properties *)

(** ** The handler registry *)

Section registry.
Import Registry.

(** C9. After [Listen S H] the handler of [S] is [H], whatever was
    registered before; after [Stop S] no handler is registered for [S];
    [Stop] on a store [U] that has no handler changes nothing; and
    neither call touches the entry of another store [S']. *)
Theorem Listen_Stop_frame (S S' U : StoreID) (H : raftMessageHandler)
    (hs : handlers) :
  S' ≠ S →
  hs !! U = None →
  Listen S H hs !! S = Some H
  ∧ Stop S hs !! S = None
  ∧ Stop U hs = hs
  ∧ Listen S H hs !! S' = hs !! S'
  ∧ Stop S hs !! S' = hs !! S'.
Proof.
  intros Hne HU. unfold Listen, Stop. repeat split.
  - apply lookup_insert_eq.
  - apply lookup_delete_eq.
  - by apply delete_id.
  - by apply lookup_insert_ne.
  - by apply lookup_delete_ne.
Qed.

Lemma Listen_Stop_frame_witness :
  let accept : raftMessageHandler := fun _ => None in
  let refuse : raftMessageHandler := fun _ => Some broken_pipe in
  let hs : handlers := Listen 1 refuse (Listen 2 accept empty) in
  2 ≠ 1
  ∧ hs !! 3 = None
  ∧ Listen 1 accept hs !! 1 = Some accept
  ∧ Stop 1 hs !! 1 = None
  ∧ Stop 3 hs = hs
  ∧ Listen 1 accept hs !! 2 = hs !! 2
  ∧ Stop 1 hs !! 2 = hs !! 2.
Proof.
  intros accept refuse hs.
  split; [lia |]. split; [reflexivity |].
  apply (Listen_Stop_frame 1 2 3 accept hs); [lia | reflexivity].
Defined.

End registry.

(** ** The inbound dispatcher *)

Section inbound.
Import Registry Inbound.




End inbound.

(** ** The queue table and the non-blocking enqueue *)

Section send.

Lemma queue_of_with_new_queue (snap snap' : bool) (to to' : ReplicaDescriptor)
    (w : World) :
  queue_of (with_new_queue snap to w) snap' to'
  = if decide (snap' = snap ∧ to' = to) then Some (next_chan w)
    else queue_of w snap' to'.
Proof.
  unfold queue_of, with_new_queue; simpl.
  destruct (decide (snap' = snap)) as [-> | Hs].
  - rewrite lookup_insert_eq; simpl.
    destruct (decide (to' = to)) as [-> | Ht].
    + rewrite lookup_insert_eq. by rewrite decide_True.
    + rewrite lookup_insert_ne by done.
      rewrite decide_False by (intros [? ?]; done).
      destruct (queues w !! snap); simpl; [done | apply lookup_empty].
  - rewrite lookup_insert_ne by done. rewrite decide_False by (intros [? ?]; done).
    done.
Qed.

Lemma lookup_or_create_hit (req : RaftMessageRequest) (w : World) (ch : chan) :
  queue_of w (isSnap req) (ToReplica req) = Some ch →
  lookup_or_create req w = (ch, true, w).
Proof.
  unfold queue_of, lookup_or_create. intros H.
  destruct (queues w !! isSnap req) as [inner |]; simpl in H; [| done].
  by rewrite H.
Qed.

Lemma lookup_or_create_miss (req : RaftMessageRequest) (w : World) :
  queue_of w (isSnap req) (ToReplica req) = None →
  lookup_or_create req w
  = (next_chan w, false, with_new_queue (isSnap req) (ToReplica req) w).
Proof.
  unfold queue_of, lookup_or_create, with_new_queue. intros H.
  destruct (queues w !! isSnap req) as [inner |]; simpl in *.
  - by rewrite H.
  - rewrite lookup_empty. simpl. unfold set_queues; simpl.
    by rewrite insert_insert_eq.
Qed.

Lemma SendAsync_hit (runTask : option error) (req : RaftMessageRequest)
    (w : World) (ch : chan) :
  queue_of w (isSnap req) (ToReplica req) = Some ch →
  SendAsync runTask req w = try_send ch req w.
Proof. intros H. unfold SendAsync. by rewrite (lookup_or_create_hit _ _ _ H). Qed.

Lemma SendAsync_miss (runTask : option error) (req : RaftMessageRequest)
    (w : World) :
  queue_of w (isSnap req) (ToReplica req) = None →
  SendAsync runTask req w
  = try_send (next_chan w) req
      (spawn_worker runTask (next_chan w) req
         (with_new_queue (isSnap req) (ToReplica req) w)).
Proof. intros H. unfold SendAsync. by rewrite (lookup_or_create_miss _ _ H). Qed.

Lemma try_send_room (ch : chan) (req : RaftMessageRequest) (w : World) :
  (length (chans w ch) < raftSendBufferSize)%nat →
  try_send ch req w
  = (emit (EvEnqueue ch req) (set_chan ch (chans w ch ++ [req]) w), true).
Proof. intros H. unfold try_send. by rewrite decide_True. Qed.

Lemma try_send_full (ch : chan) (req : RaftMessageRequest) (w : World) :
  (raftSendBufferSize ≤ length (chans w ch))%nat →
  try_send ch req w = (w, false).
Proof. intros H. unfold try_send. rewrite decide_False; [done | lia]. Qed.

Lemma queue_of_spawn_worker runTask ch req w snap to :
  queue_of (spawn_worker runTask ch req w) snap to = queue_of w snap to.
Proof. by destruct runTask. Qed.

Lemma chans_spawn_worker runTask ch req w :
  chans (spawn_worker runTask ch req w) = chans w.
Proof. by destruct runTask. Qed.

Lemma try_send_spec (ch : chan) (req : RaftMessageRequest) (w : World) :
  let before := chans w ch in
  let '(w', ok) := try_send ch req w in
  (∀ snap to, queue_of w' snap to = queue_of w snap to)
  ∧ (ok = true ↔ chans w' ch = before ++ [req])
  ∧ (ok = false ↔ chans w' ch = before)
  ∧ (ok = false ↔ (raftSendBufferSize ≤ length before)%nat).
Proof.
  simpl. unfold try_send.
  destruct (decide (length (chans w ch) < raftSendBufferSize)%nat) as [Hlt | Hge];
    simpl.
  - rewrite fn_lookup_insert. repeat split; try done; try lia.
    intros H; apply (f_equal length) in H; rewrite length_app in H.
    simpl in H; lia.
  - repeat split; try done; try lia.
    intros H; apply (f_equal length) in H; rewrite length_app in H.
    simpl in H; lia.
Qed.

(** C2. [SendAsync] always returns (it is a total function: the last
    [select] has a [default]); it returns true exactly when [req] was
    appended to the buffer of its destination's channel [ch], false
    exactly when that buffer is left as it was, and false exactly when
    the buffer already held [raftSendBufferSize] messages. [before] is
    the buffer the call finds: the existing one, or the empty buffer of
    the channel it has just made. *)
Theorem SendAsync_true_iff_enqueued (runTask : option error)
    (req : RaftMessageRequest) (w : World) :
  let '(ch, _, w1) := lookup_or_create req w in
  let before := chans w1 ch in
  let '(w', ok) := SendAsync runTask req w in
  queue_of w' (isSnap req) (ToReplica req) = Some ch
  ∧ (ok = true ↔ chans w' ch = before ++ [req])
  ∧ (ok = false ↔ chans w' ch = before)
  ∧ (ok = false ↔ (raftSendBufferSize ≤ length before)%nat).
Proof.
  destruct (queue_of w (isSnap req) (ToReplica req)) as [ch |] eqn:Hq.
  - rewrite (lookup_or_create_hit _ _ _ Hq), (SendAsync_hit _ _ _ _ Hq).
    pose proof (try_send_spec ch req w) as Hs. simpl in *.
    destruct (try_send ch req w) as [w' ok].
    destruct Hs as (Hqs & ? & ? & ?). by rewrite Hqs.
  - rewrite (lookup_or_create_miss _ _ Hq), (SendAsync_miss _ _ _ Hq).
    set (w1 := with_new_queue (isSnap req) (ToReplica req) w).
    pose proof (try_send_spec (next_chan w) req
                  (spawn_worker runTask (next_chan w) req w1)) as Hs.
    simpl in *.
    destruct (try_send _ req _) as [w' ok].
    destruct Hs as (Hqs & ? & ? & ?).
    rewrite chans_spawn_worker in *.
    rewrite Hqs, queue_of_spawn_worker. unfold w1.
    rewrite queue_of_with_new_queue, decide_True by done. done.
Qed.

(** A run of [SendAsync] calls on a key whose entry exists: the table,
    the workers and the other channels stay as they are, the calls are
    accepted while there is room and refused afterwards. *)
Lemma SendAsync_all_hit (reqs : list (option error * RaftMessageRequest))
    (w : World) (snap : bool) (to : ReplicaDescriptor) (ch : chan) :
  queue_of w snap to = Some ch →
  same_key snap to reqs →
  let room := (raftSendBufferSize - length (chans w ch))%nat in
  let n := length reqs in
  let '(w', oks) := SendAsync_all reqs w in
  oks = replicate (n `min` room) true ++ replicate (n - room) false
  ∧ queues w' = queues w
  ∧ workers w' = workers w
  ∧ next_chan w' = next_chan w
  ∧ chans w' ch = chans w ch ++ take room reqs.*2
  ∧ log w' = log w ++ (EvEnqueue ch <$> take room reqs.*2).
Proof.
  revert w. induction reqs as [| [rt req] reqs IH]; intros w Hq Hk; simpl.
  - rewrite take_nil. simpl. by rewrite !app_nil_r.
  - apply Forall_cons in Hk as [[Hs Ht] Hk]. simpl in Hs, Ht. subst snap to.
    rewrite (SendAsync_hit _ _ _ _ Hq). unfold try_send.
    destruct (decide (length (chans w ch) < raftSendBufferSize)%nat)
      as [Hlt | Hge].
    + set (w1 := emit _ _).
      assert (Hq1 : queue_of w1 (isSnap req) (ToReplica req) = Some ch) by done.
      specialize (IH w1 Hq1 Hk). simpl in IH.
      destruct (SendAsync_all reqs w1) as [w2 oks].
      destruct IH as (-> & -> & -> & -> & -> & ->).
      unfold w1; simpl. rewrite fn_lookup_insert, length_app; simpl.
      replace (raftSendBufferSize - length (chans w ch))%nat
        with (S (raftSendBufferSize - (length (chans w ch) + 1)))%nat by lia.
      simpl. by rewrite <- !app_assoc.
    + specialize (IH w Hq Hk). simpl in IH.
      destruct (SendAsync_all reqs w) as [w2 oks].
      destruct IH as (-> & -> & -> & -> & -> & ->).
      replace (raftSendBufferSize - length (chans w ch))%nat with 0%nat by lia.
      rewrite Nat.min_0_r, !Nat.sub_0_r. simpl. done.
Qed.

(** C7. A queue is made with room for [raftSendBufferSize] = 100
    messages. From any world where the key has no entry, 100 calls of
    [SendAsync] for that key with no worker draining in between are all
    accepted and fill the new channel with the 100 messages in order;
    the 101st call returns false and leaves the world as it was, so its
    message is in no queue. *)
Theorem queue_capacity_is_100 (w : World) (snap : bool)
    (to : ReplicaDescriptor)
    (reqs : list (option error * RaftMessageRequest))
    (runTask : option error) (last : RaftMessageRequest) :
  queue_of w snap to = None →
  same_key snap to (reqs ++ [(runTask, last)]) →
  length reqs = 100%nat →
  let '(w100, oks) := SendAsync_all reqs w in
  oks = replicate 100 true
  ∧ queue_of w100 snap to = Some (next_chan w)
  ∧ chans w100 (next_chan w) = reqs.*2
  ∧ SendAsync runTask last w100 = (w100, false).
Proof.
  intros Hq Hk Hlen.
  apply Forall_app in Hk as [Hk Hlast].
  apply Forall_singleton in Hlast as [Hs Ht]. simpl in Hs, Ht.
  destruct reqs as [| [rt req] reqs]; [done |]. simpl in Hlen.
  apply Forall_cons in Hk as [[Hs1 Ht1] Hk]. simpl in Hs1, Ht1.
  assert (Hq' : queue_of w (isSnap req) (ToReplica req) = None)
    by (by rewrite Hs1, Ht1).
  cbn [SendAsync_all]. rewrite (SendAsync_miss _ _ _ Hq').
  set (w0 := spawn_worker _ _ _ _).
  assert (Hc0 : chans w0 (next_chan w) = []).
  { unfold w0. rewrite chans_spawn_worker. apply fn_lookup_insert. }
  rewrite try_send_room by (rewrite Hc0; unfold raftSendBufferSize; simpl; lia).
  set (w1 := emit _ _).
  assert (Hq1 : queue_of w1 snap to = Some (next_chan w)).
  { unfold w1, w0. change (queue_of (emit ?e (set_chan ?c ?b ?x)))
      with (queue_of x).
    rewrite queue_of_spawn_worker, queue_of_with_new_queue.
    by rewrite decide_True. }
  assert (Hc1 : chans w1 (next_chan w) = [req]).
  { unfold w1; cbn [chans emit set_chan]. by rewrite fn_lookup_insert, Hc0. }
  pose proof (SendAsync_all_hit reqs w1 _ _ _ Hq1 Hk) as Hall.
  cbv zeta in Hall. rewrite Hc1 in Hall.
  destruct (SendAsync_all reqs w1) as [w100 oks].
  destruct Hall as (-> & Hqs & _ & _ & Hch & _).
  assert (Hlen' : length reqs = 99%nat) by lia.
  assert (Hq100 : queue_of w100 snap to = Some (next_chan w)).
  { unfold queue_of in *. by rewrite Hqs. }
  rewrite take_ge in Hch
    by (rewrite length_fmap, Hlen'; unfold raftSendBufferSize; simpl; lia).
  rewrite Hlen'. repeat split; try done.
  rewrite <- Hs, <- Ht in Hq100.
  rewrite (SendAsync_hit _ _ _ _ Hq100).
  apply try_send_full. rewrite Hch, length_app, length_fmap, Hlen'.
  unfold raftSendBufferSize. simpl. lia.
Qed.

Lemma queue_capacity_is_100_witness :
  let reqs :=
    (fun i => (@None error, heartbeat store2 (Z.of_nat i))) <$> seq 1 100 in
  queue_of NewRaftTransport false store2 = None
  ∧ same_key false store2 (reqs ++ [(None, heartbeat store2 101)])
  ∧ length reqs = 100%nat
  ∧ let '(w100, oks) := SendAsync_all reqs NewRaftTransport in
    oks = replicate 100 true
    ∧ queue_of w100 false store2 = Some (next_chan NewRaftTransport)
    ∧ chans w100 (next_chan NewRaftTransport) = reqs.*2
    ∧ SendAsync None (heartbeat store2 101) w100 = (w100, false).
Proof.
  intros reqs.
  assert (Hk : same_key false store2 (reqs ++ [(None, heartbeat store2 101)])).
  { apply Forall_forall. intros [rt req] Hin.
    apply elem_of_app in Hin as [Hin | Hin].
    - apply list_elem_of_fmap in Hin as (i & [= -> ->] & _). by split.
    - apply list_elem_of_singleton in Hin as [= -> ->]. by split. }
  split; [reflexivity |]. split; [exact Hk |]. split; [reflexivity |].
  apply (queue_capacity_is_100 NewRaftTransport false store2 reqs None
           (heartbeat store2 101)); [reflexivity | exact Hk | reflexivity].
Defined.

End send.

(** ** Workers, interleavings and the invariant *)

Section worker.

Lemma enqueued_on_snoc (ch : chan) (l : list Event) (e : Event) :
  enqueued_on ch (l ++ [e])
  = enqueued_on ch l
    ++ match e with
       | EvEnqueue c req => if decide (c = ch) then [req] else []
       | _ => []
       end.
Proof.
  unfold enqueued_on. rewrite omap_app. f_equal.
  destruct e; simpl; try done. by case_decide.
Qed.

Lemma written_on_snoc (ch : chan) (l : list Event) (e : Event) :
  written_on ch (l ++ [e])
  = written_on ch l
    ++ match e with
       | EvStreamSend c req _ => if decide (c = ch) then [req] else []
       | _ => []
       end.
Proof.
  unfold written_on. rewrite omap_app. f_equal.
  destruct e; simpl; try done. by case_decide.
Qed.

Lemma onError_calls_snoc (l : list Event) (e : Event) :
  onError_calls (l ++ [e])
  = onError_calls l
    ++ match e with
       | EvOnError err to => [(err, to)]
       | _ => []
       end.
Proof. unfold onError_calls. rewrite omap_app. f_equal. by destruct e. Qed.

Lemma snapshot_statuses_snoc (l : list Event) (e : Event) :
  snapshot_statuses (l ++ [e])
  = snapshot_statuses l
    ++ match e with
       | EvSnapshotStatus st => [st]
       | _ => []
       end.
Proof. unfold snapshot_statuses. rewrite omap_app. f_equal. by destruct e. Qed.

Lemma queue_of_worker_exit (ch : chan) (wk : Worker) (ret : option error)
    (w : World) (snap : bool) (to : ReplicaDescriptor) :
  queue_of (worker_exit ch wk ret w) snap to
  = if decide (snap = w_isSnap wk ∧ to = w_toReplica wk) then None
    else queue_of w snap to.
Proof.
  unfold queue_of, worker_exit; simpl. rewrite lookup_alter.
  destruct (decide (w_isSnap wk = snap)) as [<- | Hs].
  - destruct (queues w !! w_isSnap wk) as [inner |]; simpl.
    + rewrite lookup_delete.
      destruct (decide (w_toReplica wk = to)) as [<- | Ht].
      * by rewrite decide_True.
      * rewrite decide_False; [done | intros [_ ->]; done].
    + by case_decide.
  - rewrite decide_False; [done | intros [-> _]; done].
Qed.

Lemma enqueued_on_silent (ch : chan) (l : list Event) (e : Event) :
  silent e → enqueued_on ch (l ++ [e]) = enqueued_on ch l.
Proof.
  intros He. rewrite enqueued_on_snoc.
  destruct e; simpl in *; try done; apply app_nil_r.
Qed.

Lemma written_on_silent (ch : chan) (l : list Event) (e : Event) :
  silent e → written_on ch (l ++ [e]) = written_on ch l.
Proof.
  intros He. rewrite written_on_snoc.
  destruct e; simpl in *; try done; apply app_nil_r.
Qed.

Lemma Inv_init : Inv NewRaftTransport.
Proof.
  split; try done.
  intros ch. exists false, store1. split; [constructor | done].
Qed.

Lemma Inv_emit_silent (e : Event) (w : World) :
  silent e → Inv w → Inv (emit e w).
Proof.
  intros He [Hfifo Hfresh Htable Hworkers Hkey]. split; simpl.
  - intros ch. rewrite enqueued_on_silent, written_on_silent by done.
    apply Hfifo.
  - intros ch Hch. rewrite enqueued_on_silent by done. by apply Hfresh.
  - apply Htable.
  - apply Hworkers.
  - intros ch. destruct (Hkey ch) as (snap & to & HF & Hq).
    exists snap, to. by rewrite enqueued_on_silent.
Qed.

Lemma Inv_try_send (ch : chan) (req : RaftMessageRequest) (w : World) :
  Inv w →
  queue_of w (isSnap req) (ToReplica req) = Some ch →
  Inv (try_send ch req w).1.
Proof.
  intros Hinv Hq. unfold try_send. case_decide; [| done].
  destruct Hinv as [Hfifo Hfresh Htable Hworkers Hkey]. split; simpl.
  - intros c. rewrite enqueued_on_snoc, written_on_snoc, app_nil_r.
    destruct (decide (ch = c)) as [<- | Hne].
    + by rewrite fn_lookup_insert, Hfifo, app_assoc.
    + by rewrite fn_lookup_insert_ne, app_nil_r.
  - intros c Hc. rewrite enqueued_on_snoc.
    pose proof (Htable _ _ _ Hq).
    rewrite decide_False by lia. rewrite app_nil_r. by apply Hfresh.
  - apply Htable.
  - apply Hworkers.
  - intros c. destruct (Hkey c) as (snap & to & HF & Hqc).
    exists snap, to. split; [| done].
    rewrite enqueued_on_snoc. apply Forall_app. split; [done |].
    case_decide; [| constructor]. subst c.
    apply Forall_singleton. by apply Hqc.
Qed.

Lemma Inv_new_queue (runTask : option error) (req : RaftMessageRequest)
    (w : World) :
  Inv w →
  queue_of w (isSnap req) (ToReplica req) = None →
  Inv (spawn_worker runTask (next_chan w) req
         (with_new_queue (isSnap req) (ToReplica req) w)).
Proof.
  intros [Hfifo Hfresh Htable Hworkers Hkey] Hq.
  set (w0 := with_new_queue (isSnap req) (ToReplica req) w).
  assert (Hinv0 : Inv w0).
  { split.
    - intros c. simpl. destruct (decide (next_chan w = c)) as [<- | Hne].
      + rewrite fn_lookup_insert, app_nil_r.
        pose proof (Hfifo (next_chan w)) as Hf.
        rewrite Hfresh in Hf by lia. rewrite Hfresh by lia.
        symmetry in Hf. by apply app_eq_nil in Hf as [-> _].
      + rewrite fn_lookup_insert_ne by done. apply Hfifo.
    - intros c Hc. simpl in *. apply Hfresh. lia.
    - intros snap to c. unfold w0. rewrite queue_of_with_new_queue.
      case_decide.
      + intros [= <-]. simpl. lia.
      + intros Hc. apply Htable in Hc. simpl. lia.
    - intros c wk Hwk. unfold w0. rewrite queue_of_with_new_queue.
      pose proof (Hworkers c wk Hwk) as Hc.
      rewrite decide_False; [done |].
      intros [Hs Ht]. rewrite Hs, Ht in Hc. congruence.
    - intros c. destruct (decide (c = next_chan w)) as [-> | Hne].
      + exists (isSnap req), (ToReplica req). split.
        * simpl. rewrite Hfresh by lia. constructor.
        * intros snap' to'. unfold w0. rewrite queue_of_with_new_queue.
          case_decide; [done |]. intros Hc. apply Htable in Hc. lia.
      + destruct (Hkey c) as (snap & to & HF & Hqc).
        exists snap, to. split; [done |].
        intros snap' to'. unfold w0. rewrite queue_of_with_new_queue.
        case_decide; [congruence | apply Hqc]. }
  destruct runTask as [err |]; simpl.
  - by apply Inv_emit_silent.
  - apply Inv_emit_silent; [done |].
    destruct Hinv0 as [Hfifo0 Hfresh0 Htable0 Hworkers0 Hkey0].
    split; try done.
    intros c wk. simpl.
    destruct (decide (c = next_chan w)) as [-> | Hne].
    + rewrite lookup_insert_eq. intros [= <-]. simpl.
      change (queue_of w0 (isSnap req) (ToReplica req) = Some (next_chan w)).
      unfold w0. rewrite queue_of_with_new_queue. by rewrite decide_True.
    + rewrite lookup_insert_ne by done. apply Hworkers0.
Qed.

Lemma Inv_SendAsync (runTask : option error) (req : RaftMessageRequest)
    (w : World) :
  Inv w → Inv (SendAsync runTask req w).1.
Proof.
  intros Hinv.
  destruct (queue_of w (isSnap req) (ToReplica req)) as [ch |] eqn:Hq.
  - rewrite (SendAsync_hit _ _ _ _ Hq). by apply Inv_try_send.
  - rewrite (SendAsync_miss _ _ _ Hq). apply Inv_try_send.
    + by apply Inv_new_queue.
    + rewrite queue_of_spawn_worker, queue_of_with_new_queue.
      by rewrite decide_True.
Qed.

Lemma Inv_dequeue (ch : chan) (req : RaftMessageRequest)
    (rest : list RaftMessageRequest) (sendErr : option error) (w : World) :
  chans w ch = req :: rest →
  Inv w →
  Inv (emit (EvStreamSend ch req sendErr) (set_chan ch rest w)).
Proof.
  intros Hbuf [Hfifo Hfresh Htable Hworkers Hkey]. split; simpl.
  - intros c. rewrite enqueued_on_snoc, written_on_snoc, app_nil_r.
    destruct (decide (ch = c)) as [<- | Hne].
    + by rewrite fn_lookup_insert, Hfifo, Hbuf, <- app_assoc.
    + by rewrite fn_lookup_insert_ne, app_nil_r.
  - intros c Hc. rewrite enqueued_on_snoc, app_nil_r. by apply Hfresh.
  - apply Htable.
  - apply Hworkers.
  - intros c. destruct (Hkey c) as (snap & to & HF & Hqc).
    exists snap, to. by rewrite enqueued_on_snoc, app_nil_r.
Qed.

(** An iteration of the loop only touches its own channel and the log. *)
Lemma processQueue_select_frame (ch : chan) (sel : LoopSelect)
    (w w1 : World) (flow : Flow) :
  processQueue_select ch sel w = Some (w1, flow) →
  queues w1 = queues w ∧ workers w1 = workers w
  ∧ next_chan w1 = next_chan w.
Proof.
  destruct sel as [| | err | sendErr pub]; simpl; try by intros [= <- _].
  destruct (chans w ch) as [| req rest]; [done |].
  destruct (isSnap req), pub; by intros [= <- _].
Qed.

Lemma Inv_processQueue_select (ch : chan) (sel : LoopSelect)
    (w w1 : World) (flow : Flow) :
  processQueue_select ch sel w = Some (w1, flow) → Inv w → Inv w1.
Proof.
  destruct sel as [| | err | sendErr pub]; simpl; try by intros [= <- _].
  destruct (chans w ch) as [| req rest] eqn:Hbuf; [done |].
  intros Hsel Hinv.
  pose proof (Inv_dequeue ch req rest sendErr w Hbuf Hinv) as Hinv1.
  destruct (isSnap req), pub; injection Hsel as <- _; try done.
  by apply Inv_emit_silent.
Qed.

Lemma Inv_worker_exit (ch : chan) (wk : Worker) (ret : option error)
    (w : World) :
  workers w !! ch = Some wk → Inv w → Inv (worker_exit ch wk ret w).
Proof.
  intros Hwk [Hfifo Hfresh Htable Hworkers Hkey]. split.
  - intros c. simpl. rewrite enqueued_on_silent, written_on_silent by done.
    apply Hfifo.
  - intros c Hc. simpl in *. rewrite enqueued_on_silent by done.
    by apply Hfresh.
  - intros snap to c. rewrite queue_of_worker_exit.
    case_decide; [done |]. apply Htable.
  - intros c wk2. simpl. intros Hc.
    apply lookup_delete_Some in Hc as [Hne Hc].
    change (queue_of (worker_exit ch wk ret w) (w_isSnap wk2) (w_toReplica wk2)
            = Some c).
    rewrite queue_of_worker_exit.
    pose proof (Hworkers _ _ Hc) as Hq2. pose proof (Hworkers _ _ Hwk) as Hq.
    rewrite decide_False; [done |].
    intros [Hs Ht]. rewrite Hs, Ht in Hq2. congruence.
  - intros c. destruct (Hkey c) as (snap & to & HF & Hqc).
    exists snap, to. split.
    + simpl. by rewrite enqueued_on_silent.
    + intros snap' to'. rewrite queue_of_worker_exit.
      case_decide; [done | apply Hqc].
Qed.

Lemma Inv_set_phase (ch : chan) (wk : Worker) (p : Phase) (w : World) :
  workers w !! ch = Some wk → Inv w → Inv (set_phase ch wk p w).
Proof.
  intros Hwk [Hfifo Hfresh Htable Hworkers Hkey]. split; try done.
  intros c wk2. simpl.
  destruct (decide (c = ch)) as [-> | Hne].
  - rewrite lookup_insert_eq. intros [= <-]. simpl. by apply Hworkers.
  - rewrite lookup_insert_ne by done. apply Hworkers.
Qed.

Lemma Inv_worker_step (ch : chan) (ev : WorkerEvent) (w w' : World) :
  worker_step ch ev w = Some w' → Inv w → Inv w'.
Proof.
  unfold worker_step. intros Hstep Hinv.
  destruct (workers w !! ch) as [wk |] eqn:Hwk; [| done].
  destruct (w_phase wk), ev as [d | sel]; try done.
  - destruct (processQueue_dial d); injection Hstep as <-.
    + by apply Inv_worker_exit.
    + by apply Inv_set_phase.
  - destruct (processQueue_select ch sel w) as [[w1 flow] |] eqn:Hsel;
      [| done].
    pose proof (Inv_processQueue_select _ _ _ _ _ Hsel Hinv) as Hinv1.
    destruct (processQueue_select_frame _ _ _ _ _ Hsel) as (_ & Hws & _).
    destruct flow; injection Hstep as <-; [done |].
    apply Inv_worker_exit; [by rewrite Hws | done].
Qed.

Lemma Inv_step (a : Action) (w w' : World) :
  step a w = Some w' → Inv w → Inv w'.
Proof.
  destruct a as [runTask req | ch ev]; simpl.
  - intros [= <-]. apply Inv_SendAsync.
  - apply Inv_worker_step.
Qed.

Lemma Inv_run (tr : list Action) (w w' : World) :
  run tr w = Some w' → Inv w → Inv w'.
Proof.
  revert w. induction tr as [| a tr IH]; intros w; simpl.
  - by intros [= <-].
  - destruct (step a w) as [w1 |] eqn:Hstep; [| done].
    intros Hrun Hinv. eapply IH; [done |]. by eapply Inv_step.
Qed.

Lemma Inv_reachable (tr : list Action) (w : World) :
  run tr NewRaftTransport = Some w → Inv w.
Proof. intros Hrun. eapply Inv_run; [done | apply Inv_init]. Qed.

End worker.

(** ** Ordering, termination and notifications *)

Section delivery.

Lemma overtaken_second_destination_first :
  ∃ w, run second_destination_first NewRaftTransport = Some w
       ∧ overtaken (heartbeat store2 1) (heartbeat store3 2) (log w).
Proof.
  eexists. split; [vm_compute; reflexivity |].
  exists 0%nat, 1%nat, 1%nat, 3%nat, 5%nat, 4%nat.
  repeat split; try reflexivity; lia.
Qed.

Lemma overtaken_heartbeat_before_snapshot :
  ∃ w, run heartbeat_before_snapshot NewRaftTransport = Some w
       ∧ overtaken (snapshot store2 1) (heartbeat store2 2) (log w).
Proof.
  eexists. split; [vm_compute; reflexivity |].
  exists 0%nat, 1%nat, 1%nat, 3%nat, 5%nat, 4%nat.
  repeat split; try reflexivity; lia.
Qed.

(** C3. In every world reached from a new transport and for every
    channel [ch] (one channel per worker): the messages accepted onto
    [ch] are exactly those its worker has written to the stream, in the
    same order, followed by those still waiting, so what is written is a
    prefix of what was enqueued; all of them are of one class and go to
    one destination, those of the worker draining [ch], if any. Across
    destinations and across classes there is no such order: in some
    interleaving a message enqueued later to another destination, or in
    the other class to the same destination, is written first. *)
Theorem per_queue_fifo (tr : list Action) (w : World) (ch : chan) :
  run tr NewRaftTransport = Some w →
  (enqueued_on ch (log w) = written_on ch (log w) ++ chans w ch
   ∧ written_on ch (log w) `prefix_of` enqueued_on ch (log w)
   ∧ ∃ snap to,
       Forall (fun r => isSnap r = snap ∧ ToReplica r = to)
              (enqueued_on ch (log w))
       ∧ ∀ wk, workers w !! ch = Some wk →
               w_isSnap wk = snap ∧ w_toReplica wk = to)
  ∧ (∃ tr' w' a b,
       run tr' NewRaftTransport = Some w'
       ∧ isSnap a = isSnap b ∧ ToReplica a ≠ ToReplica b
       ∧ overtaken a b (log w'))
  ∧ (∃ tr' w' a b,
       run tr' NewRaftTransport = Some w'
       ∧ ToReplica a = ToReplica b ∧ isSnap a ≠ isSnap b
       ∧ overtaken a b (log w')).
Proof.
  intros Hrun. apply Inv_reachable in Hrun as Hinv.
  destruct Hinv as [Hfifo Hfresh Htable Hworkers Hkey].
  split; [| split].
  - split; [apply Hfifo |]. split.
    + rewrite (Hfifo ch). by apply prefix_app_r.
    + destruct (Hkey ch) as (snap & to & HF & Hq).
      exists snap, to. split; [done |].
      intros wk Hwk. by apply Hq, Hworkers.
  - destruct overtaken_second_destination_first as (w' & Hw' & Hov).
    by exists second_destination_first, w', (heartbeat store2 1),
              (heartbeat store3 2).
  - destruct overtaken_heartbeat_before_snapshot as (w' & Hw' & Hov).
    by exists heartbeat_before_snapshot, w', (snapshot store2 1),
              (heartbeat store2 2).
Qed.

Lemma per_queue_fifo_witness :
  let w := after two_of_three in
  run two_of_three NewRaftTransport = Some w
  ∧ (enqueued_on 0%nat (log w) = written_on 0%nat (log w) ++ chans w 0%nat
     ∧ written_on 0%nat (log w) `prefix_of` enqueued_on 0%nat (log w)
     ∧ ∃ snap to,
         Forall (fun r => isSnap r = snap ∧ ToReplica r = to)
                (enqueued_on 0%nat (log w))
         ∧ ∀ wk, workers w !! 0%nat = Some wk →
                 w_isSnap wk = snap ∧ w_toReplica wk = to)
  ∧ (∃ tr' w' a b,
       run tr' NewRaftTransport = Some w'
       ∧ isSnap a = isSnap b ∧ ToReplica a ≠ ToReplica b
       ∧ overtaken a b (log w'))
  ∧ (∃ tr' w' a b,
       run tr' NewRaftTransport = Some w'
       ∧ ToReplica a = ToReplica b ∧ isSnap a ≠ isSnap b
       ∧ overtaken a b (log w')).
Proof.
  intros w.
  assert (Hrun : run two_of_three NewRaftTransport = Some w)
    by (vm_compute; reflexivity).
  split; [exact Hrun |].
  exact (per_queue_fifo two_of_three w 0%nat Hrun).
Defined.

(** A step of the worker draining [ch] either ends it, by the closure's
    exit code run on a world with the same table and channel counter, or
    leaves a worker of the same key on [ch]. *)
Lemma worker_step_outcome (ch : chan) (ev : WorkerEvent) (w w' : World)
    (wk : Worker) :
  workers w !! ch = Some wk →
  worker_step ch ev w = Some w' →
  (∃ w1 ret,
     w' = worker_exit ch wk ret w1
     ∧ queues w1 = queues w ∧ next_chan w1 = next_chan w)
  ∨ is_Some (workers w' !! ch).
Proof.
  unfold worker_step. intros Hwk Hstep. rewrite Hwk in Hstep.
  destruct (w_phase wk), ev as [d | sel]; try done.
  - destruct (processQueue_dial d) as [err |]; injection Hstep as <-.
    + left. by exists w, (Some err).
    + right. simpl. rewrite lookup_insert_eq. by eexists.
  - destruct (processQueue_select ch sel w) as [[w1 flow] |] eqn:Hsel;
      [| done].
    destruct (processQueue_select_frame _ _ _ _ _ Hsel) as (Hqs & Hws & Hn).
    destruct flow as [| ret]; injection Hstep as <-.
    + right. rewrite Hws, Hwk. by eexists.
    + left. by exists w1, ret.
Qed.




(** The closure calls [onError] once on its way out, with whatever
    [processQueue] returned, a nil error included. *)
Lemma worker_exit_calls_onError (ch : chan) (wk : Worker)
    (ret : option error) (w : World) :
  onError_calls (log (worker_exit ch wk ret w))
  = onError_calls (log w) ++ [(ret, w_toReplica wk)].
Proof. simpl. by rewrite onError_calls_snoc. Qed.

(** The three ways out of the loop that are not failures of a send. *)
Lemma worker_step_leaves_loop (ch : chan) (wk : Worker) (w : World) :
  workers w !! ch = Some wk →
  w_phase wk = Draining →
  worker_step ch (WSelect SelShouldStop) w = Some (worker_exit ch wk None w)
  ∧ worker_step ch (WSelect SelIdleTimer) w = Some (worker_exit ch wk None w)
  ∧ ∀ err, worker_step ch (WSelect (SelErrCh err)) w
           = Some (worker_exit ch wk err w).
Proof. intros Hwk Hp. unfold worker_step. by rewrite Hwk, Hp. Qed.

(** C1 (the code at the failing input). A heartbeat for store 2 is
    accepted, its worker dials, sends it and then idles out:
    [processQueue] returns nil and the closure still calls
    [onError(nil, toReplica)]. *)
Theorem idle_timeout_calls_onError :
  (w ← run idle_out NewRaftTransport;
   Some (written_on 0%nat (log w), onError_calls (log w)))
  = Some ([heartbeat store2 1], [(None, store2)]).
Proof. vm_compute. reflexivity. Qed.

(** C4 as stated fails: the snapshot is taken off the queue and written
    to the stream, the stopper fires while the worker waits to publish,
    and no status is ever published for it; the worker has ended. *)
Lemma snapshot_status_lost_on_shutdown :
  (w ← run stop_while_publishing NewRaftTransport;
   Some (written_on 0%nat (log w), snapshot_statuses (log w),
         workers w !! 0%nat))
  = Some ([snapshot store2 1], [], None).
Proof. vm_compute. reflexivity. Qed.

(** C4, amended. When the loop takes a snapshot [req] off its channel,
    it writes it to the stream and then publishes exactly one status
    [(req, sendErr)], be the send a success or a failure, unless the
    stopper wins the inner [select]: then it publishes none and
    [processQueue] returns nil. The status comes after the send in the
    log. *)
Theorem snapshot_status_unless_shutdown (ch : chan) (sendErr : option error)
    (pub : PublishSelect) (w : World) (req : RaftMessageRequest)
    (rest : list RaftMessageRequest) :
  chans w ch = req :: rest →
  isSnap req = true →
  ∃ w1 flow,
    processQueue_select ch (SelQueue sendErr pub) w = Some (w1, flow)
    ∧ chans w1 ch = rest
    ∧ log w1 = log w ++ EvStreamSend ch req sendErr
                 :: match pub with
                    | PubDelivered =>
                        [EvSnapshotStatus (mkSnapshotStatus req sendErr)]
                    | PubShouldStop => []
                    end
    ∧ snapshot_statuses (log w1)
      = snapshot_statuses (log w)
        ++ match pub with
           | PubDelivered => [mkSnapshotStatus req sendErr]
           | PubShouldStop => []
           end
    ∧ flow = match pub with
             | PubDelivered => after_send sendErr
             | PubShouldStop => Return None
             end.
Proof.
  intros Hbuf Hsnap. unfold processQueue_select. rewrite Hbuf, Hsnap.
  destruct pub; eexists _, _; (split; [reflexivity |]); simpl;
    rewrite ?fn_lookup_insert, ?snapshot_statuses_snoc; simpl;
    rewrite ?snapshot_statuses_snoc, <- ?app_assoc; simpl;
    by rewrite ?app_nil_r.
Qed.

Lemma snapshot_status_unless_shutdown_witness :
  let w := after (take 2 stop_while_publishing) in
  let req := snapshot store2 1 in
  chans w 0%nat = [req]
  ∧ isSnap req = true
  ∧ ∃ w1 flow,
      processQueue_select 0%nat (SelQueue (Some broken_pipe) PubDelivered) w
      = Some (w1, flow)
      ∧ chans w1 0%nat = []
      ∧ log w1 = log w ++ [EvStreamSend 0%nat req (Some broken_pipe);
                           EvSnapshotStatus
                             (mkSnapshotStatus req (Some broken_pipe))]
      ∧ snapshot_statuses (log w1)
        = snapshot_statuses (log w)
          ++ [mkSnapshotStatus req (Some broken_pipe)]
      ∧ flow = after_send (Some broken_pipe).
Proof.
  intros w req.
  split; [reflexivity |]. split; [reflexivity |].
  exact (snapshot_status_unless_shutdown 0%nat (Some broken_pipe) PubDelivered
           w req [] eq_refl eq_refl).
Defined.

End delivery.

(** ** A queue whose worker was refused *)

Section orphan.

Lemma processQueue_select_written (ch ch' : chan) (sel : LoopSelect)
    (w w1 : World) (flow : Flow) :
  ch ≠ ch' →
  processQueue_select ch' sel w = Some (w1, flow) →
  written_on ch (log w1) = written_on ch (log w).
Proof.
  intros Hne.
  destruct sel as [| | err | sendErr pub]; simpl; try by intros [= <- _].
  destruct (chans w ch') as [| req rest]; [done |].
  destruct (isSnap req), pub; intros [= <- _]; simpl;
    rewrite ?written_on_snoc; simpl;
    rewrite ?written_on_snoc; simpl;
    rewrite decide_False by done; by rewrite ?app_nil_r.
Qed.

Lemma orphaned_SendAsync (snap : bool) (to : ReplicaDescriptor) (ch : chan)
    (runTask : option error) (req : RaftMessageRequest) (w : World) :
  Inv w → orphaned snap to ch w →
  orphaned snap to ch (SendAsync runTask req w).1.
Proof.
  intros [_ _ Htable _ _] (Hq & Hws & Hwr).
  assert (Htry : ∀ c w0, orphaned snap to ch w0 →
                         orphaned snap to ch (try_send c req w0).1).
  { intros c w0 (Hq0 & Hws0 & Hwr0). unfold try_send.
    case_decide; [| done]. split; [done |]. split; [done |]. simpl.
    by rewrite written_on_snoc, app_nil_r. }
  destruct (queue_of w (isSnap req) (ToReplica req)) as [c |] eqn:Hqr.
  - rewrite (SendAsync_hit _ _ _ _ Hqr). by apply Htry.
  - rewrite (SendAsync_miss _ _ _ Hqr). apply Htry.
    pose proof (Htable _ _ _ Hq) as Hlt.
    split; [| split].
    + rewrite queue_of_spawn_worker, queue_of_with_new_queue.
      rewrite decide_False; [done |]. intros [-> ->]. congruence.
    + destruct runTask; simpl; [done |].
      rewrite lookup_insert_ne by lia. done.
    + destruct runTask; simpl; by rewrite written_on_silent.
Qed.

Lemma orphaned_worker_step (snap : bool) (to : ReplicaDescriptor) (ch : chan)
    (c : chan) (ev : WorkerEvent) (w w' : World) :
  Inv w → orphaned snap to ch w →
  worker_step c ev w = Some w' →
  orphaned snap to ch w'.
Proof.
  intros [_ _ _ Hworkers _] (Hq & Hws & Hwr). unfold worker_step.
  destruct (workers w !! c) as [wk |] eqn:Hwk; [| done].
  assert (Hne : ch ≠ c) by congruence.
  assert (Hexit : ∀ ret w1,
            queues w1 = queues w → workers w1 = workers w →
            written_on ch (log w1) = written_on ch (log w) →
            orphaned snap to ch (worker_exit c wk ret w1)).
  { intros ret w1 Hqs Hws1 Hwr1. split; [| split].
    - rewrite queue_of_worker_exit.
      pose proof (Hworkers _ _ Hwk) as Hqc.
      rewrite decide_False.
      + unfold queue_of in *. by rewrite Hqs.
      + intros [-> ->]. congruence.
    - simpl. rewrite lookup_delete_ne by done. by rewrite Hws1.
    - simpl. rewrite written_on_silent by done. by rewrite Hwr1. }
  destruct (w_phase wk), ev as [d | sel]; try done.
  - destruct (processQueue_dial d); intros [= <-].
    + by apply Hexit.
    + split; [done |]. split; [| done]. simpl.
      by rewrite lookup_insert_ne.
  - destruct (processQueue_select c sel w) as [[w1 flow] |] eqn:Hsel;
      [| done].
    destruct (processQueue_select_frame _ _ _ _ _ Hsel) as (Hqs & Hws1 & _).
    pose proof (processQueue_select_written _ _ _ _ _ _ Hne Hsel) as Hwr1.
    destruct flow; intros [= <-].
    + split; [| split].
      * unfold queue_of in *. by rewrite Hqs.
      * by rewrite Hws1.
      * by rewrite Hwr1.
    + by apply Hexit.
Qed.

Lemma orphaned_run (snap : bool) (to : ReplicaDescriptor) (ch : chan)
    (tr : list Action) (w w' : World) :
  Inv w → orphaned snap to ch w →
  run tr w = Some w' →
  orphaned snap to ch w'.
Proof.
  revert w. induction tr as [| a tr IH]; intros w Hinv Ho; simpl.
  - by intros [= <-].
  - destruct (step a w) as [w1 |] eqn:Hstep; [| done].
    apply IH; [by eapply Inv_step |].
    destruct a as [runTask req | c ev]; simpl in Hstep.
    + injection Hstep as <-. by apply orphaned_SendAsync.
    + by eapply orphaned_worker_step.
Qed.

(** C10. [RunTask] refuses the worker of a newly made entry with [err].
    (1) That call of [SendAsync] hands [err] to [onError] before it
    enqueues, starts no worker, leaves the entry in the table and
    returns true. (2) Calls for the same key right after it find the
    entry, start no worker and call [onError] no more (the log only
    grows by their enqueues); the first 99 return true, the buffer then
    holds 100 messages and every later call returns false. (3) After any
    interleaving [tr] of calls and worker steps the entry is still
    there with no worker on its channel and nothing taken off it, and a
    call for the key, whatever [RunTask] would answer, starts no worker,
    calls [onError] no more, and returns true exactly when the buffer
    holds fewer than 100 messages. *)
Theorem failed_spawn_keeps_queue (tr0 tr : list Action) (w w3 : World)
    (err : error) (req req' : RaftMessageRequest)
    (reqs : list (option error * RaftMessageRequest))
    (runTask : option error) :
  run tr0 NewRaftTransport = Some w →
  queue_of w (isSnap req) (ToReplica req) = None →
  same_key (isSnap req) (ToReplica req) reqs →
  run tr (SendAsync (Some err) req w).1 = Some w3 →
  isSnap req' = isSnap req →
  ToReplica req' = ToReplica req →
  let ch := next_chan w in
  let '(w1, ok) := SendAsync (Some err) req w in
  let '(w2, oks) := SendAsync_all reqs w1 in
  let '(w4, ok') := SendAsync runTask req' w3 in
  (ok = true
   ∧ log w1 = log w ++ [EvOnError (Some err) (ToReplica req); EvEnqueue ch req]
   ∧ workers w1 = workers w
   ∧ queue_of w1 (isSnap req) (ToReplica req) = Some ch)
  ∧ (oks = replicate (length reqs `min` 99) true
           ++ replicate (length reqs - 99) false
     ∧ log w2 = log w1 ++ (EvEnqueue ch <$> take 99 reqs.*2)
     ∧ workers w2 = workers w
     ∧ queue_of w2 (isSnap req) (ToReplica req) = Some ch
     ∧ chans w2 ch = req :: take 99 reqs.*2)
  ∧ (queue_of w3 (isSnap req) (ToReplica req) = Some ch
     ∧ workers w3 !! ch = None
     ∧ chans w3 ch = enqueued_on ch (log w3)
     ∧ workers w4 = workers w3
     ∧ queue_of w4 (isSnap req) (ToReplica req) = Some ch
     ∧ onError_calls (log w4) = onError_calls (log w3)
     ∧ (ok' = true ↔ (length (chans w3 ch) < 100)%nat)).
Proof.
  intros Hrun0 Hq Hk Hrun Hs' Ht'. cbv zeta.
  apply Inv_reachable in Hrun0 as Hinv.
  pose proof (Inv_SendAsync (Some err) req w Hinv) as Hinv1.
  revert Hrun Hinv1. rewrite (SendAsync_miss _ _ _ Hq).
  set (w0 := spawn_worker _ _ _ _).
  assert (Hc0 : chans w0 (next_chan w) = []) by apply fn_lookup_insert.
  rewrite try_send_room by (rewrite Hc0; unfold raftSendBufferSize; simpl; lia).
  set (w1 := emit _ _). cbn [fst]. intros Hrun Hinv1.
  assert (Hq1 : queue_of w1 (isSnap req) (ToReplica req) = Some (next_chan w)).
  { change (queue_of w0 (isSnap req) (ToReplica req) = Some (next_chan w)).
    unfold w0. rewrite queue_of_spawn_worker, queue_of_with_new_queue.
    by rewrite decide_True. }
  assert (Hc1 : chans w1 (next_chan w) = [req]).
  { unfold w1; cbn [chans emit set_chan]. by rewrite fn_lookup_insert, Hc0. }
  assert (Hw1 : workers w1 = workers w) by done.
  assert (Hl1 : log w1 = log w ++ [EvOnError (Some err) (ToReplica req);
                                    EvEnqueue (next_chan w) req]).
  { unfold w1, w0. cbn [log emit set_chan spawn_worker with_new_queue].
    by rewrite <- app_assoc. }
  (* calls right after *)
  pose proof (SendAsync_all_hit reqs w1 _ _ _ Hq1 Hk) as Hall.
  cbv zeta in Hall. rewrite Hc1 in Hall.
  change (raftSendBufferSize - length [req])%nat with 99%nat in Hall.
  destruct (SendAsync_all reqs w1) as [w2 oks].
  destruct Hall as (-> & Hqs & Hws & _ & Hch & Hlog).
  assert (Hq2 : queue_of w2 (isSnap req) (ToReplica req) = Some (next_chan w)).
  { unfold queue_of in *. by rewrite Hqs. }
  (* after an interleaving *)
  assert (Ho1 : orphaned (isSnap req) (ToReplica req) (next_chan w) w1).
  { destruct Hinv as [Hfifo Hfresh Htable Hworkers _].
    split; [done |]. split.
    - rewrite Hw1. destruct (workers w !! next_chan w) as [wk |] eqn:Hwk;
        [| done].
      pose proof (Htable _ _ _ (Hworkers _ _ Hwk)). lia.
    - rewrite Hl1. change [?a; ?b] with ([a] ++ [b]).
      rewrite app_assoc, !written_on_snoc, !app_nil_r.
      pose proof (Hfifo (next_chan w)) as Hf.
      rewrite Hfresh in Hf by lia.
      symmetry in Hf. by apply app_eq_nil in Hf as [-> _]. }
  pose proof (orphaned_run _ _ _ _ _ _ Hinv1 Ho1 Hrun) as (Hq3 & Hws3 & Hwr3).
  pose proof (Inv_run _ _ _ Hrun Hinv1) as [Hfifo3 _ _ _ _].
  assert (Hq3' : queue_of w3 (isSnap req') (ToReplica req')
                 = Some (next_chan w)) by (by rewrite Hs', Ht').
  assert (Hbuf3 : chans w3 (next_chan w) = enqueued_on (next_chan w) (log w3))
    by (by rewrite Hfifo3, Hwr3).
  rewrite (SendAsync_hit _ _ _ _ Hq3'). unfold try_send.
  rewrite Hws, Hw1.
  case_decide as Hroom; unfold raftSendBufferSize in Hroom;
    (split; [done |]); (split; [done |]);
    cbn [workers log emit set_chan];
    rewrite ?onError_calls_snoc, ?app_nil_r; repeat split; try done.
Qed.

Lemma failed_spawn_keeps_queue_witness :
  let req := heartbeat store2 0 in
  let req' := heartbeat store2 3 in
  let reqs :=
    (fun i => (@None error, heartbeat store2 (Z.of_nat i))) <$> seq 1 100 in
  let w := NewRaftTransport in
  let w3 := default w (run refused_then_others (SendAsync (Some stopping) req w).1) in
  run [] NewRaftTransport = Some w
  ∧ queue_of w (isSnap req) (ToReplica req) = None
  ∧ same_key (isSnap req) (ToReplica req) reqs
  ∧ run refused_then_others (SendAsync (Some stopping) req w).1 = Some w3
  ∧ isSnap req' = isSnap req
  ∧ ToReplica req' = ToReplica req
  ∧ let '(w1, ok) := SendAsync (Some stopping) req w in
    let '(w2, oks) := SendAsync_all reqs w1 in
    let '(w4, ok') := SendAsync (Some stopping) req' w3 in
    (ok = true
     ∧ log w1 = [EvOnError (Some stopping) store2; EvEnqueue 0%nat req]
     ∧ workers w1 = ∅
     ∧ queue_of w1 false store2 = Some 0%nat)
    ∧ (oks = replicate 99 true ++ [false]
       ∧ log w2 = log w1 ++ (EvEnqueue 0%nat <$> take 99 reqs.*2)
       ∧ workers w2 = ∅
       ∧ queue_of w2 false store2 = Some 0%nat
       ∧ chans w2 0%nat = req :: take 99 reqs.*2)
    ∧ (queue_of w3 false store2 = Some 0%nat
       ∧ workers w3 !! 0%nat = None
       ∧ chans w3 0%nat = enqueued_on 0%nat (log w3)
       ∧ workers w4 = workers w3
       ∧ queue_of w4 false store2 = Some 0%nat
       ∧ onError_calls (log w4) = onError_calls (log w3)
       ∧ (ok' = true ↔ (length (chans w3 0%nat) < 100)%nat)).
Proof.
  intros req req' reqs w w3.
  assert (Hk : same_key (isSnap req) (ToReplica req) reqs).
  { apply Forall_forall. intros [rt r] Hin.
    apply list_elem_of_fmap in Hin as (i & [= -> ->] & _). by split. }
  assert (Hrun : run refused_then_others (SendAsync (Some stopping) req w).1
                 = Some w3) by (vm_compute; reflexivity).
  split; [reflexivity |]. split; [reflexivity |]. split; [exact Hk |].
  split; [exact Hrun |]. split; [reflexivity |]. split; [reflexivity |].
  exact (failed_spawn_keeps_queue [] refused_then_others w w3 stopping req req'
           reqs (Some stopping) eq_refl eq_refl Hk Hrun eq_refl eq_refl).
Defined.

End orphan.

(** ** More invariants of the reachable worlds *)

Section more_invariants.

Lemma snapshot_writes_snoc (l : list Event) (e : Event) :
  snapshot_writes (l ++ [e])
  = snapshot_writes l
    ++ match e with
       | EvStreamSend _ req err =>
           if isSnap req then [mkSnapshotStatus req err] else []
       | _ => []
       end.
Proof.
  unfold snapshot_writes. rewrite omap_app. f_equal.
  destruct e; simpl; try done. by destruct (isSnap req).
Qed.

Lemma status_backed_snoc (l : list Event) (e : Event) :
  (∀ st, e ≠ EvSnapshotStatus st) →
  status_backed l → status_backed (l ++ [e]).
Proof.
  intros He Hl i st Hi.
  apply lookup_snoc_Some in Hi as [[Hlt Hi] | [_ ->]]; [| by destruct (He st)].
  destruct (Hl i st Hi) as (Hsnap & j & ch & Hj & Hjl).
  split; [done |]. exists j, ch. split; [done |].
  by apply lookup_app_l_Some.
Qed.

Lemma status_backed_publish (l : list Event) (ch : chan)
    (req : RaftMessageRequest) (err : option error) :
  isSnap req = true →
  status_backed l →
  status_backed ((l ++ [EvStreamSend ch req err])
                 ++ [EvSnapshotStatus (mkSnapshotStatus req err)]).
Proof.
  intros Hsnap Hl i st Hi.
  apply lookup_snoc_Some in Hi as [[Hlt Hi] | [-> [= <-]]].
  - assert (Hl1 : status_backed (l ++ [EvStreamSend ch req err]))
      by (by apply status_backed_snoc).
    destruct (Hl1 i st Hi) as (Hs & j & c & Hj & Hjl).
    split; [done |]. exists j, c. split; [done |].
    by apply lookup_app_l_Some.
  - split; [done |]. exists (length l), ch. split.
    + rewrite length_app. simpl. lia.
    + simpl. apply lookup_app_l_Some. by apply list_lookup_middle.
Qed.

Lemma Inv2_init : Inv2 NewRaftTransport.
Proof.
  split; try done. intros ch. simpl. unfold raftSendBufferSize. lia.
Qed.

Lemma Inv2_try_send (ch : chan) (req : RaftMessageRequest) (w : World) :
  Inv2 w → Inv2 (try_send ch req w).1.
Proof.
  intros Hinv. unfold try_send. case_decide as Hroom; [| done].
  destruct Hinv as [Hbound Hacc Hdial Hstat Hcount]. split; simpl.
  - intros c. destruct (decide (ch = c)) as [<- | Hne].
    + rewrite fn_lookup_insert, length_app. simpl. lia.
    + rewrite fn_lookup_insert_ne by done. apply Hbound.
  - by rewrite onError_calls_snoc, app_nil_r.
  - intros c wk Hwk Hp. rewrite written_on_snoc, app_nil_r. by eapply Hdial.
  - by apply status_backed_snoc.
  - by rewrite snapshot_statuses_snoc, snapshot_writes_snoc, !app_nil_r.
Qed.

Lemma Inv2_new_queue (runTask : option error) (req : RaftMessageRequest)
    (w : World) :
  Inv w → Inv2 w →
  Inv2 (spawn_worker runTask (next_chan w) req
          (with_new_queue (isSnap req) (ToReplica req) w)).
Proof.
  intros [Hfifo Hfresh Htable Hworkers _] [Hbound Hacc Hdial Hstat Hcount].
  assert (Hnone : workers w !! next_chan w = None).
  { destruct (workers w !! next_chan w) as [wk |] eqn:Hwk; [| done].
    pose proof (Htable _ _ _ (Hworkers _ _ Hwk)). lia. }
  assert (Hwr : written_on (next_chan w) (log w) = []).
  { pose proof (Hfifo (next_chan w)) as Hf. rewrite Hfresh in Hf by lia.
    symmetry in Hf. by apply app_eq_nil in Hf as [-> _]. }
  assert (Hb : ∀ c, (length ((<[next_chan w := []]> (chans w)) c)
                     ≤ raftSendBufferSize)%nat).
  { intros c. destruct (decide (next_chan w = c)) as [<- | Hne].
    - rewrite fn_lookup_insert. simpl. lia.
    - rewrite fn_lookup_insert_ne by done. apply Hbound. }
  destruct runTask as [err |]; split; simpl; try done.
  - rewrite onError_calls_snoc, length_app. simpl. lia.
  - intros c wk Hwk Hp. rewrite written_on_snoc, app_nil_r. by eapply Hdial.
  - by apply status_backed_snoc.
  - by rewrite snapshot_statuses_snoc, snapshot_writes_snoc, !app_nil_r.
  - rewrite onError_calls_snoc, app_nil_r.
    rewrite map_size_insert_None by done. lia.
  - intros c wk. rewrite written_on_snoc, app_nil_r.
    destruct (decide (c = next_chan w)) as [-> | Hne]; [done |].
    rewrite lookup_insert_ne by done. apply Hdial.
  - by apply status_backed_snoc.
  - by rewrite snapshot_statuses_snoc, snapshot_writes_snoc, !app_nil_r.
Qed.

Lemma Inv2_SendAsync (runTask : option error) (req : RaftMessageRequest)
    (w : World) :
  Inv w → Inv2 w → Inv2 (SendAsync runTask req w).1.
Proof.
  intros Hinv Hinv2.
  destruct (queue_of w (isSnap req) (ToReplica req)) as [ch |] eqn:Hq.
  - rewrite (SendAsync_hit _ _ _ _ Hq). by apply Inv2_try_send.
  - rewrite (SendAsync_miss _ _ _ Hq). apply Inv2_try_send.
    by apply Inv2_new_queue.
Qed.

Lemma Inv2_processQueue_select (ch : chan) (wk : Worker) (sel : LoopSelect)
    (w w1 : World) (flow : Flow) :
  workers w !! ch = Some wk → w_phase wk = Draining →
  processQueue_select ch sel w = Some (w1, flow) →
  Inv2 w → Inv2 w1.
Proof.
  intros Hwk Hp.
  destruct sel as [| | err | sendErr pub]; simpl; try by intros [= <- _].
  destruct (chans w ch) as [| req rest] eqn:Hbuf; [done |].
  intros Hsel [Hbound Hacc Hdial Hstat Hcount].
  assert (Hb : ∀ c, (length ((<[ch := rest]> (chans w)) c)
                     ≤ raftSendBufferSize)%nat).
  { intros c. destruct (decide (ch = c)) as [<- | Hne].
    - rewrite fn_lookup_insert. pose proof (Hbound ch) as Hl.
      rewrite Hbuf in Hl. simpl in Hl. lia.
    - rewrite fn_lookup_insert_ne by done. apply Hbound. }
  assert (Hd : ∀ c wk', workers w !! c = Some wk' → w_phase wk' = Dialing →
                written_on c (log w ++ [EvStreamSend ch req sendErr]) = []).
  { intros c wk' Hwk' Hp'. rewrite written_on_snoc.
    rewrite decide_False by congruence. rewrite app_nil_r. by eapply Hdial. }
  destruct (isSnap req) eqn:Hsnap, pub; injection Hsel as <- _;
    split; simpl; try done.
  - by rewrite onError_calls_snoc, app_nil_r.
  - by apply status_backed_snoc.
  - rewrite snapshot_statuses_snoc, snapshot_writes_snoc, Hsnap, app_nil_r.
    rewrite length_app. lia.
  - by rewrite !onError_calls_snoc, !app_nil_r.
  - intros c wk' Hwk' Hp'. rewrite written_on_snoc, app_nil_r. by eapply Hd.
  - by apply status_backed_publish.
  - rewrite !snapshot_statuses_snoc, !snapshot_writes_snoc, Hsnap, !app_nil_r.
    rewrite !length_app. simpl. lia.
  - by rewrite onError_calls_snoc, app_nil_r.
  - by apply status_backed_snoc.
  - by rewrite snapshot_statuses_snoc, snapshot_writes_snoc, Hsnap, !app_nil_r.
  - by rewrite onError_calls_snoc, app_nil_r.
  - by apply status_backed_snoc.
  - by rewrite snapshot_statuses_snoc, snapshot_writes_snoc, Hsnap, !app_nil_r.
Qed.

Lemma Inv2_worker_exit (ch : chan) (wk : Worker) (ret : option error)
    (w : World) :
  workers w !! ch = Some wk → Inv2 w → Inv2 (worker_exit ch wk ret w).
Proof.
  intros Hwk [Hbound Hacc Hdial Hstat Hcount]. split; simpl.
  - done.
  - rewrite onError_calls_snoc, length_app. simpl.
    assert (size (workers w) = S (size (delete ch (workers w)))) as Hsz.
    { rewrite <- (insert_delete_id (workers w) ch wk) at 1 by done.
      apply map_size_insert_None, lookup_delete_eq. }
    lia.
  - intros c wk' Hc Hp. apply lookup_delete_Some in Hc as [_ Hc].
    rewrite written_on_snoc, app_nil_r. by eapply Hdial.
  - by apply status_backed_snoc.
  - by rewrite snapshot_statuses_snoc, snapshot_writes_snoc, !app_nil_r.
Qed.

Lemma Inv2_set_phase (ch : chan) (wk : Worker) (w : World) :
  workers w !! ch = Some wk → Inv2 w → Inv2 (set_phase ch wk Draining w).
Proof.
  intros Hwk [Hbound Hacc Hdial Hstat Hcount]. split; simpl; try done.
  - rewrite map_size_insert_Some by (by eexists). done.
  - intros c wk'. destruct (decide (c = ch)) as [-> | Hne].
    + rewrite lookup_insert_eq. by intros [= <-].
    + rewrite lookup_insert_ne by done. apply Hdial.
Qed.

Lemma Inv2_worker_step (ch : chan) (ev : WorkerEvent) (w w' : World) :
  worker_step ch ev w = Some w' → Inv2 w → Inv2 w'.
Proof.
  unfold worker_step. intros Hstep Hinv.
  destruct (workers w !! ch) as [wk |] eqn:Hwk; [| done].
  destruct (w_phase wk) eqn:Hp, ev as [d | sel]; try done.
  - destruct (processQueue_dial d); injection Hstep as <-.
    + by apply Inv2_worker_exit.
    + by apply Inv2_set_phase.
  - destruct (processQueue_select ch sel w) as [[w1 flow] |] eqn:Hsel;
      [| done].
    pose proof (Inv2_processQueue_select _ _ _ _ _ _ Hwk Hp Hsel Hinv)
      as Hinv1.
    destruct (processQueue_select_frame _ _ _ _ _ Hsel) as (_ & Hws & _).
    destruct flow; injection Hstep as <-; [done |].
    apply Inv2_worker_exit; [by rewrite Hws | done].
Qed.

Lemma Inv2_run (tr : list Action) (w w' : World) :
  run tr w = Some w' → Inv w → Inv2 w → Inv2 w'.
Proof.
  revert w. induction tr as [| a tr IH]; intros w; simpl.
  - by intros [= <-].
  - destruct (step a w) as [w1 |] eqn:Hstep; [| done].
    intros Hrun Hinv Hinv2. eapply IH; [done | by eapply Inv_step |].
    destruct a as [runTask req | ch ev]; simpl in Hstep.
    + injection Hstep as <-. by apply Inv2_SendAsync.
    + by eapply Inv2_worker_step.
Qed.

Lemma Inv2_reachable (tr : list Action) (w : World) :
  run tr NewRaftTransport = Some w → Inv2 w.
Proof.
  intros Hrun. eapply Inv2_run; [done | apply Inv_init | apply Inv2_init].
Qed.

End more_invariants.

(** ** The queue a worker leaves behind *)

Section dead_queue.

Lemma untouched_refl (ch : chan) (w : World) : untouched ch w w.
Proof. by split. Qed.

Lemma untouched_trans (ch : chan) (w1 w2 w3 : World) :
  untouched ch w1 w2 → untouched ch w2 w3 → untouched ch w1 w3.
Proof. intros (? & ? & ?) (? & ? & ?). split; [| split]; congruence. Qed.

Lemma untouched_try_send (ch c : chan) (req : RaftMessageRequest) (w : World) :
  ch ≠ c → untouched ch w (try_send c req w).1.
Proof.
  intros Hne. unfold try_send. case_decide; [| apply untouched_refl].
  split; [| split]; simpl.
  - by rewrite fn_lookup_insert_ne.
  - rewrite enqueued_on_snoc, decide_False by done. apply app_nil_r.
  - by rewrite written_on_snoc, app_nil_r.
Qed.

Lemma untouched_processQueue_select (ch c : chan) (sel : LoopSelect)
    (w w1 : World) (flow : Flow) :
  ch ≠ c →
  processQueue_select c sel w = Some (w1, flow) →
  untouched ch w w1.
Proof.
  intros Hne.
  destruct sel as [| | err | sendErr pub]; simpl;
    try (intros [= <- _]; apply untouched_refl).
  destruct (chans w c) as [| req rest]; [done |].
  destruct (isSnap req), pub; intros [= <- _]; (split; [| split]); simpl;
    rewrite ?fn_lookup_insert_ne by done;
    rewrite ?enqueued_on_snoc, ?written_on_snoc; simpl;
    rewrite ?enqueued_on_snoc, ?written_on_snoc; simpl;
    rewrite ?decide_False by done; by rewrite ?app_nil_r.
Qed.

Lemma dead_SendAsync (ch : chan) (runTask : option error)
    (req : RaftMessageRequest) (w : World) :
  Inv w → dead_chan ch w →
  dead_chan ch (SendAsync runTask req w).1
  ∧ untouched ch w (SendAsync runTask req w).1.
Proof.
  intros Hinv (Hlt & Hws & Hq).
  destruct (queue_of w (isSnap req) (ToReplica req)) as [c |] eqn:Hqr.
  - rewrite (SendAsync_hit _ _ _ _ Hqr).
    assert (Hne : ch ≠ c) by (intros ->; by eapply Hq).
    split; [| by apply untouched_try_send].
    unfold try_send. case_decide; done.
  - rewrite (SendAsync_miss _ _ _ Hqr).
    set (w0 := spawn_worker _ _ _ _).
    assert (Hne : ch ≠ next_chan w) by lia.
    assert (Hd0 : dead_chan ch w0).
    { split; [| split].
      - unfold w0. destruct runTask; simpl; lia.
      - unfold w0. destruct runTask; simpl; [done |].
        by rewrite lookup_insert_ne.
      - intros snap to. unfold w0.
        rewrite queue_of_spawn_worker, queue_of_with_new_queue.
        case_decide; [congruence | apply Hq]. }
    assert (Hu0 : untouched ch w w0).
    { unfold w0. destruct runTask; (split; [| split]); simpl;
        rewrite ?fn_lookup_insert_ne by done;
        rewrite ?enqueued_on_snoc, ?written_on_snoc; by rewrite ?app_nil_r. }
    split.
    + unfold try_send. case_decide; done.
    + eapply untouched_trans; [done |]. by apply untouched_try_send.
Qed.

Lemma dead_worker_step (ch c : chan) (ev : WorkerEvent) (w w' : World) :
  dead_chan ch w →
  worker_step c ev w = Some w' →
  dead_chan ch w' ∧ untouched ch w w'.
Proof.
  intros (Hlt & Hws & Hq). unfold worker_step.
  destruct (workers w !! c) as [wk |] eqn:Hwk; [| done].
  assert (Hne : ch ≠ c) by congruence.
  assert (Hexit : ∀ ret w1,
            queues w1 = queues w → workers w1 = workers w →
            next_chan w1 = next_chan w → untouched ch w w1 →
            dead_chan ch (worker_exit c wk ret w1)
            ∧ untouched ch w (worker_exit c wk ret w1)).
  { intros ret w1 Hqs Hws1 Hn (Hu1 & Hu2 & Hu3). split.
    - split; [| split].
      + simpl. lia.
      + simpl. rewrite lookup_delete_ne by done. by rewrite Hws1.
      + intros snap to. rewrite queue_of_worker_exit.
        case_decide; [done |]. unfold queue_of. rewrite Hqs. apply Hq.
    - split; [| split]; simpl;
        rewrite ?enqueued_on_snoc, ?written_on_snoc, ?app_nil_r; done. }
  destruct (w_phase wk), ev as [d | sel]; try done.
  - destruct (processQueue_dial d); intros [= <-].
    + by apply Hexit.
    + split; [| by repeat split].
      split; [done |]. split; [| done]. simpl. by rewrite lookup_insert_ne.
  - destruct (processQueue_select c sel w) as [[w1 flow] |] eqn:Hsel;
      [| done].
    destruct (processQueue_select_frame _ _ _ _ _ Hsel) as (Hqs & Hws1 & Hn).
    pose proof (untouched_processQueue_select _ _ _ _ _ _ Hne Hsel) as Hu.
    destruct flow; intros [= <-].
    + split; [| done]. split; [lia |]. split; [by rewrite Hws1 |].
      intros snap to. unfold queue_of. rewrite Hqs. apply Hq.
    + by apply Hexit.
Qed.

Lemma dead_run (ch : chan) (tr : list Action) (w w' : World) :
  Inv w → dead_chan ch w →
  run tr w = Some w' →
  dead_chan ch w' ∧ untouched ch w w'.
Proof.
  revert w. induction tr as [| a tr IH]; intros w Hinv Hd; simpl.
  - intros [= <-]. split; [done | apply untouched_refl].
  - destruct (step a w) as [w1 |] eqn:Hstep; [| done].
    intros Hrun.
    assert (Hd1 : dead_chan ch w1 ∧ untouched ch w w1).
    { destruct a as [runTask req | c ev]; simpl in Hstep.
      - injection Hstep as <-. by apply dead_SendAsync.
      - by eapply dead_worker_step. }
    destruct Hd1 as [Hd1 Hu1].
    destruct (IH w1 (Inv_step _ _ _ Hstep Hinv) Hd1 Hrun) as [Hd' Hu'].
    split; [done |]. by eapply untouched_trans.
Qed.

(** The channel of a worker that has just ended is dead. *)
Lemma ended_worker_dead (ch : chan) (ev : WorkerEvent) (w w1 : World)
    (wk : Worker) :
  Inv w →
  workers w !! ch = Some wk →
  worker_step ch ev w = Some w1 →
  workers w1 !! ch = None →
  dead_chan ch w1.
Proof.
  intros [_ _ Htable Hworkers Hkey] Hwk Hstep Hgone.
  pose proof (Hworkers _ _ Hwk) as Hqk.
  destruct (worker_step_outcome _ _ _ _ _ Hwk Hstep)
    as [(w0 & ret & -> & Hqs & Hn) | [wk' Hwk']]; [| congruence].
  split; [| split]; [| done |].
  - simpl. rewrite Hn. by eapply Htable.
  - intros snap to. rewrite queue_of_worker_exit.
    case_decide as Hk; [done |]. unfold queue_of. rewrite Hqs.
    intros Hq. apply Hk.
    destruct (Hkey ch) as (s0 & t0 & _ & Huniq).
    destruct (Huniq _ _ Hq) as [-> ->].
    destruct (Huniq _ _ Hqk) as [-> ->]. done.
Qed.

End dead_queue.

(** ** Further properties of the queue table and of [SendAsync] *)

Section table.

(** X1. In every world reached from a new transport no channel buffer
    holds more than [raftSendBufferSize] messages. *)
Theorem buffers_within_capacity (tr : list Action) (w : World) (ch : chan) :
  run tr NewRaftTransport = Some w →
  (length (chans w ch) ≤ raftSendBufferSize)%nat.
Proof. intros Hrun. by apply Inv2_reachable in Hrun as [Hbound _ _ _ _]. Qed.

Lemma buffers_within_capacity_witness :
  run two_of_three NewRaftTransport = Some (after two_of_three)
  ∧ (length (chans (after two_of_three) 0%nat) ≤ raftSendBufferSize)%nat.
Proof.
  assert (Hrun : run two_of_three NewRaftTransport
                 = Some (after two_of_three)) by (vm_compute; reflexivity).
  split; [exact Hrun |].
  exact (buffers_within_capacity two_of_three (after two_of_three) 0%nat Hrun).
Defined.

(** X2. In every reachable world two running workers of the same class
    and destination are one and the same worker, and the channel it
    drains is the one the queue table holds for that key. *)
Theorem one_worker_per_key (tr : list Action) (w : World) (c1 c2 : chan)
    (wk1 wk2 : Worker) :
  run tr NewRaftTransport = Some w →
  workers w !! c1 = Some wk1 →
  workers w !! c2 = Some wk2 →
  w_isSnap wk1 = w_isSnap wk2 →
  w_toReplica wk1 = w_toReplica wk2 →
  c1 = c2 ∧ wk1 = wk2
  ∧ queue_of w (w_isSnap wk1) (w_toReplica wk1) = Some c1.
Proof.
  intros Hrun H1 H2 Hs Ht.
  apply Inv_reachable in Hrun as [_ _ _ Hworkers _].
  pose proof (Hworkers _ _ H1) as Hq1. pose proof (Hworkers _ _ H2) as Hq2.
  rewrite <- Hs, <- Ht in Hq2.
  assert (c1 = c2) as -> by congruence.
  split; [done |]. split; [congruence | done].
Qed.

Lemma one_worker_per_key_witness :
  let w := after heartbeat_before_snapshot in
  let wk := mkWorker false store2 Draining in
  run heartbeat_before_snapshot NewRaftTransport = Some w
  ∧ workers w !! 1%nat = Some wk
  ∧ w_isSnap wk = w_isSnap wk
  ∧ w_toReplica wk = w_toReplica wk
  ∧ 1%nat = 1%nat ∧ wk = wk
  ∧ queue_of w false store2 = Some 1%nat.
Proof.
  intros w wk.
  assert (Hrun : run heartbeat_before_snapshot NewRaftTransport = Some w)
    by (vm_compute; reflexivity).
  assert (Hwk : workers w !! 1%nat = Some wk) by (vm_compute; reflexivity).
  split; [exact Hrun |]. split; [exact Hwk |].
  split; [reflexivity |]. split; [reflexivity |].
  exact (one_worker_per_key heartbeat_before_snapshot w 1%nat 1%nat wk wk
           Hrun Hwk Hwk eq_refl eq_refl).
Defined.

(** X3. In every reachable world two entries of the queue table that
    differ in class or in destination hold different channels; so the
    snapshots and the other messages for one destination never share a
    queue. *)
Theorem keys_have_separate_channels (tr : list Action) (w : World)
    (s1 s2 : bool) (t1 t2 : ReplicaDescriptor) (c1 c2 : chan) :
  run tr NewRaftTransport = Some w →
  queue_of w s1 t1 = Some c1 →
  queue_of w s2 t2 = Some c2 →
  s1 ≠ s2 ∨ t1 ≠ t2 →
  c1 ≠ c2.
Proof.
  intros Hrun H1 H2 Hne ->.
  apply Inv_reachable in Hrun as [_ _ _ _ Hkey].
  destruct (Hkey c2) as (s0 & t0 & _ & Huniq).
  destruct (Huniq _ _ H1) as [-> ->]. destruct (Huniq _ _ H2) as [-> ->].
  by destruct Hne.
Qed.

Lemma keys_have_separate_channels_witness :
  let w := after heartbeat_before_snapshot in
  run heartbeat_before_snapshot NewRaftTransport = Some w
  ∧ queue_of w true store2 = Some 0%nat
  ∧ queue_of w false store2 = Some 1%nat
  ∧ (true ≠ false ∨ store2 ≠ store2)
  ∧ 0%nat ≠ 1%nat.
Proof.
  intros w.
  assert (Hrun : run heartbeat_before_snapshot NewRaftTransport = Some w)
    by (vm_compute; reflexivity).
  assert (H1 : queue_of w true store2 = Some 0%nat) by (vm_compute; reflexivity).
  assert (H2 : queue_of w false store2 = Some 1%nat)
    by (vm_compute; reflexivity).
  assert (Hne : true ≠ false ∨ store2 ≠ store2) by (left; discriminate).
  split; [exact Hrun |]. split; [exact H1 |]. split; [exact H2 |].
  split; [exact Hne |].
  exact (keys_have_separate_channels heartbeat_before_snapshot w true false
           store2 store2 0%nat 1%nat Hrun H1 H2 Hne).
Defined.

(** A call for another key leaves the queue of this one alone. *)
Lemma SendAsync_other_key_untouched (runTask : option error)
    (req : RaftMessageRequest) (w : World) (snap : bool)
    (to : ReplicaDescriptor) (ch : chan) :
  Inv w →
  queue_of w snap to = Some ch →
  ¬ (isSnap req = snap ∧ ToReplica req = to) →
  queue_of (SendAsync runTask req w).1 snap to = Some ch
  ∧ untouched ch w (SendAsync runTask req w).1
  ∧ workers (SendAsync runTask req w).1 !! ch = workers w !! ch.
Proof.
  intros [_ _ Htable _ Hkey] Hq Hne.
  destruct (queue_of w (isSnap req) (ToReplica req)) as [c |] eqn:Hqr.
  - rewrite (SendAsync_hit _ _ _ _ Hqr).
    assert (Hc : ch ≠ c).
    { intros ->. destruct (Hkey c) as (s0 & t0 & _ & Huniq).
      destruct (Huniq _ _ Hq) as [Hs Ht].
      destruct (Huniq _ _ Hqr) as [Hs' Ht'].
      apply Hne. split; congruence. }
    split; [| split; [by apply untouched_try_send |]];
      unfold try_send; by case_decide.
  - rewrite (SendAsync_miss _ _ _ Hqr).
    pose proof (Htable _ _ _ Hq) as Hlt.
    assert (Hc : ch ≠ next_chan w) by lia.
    set (w0 := spawn_worker _ _ _ _).
    assert (Hq0 : queue_of w0 snap to = Some ch).
    { unfold w0. rewrite queue_of_spawn_worker, queue_of_with_new_queue.
      rewrite decide_False; [done |]. intros [-> ->]. by apply Hne. }
    assert (Hu0 : untouched ch w w0).
    { unfold w0. destruct runTask; (split; [| split]); simpl;
        rewrite ?fn_lookup_insert_ne by done;
        rewrite ?enqueued_on_snoc, ?written_on_snoc; by rewrite ?app_nil_r. }
    assert (Hw0 : workers w0 !! ch = workers w !! ch).
    { unfold w0. destruct runTask; simpl; [done |].
      by rewrite lookup_insert_ne. }
    split; [| split].
    + unfold try_send. by case_decide.
    + eapply untouched_trans; [done |]. by apply untouched_try_send.
    + unfold try_send. by case_decide.
Qed.

(** X4. In a reachable world a call of [SendAsync] for one key leaves
    the entry, the buffer and the worker of every other key as they
    were, whether it is accepted, refused, or makes a new queue; a call
    for that other key is answered after it as it would have been
    before it. A full snapshot queue thus never makes a heartbeat to the
    same destination fail. *)
Theorem SendAsync_leaves_other_keys (tr : list Action) (w : World)
    (runTask runTask' : option error) (req req' : RaftMessageRequest)
    (ch : chan) :
  run tr NewRaftTransport = Some w →
  queue_of w (isSnap req') (ToReplica req') = Some ch →
  ¬ (isSnap req = isSnap req' ∧ ToReplica req = ToReplica req') →
  let w' := (SendAsync runTask req w).1 in
  queue_of w' (isSnap req') (ToReplica req') = Some ch
  ∧ chans w' ch = chans w ch
  ∧ workers w' !! ch = workers w !! ch
  ∧ (SendAsync runTask' req' w').2 = (SendAsync runTask' req' w).2.
Proof.
  intros Hrun Hq Hne w'. apply Inv_reachable in Hrun as Hinv.
  destruct (SendAsync_other_key_untouched runTask req w _ _ _ Hinv Hq Hne)
    as (Hq' & (Hch & _ & _) & Hws).
  fold w' in Hq', Hch, Hws.
  split; [done |]. split; [done |]. split; [done |].
  rewrite (SendAsync_hit _ _ _ _ Hq'), (SendAsync_hit _ _ _ _ Hq).
  unfold try_send. rewrite Hch. by case_decide.
Qed.

Lemma SendAsync_leaves_other_keys_witness :
  let w := after heartbeat_before_snapshot in
  let req := snapshot store2 7 in
  let req' := heartbeat store2 8 in
  let w' := (SendAsync None req w).1 in
  run heartbeat_before_snapshot NewRaftTransport = Some w
  ∧ queue_of w (isSnap req') (ToReplica req') = Some 1%nat
  ∧ ¬ (isSnap req = isSnap req' ∧ ToReplica req = ToReplica req')
  ∧ queue_of w' (isSnap req') (ToReplica req') = Some 1%nat
  ∧ chans w' 1%nat = chans w 1%nat
  ∧ workers w' !! 1%nat = workers w !! 1%nat
  ∧ (SendAsync None req' w').2 = (SendAsync None req' w).2.
Proof.
  intros w req req' w'.
  assert (Hrun : run heartbeat_before_snapshot NewRaftTransport = Some w)
    by (vm_compute; reflexivity).
  assert (Hq : queue_of w (isSnap req') (ToReplica req') = Some 1%nat)
    by (vm_compute; reflexivity).
  assert (Hne : ¬ (isSnap req = isSnap req' ∧ ToReplica req = ToReplica req'))
    by (intros [Hs _]; discriminate Hs).
  split; [exact Hrun |]. split; [exact Hq |]. split; [exact Hne |].
  exact (SendAsync_leaves_other_keys heartbeat_before_snapshot w None None
           req req' 1%nat Hrun Hq Hne).
Defined.

(** Taken as one step, with no other goroutine between its regions, a
    call of [SendAsync] that returns false has found the entry of its
    key with a full buffer and has changed nothing. *)
Lemma SendAsync_false_atomic (runTask : option error)
    (req : RaftMessageRequest) (w : World) :
  (SendAsync runTask req w).2 = false →
  (SendAsync runTask req w).1 = w
  ∧ ∃ ch, queue_of w (isSnap req) (ToReplica req) = Some ch
          ∧ (raftSendBufferSize ≤ length (chans w ch))%nat.
Proof.
  destruct (queue_of w (isSnap req) (ToReplica req)) as [ch |] eqn:Hq.
  - rewrite (SendAsync_hit _ _ _ _ Hq). unfold try_send.
    case_decide; [done |]. intros _. split; [done |].
    exists ch. split; [done | lia].
  - rewrite (SendAsync_miss _ _ _ Hq).
    rewrite try_send_room; [done |].
    rewrite chans_spawn_worker. simpl. rewrite fn_lookup_insert.
    unfold raftSendBufferSize. simpl. lia.
Qed.

(** X6. In every reachable world the number of [onError] calls made so
    far plus the number of running workers is the number of channels
    ever made: each queue that was made has had exactly one [onError]
    call (at once, when its worker was refused, or when its worker
    ended) unless its worker still runs. *)
Theorem one_onError_per_finished_queue (tr : list Action) (w : World) :
  run tr NewRaftTransport = Some w →
  (length (onError_calls (log w)) + size (workers w))%nat = next_chan w.
Proof. intros Hrun. by apply Inv2_reachable in Hrun as [_ Hacc _ _ _]. Qed.

Lemma one_onError_per_finished_queue_witness :
  let tr := dial_fails ++ retry_after_failure in
  run tr NewRaftTransport = Some (after tr)
  ∧ (length (onError_calls (log (after tr))) + size (workers (after tr)))%nat
    = next_chan (after tr).
Proof.
  intros tr.
  assert (Hrun : run tr NewRaftTransport = Some (after tr))
    by (vm_compute; reflexivity).
  split; [exact Hrun |].
  exact (one_onError_per_finished_queue tr (after tr) Hrun).
Defined.

End table.

(** ** Further properties of the delivery worker *)

Section worker_ends.

(** X7. Once a worker has ended, whatever follows, its channel is never
    used again: no worker drains it, the table does not hold it,
    nothing more is put on it, and the messages left in its buffer stay
    there and are never written to a stream. *)
Theorem ended_worker_queue_is_lost (tr tr' : list Action) (w w1 w2 : World)
    (ch : chan) (wk : Worker) (ev : WorkerEvent) :
  run tr NewRaftTransport = Some w →
  workers w !! ch = Some wk →
  worker_step ch ev w = Some w1 →
  workers w1 !! ch = None →
  run tr' w1 = Some w2 →
  chans w2 ch = chans w1 ch
  ∧ enqueued_on ch (log w2) = enqueued_on ch (log w1)
  ∧ written_on ch (log w2) = written_on ch (log w1)
  ∧ workers w2 !! ch = None
  ∧ ∀ snap to, queue_of w2 snap to ≠ Some ch.
Proof.
  intros Hrun Hwk Hstep Hgone Hrun'.
  apply Inv_reachable in Hrun as Hinv.
  pose proof (ended_worker_dead _ _ _ _ _ Hinv Hwk Hstep Hgone) as Hdead.
  pose proof (Inv_worker_step _ _ _ _ Hstep Hinv) as Hinv1.
  destruct (dead_run _ _ _ _ Hinv1 Hdead Hrun')
    as [(_ & Hws & Hq) (Hch & Henq & Hwr)].
  done.
Qed.

Lemma ended_worker_queue_is_lost_witness :
  let w := after (take 2 dial_fails) in
  let w1 := after dial_fails in
  let w2 := after (dial_fails ++ retry_after_failure) in
  let wk := mkWorker false store2 Dialing in
  run (take 2 dial_fails) NewRaftTransport = Some w
  ∧ workers w !! 0%nat = Some wk
  ∧ worker_step 0%nat (WDial resolver_fails) w = Some w1
  ∧ workers w1 !! 0%nat = None
  ∧ run retry_after_failure w1 = Some w2
  ∧ chans w2 0%nat = chans w1 0%nat
  ∧ enqueued_on 0%nat (log w2) = enqueued_on 0%nat (log w1)
  ∧ written_on 0%nat (log w2) = written_on 0%nat (log w1)
  ∧ workers w2 !! 0%nat = None
  ∧ ∀ snap to, queue_of w2 snap to ≠ Some 0%nat.
Proof.
  intros w w1 w2 wk.
  assert (Hrun : run (take 2 dial_fails) NewRaftTransport = Some w)
    by (vm_compute; reflexivity).
  assert (Hwk : workers w !! 0%nat = Some wk) by (vm_compute; reflexivity).
  assert (Hstep : worker_step 0%nat (WDial resolver_fails) w = Some w1)
    by (vm_compute; reflexivity).
  assert (Hgone : workers w1 !! 0%nat = None) by (vm_compute; reflexivity).
  assert (Hrun' : run retry_after_failure w1 = Some w2)
    by (vm_compute; reflexivity).
  split; [exact Hrun |]. split; [exact Hwk |]. split; [exact Hstep |].
  split; [exact Hgone |]. split; [exact Hrun' |].
  exact (ended_worker_queue_is_lost (take 2 dial_fails) retry_after_failure
           w w1 w2 0%nat wk (WDial resolver_fails)
           Hrun Hwk Hstep Hgone Hrun').
Defined.

(** X8. When one of the calls before the loop fails (the resolver, the
    dial, the opening of the stream or the registration of the stream
    reader), the worker ends at once: [onError] gets that error and the
    worker's destination, the entry of the key is removed, and every
    message accepted onto the queue so far is still in its buffer;
    none of them has been written to a stream and, whatever follows,
    none ever is. *)
Theorem dial_failure_loses_queue (tr : list Action) (w : World) (ch : chan)
    (wk : Worker) (d : DialOutcome) (err : error) :
  run tr NewRaftTransport = Some w →
  workers w !! ch = Some wk →
  w_phase wk = Dialing →
  processQueue_dial d = Some err →
  ∃ w1,
    worker_step ch (WDial d) w = Some w1
    ∧ workers w1 !! ch = None
    ∧ onError_calls (log w1)
      = onError_calls (log w) ++ [(Some err, w_toReplica wk)]
    ∧ queue_of w1 (w_isSnap wk) (w_toReplica wk) = None
    ∧ chans w1 ch = enqueued_on ch (log w1)
    ∧ ∀ tr' w2, run tr' w1 = Some w2 → written_on ch (log w2) = [].
Proof.
  intros Hrun Hwk Hp Hd.
  apply Inv_reachable in Hrun as Hinv.
  apply Inv2_reachable in Hrun as [_ _ Hdial _ _].
  assert (Hstep : worker_step ch (WDial d) w
                  = Some (worker_exit ch wk (Some err) w)).
  { unfold worker_step. by rewrite Hwk, Hp, Hd. }
  exists (worker_exit ch wk (Some err) w).
  assert (Hgone : workers (worker_exit ch wk (Some err) w) !! ch = None)
    by apply lookup_delete_eq.
  assert (Hwr : written_on ch (log (worker_exit ch wk (Some err) w)) = []).
  { simpl. rewrite written_on_snoc, app_nil_r. by eapply Hdial. }
  split; [done |]. split; [done |].
  split; [apply worker_exit_calls_onError |].
  split; [rewrite queue_of_worker_exit; by rewrite decide_True |].
  pose proof (Inv_worker_step _ _ _ _ Hstep Hinv) as Hinv1.
  split.
  - destruct Hinv1 as [Hfifo _ _ _ _]. by rewrite Hfifo, Hwr.
  - intros tr' w2 Hrun'.
    pose proof (ended_worker_dead _ _ _ _ _ Hinv Hwk Hstep Hgone) as Hdead.
    destruct (dead_run _ _ _ _ Hinv1 Hdead Hrun') as [_ (_ & _ & Hwr2)].
    by rewrite Hwr2.
Qed.

Lemma dial_failure_loses_queue_witness :
  let w := after (take 2 dial_fails) in
  let wk := mkWorker false store2 Dialing in
  let err := ExternalError "unable to look up descriptor for node 2" in
  run (take 2 dial_fails) NewRaftTransport = Some w
  ∧ workers w !! 0%nat = Some wk
  ∧ w_phase wk = Dialing
  ∧ processQueue_dial resolver_fails = Some err
  ∧ ∃ w1,
      worker_step 0%nat (WDial resolver_fails) w = Some w1
      ∧ workers w1 !! 0%nat = None
      ∧ onError_calls (log w1) = onError_calls (log w) ++ [(Some err, store2)]
      ∧ queue_of w1 false store2 = None
      ∧ chans w1 0%nat = enqueued_on 0%nat (log w1)
      ∧ ∀ tr' w2, run tr' w1 = Some w2 → written_on 0%nat (log w2) = [].
Proof.
  intros w wk err.
  assert (Hrun : run (take 2 dial_fails) NewRaftTransport = Some w)
    by (vm_compute; reflexivity).
  assert (Hwk : workers w !! 0%nat = Some wk) by (vm_compute; reflexivity).
  split; [exact Hrun |]. split; [exact Hwk |].
  split; [reflexivity |]. split; [reflexivity |].
  exact (dial_failure_loses_queue (take 2 dial_fails) w 0%nat wk
           resolver_fails err Hrun Hwk eq_refl eq_refl).
Defined.

(** X9. When [stream.Send] fails on the message [req] taken off the
    queue, the worker ends in that iteration: [req] counts as written,
    the rest of the buffer is left behind and the entry of the key is
    removed. [onError] gets the error of the send, except for a
    snapshot whose status publication is cut short by the stopper:
    then [processQueue] returns nil and [onError] gets a nil error. *)
Theorem send_failure_ends_worker (w : World) (ch : chan) (wk : Worker)
    (req : RaftMessageRequest) (rest : list RaftMessageRequest)
    (err : error) (pub : PublishSelect) :
  workers w !! ch = Some wk →
  w_phase wk = Draining →
  chans w ch = req :: rest →
  ∃ w1,
    worker_step ch (WSelect (SelQueue (Some err) pub)) w = Some w1
    ∧ workers w1 !! ch = None
    ∧ chans w1 ch = rest
    ∧ written_on ch (log w1) = written_on ch (log w) ++ [req]
    ∧ queue_of w1 (w_isSnap wk) (w_toReplica wk) = None
    ∧ onError_calls (log w1)
      = onError_calls (log w)
        ++ [(match pub with
             | PubShouldStop => if isSnap req then None else Some err
             | PubDelivered => Some err
             end, w_toReplica wk)].
Proof.
  intros Hwk Hp Hbuf. unfold worker_step, processQueue_select.
  rewrite Hwk, Hp, Hbuf.
  destruct (isSnap req) eqn:Hsnap, pub; simpl; eexists;
    (split; [reflexivity |]);
    (split; [apply lookup_delete_eq |]);
    (split; [simpl; apply fn_lookup_insert |]);
    (split; [simpl; rewrite ?written_on_snoc; simpl;
             rewrite ?written_on_snoc; simpl;
             rewrite ?decide_True by done; by rewrite ?app_nil_r |]);
    (split; [rewrite queue_of_worker_exit; by rewrite decide_True |]);
    simpl; rewrite ?onError_calls_snoc; simpl;
    rewrite ?onError_calls_snoc; simpl;
    rewrite ?onError_calls_snoc; simpl; by rewrite ?app_nil_r.
Qed.

Lemma send_failure_ends_worker_witness :
  let w := after (take 2 stop_while_publishing) in
  let wk := mkWorker true store2 Draining in
  let req := snapshot store2 1 in
  workers w !! 0%nat = Some wk
  ∧ w_phase wk = Draining
  ∧ chans w 0%nat = [req]
  ∧ ∃ w1,
      worker_step 0%nat (WSelect (SelQueue (Some broken_pipe) PubShouldStop)) w
      = Some w1
      ∧ workers w1 !! 0%nat = None
      ∧ chans w1 0%nat = []
      ∧ written_on 0%nat (log w1) = written_on 0%nat (log w) ++ [req]
      ∧ queue_of w1 true store2 = None
      ∧ onError_calls (log w1) = onError_calls (log w) ++ [(None, store2)].
Proof.
  intros w wk req.
  assert (Hwk : workers w !! 0%nat = Some wk) by (vm_compute; reflexivity).
  split; [exact Hwk |]. split; [reflexivity |]. split; [reflexivity |].
  exact (send_failure_ends_worker w 0%nat wk req [] broken_pipe PubShouldStop
           Hwk eq_refl eq_refl).
Defined.

(** X10. In every reachable world every status published on
    [SnapshotStatusChan] is that of a snapshot-typed request, and the
    [stream.Send] of that request returning that very error stands
    before it in the log; there are never more statuses than snapshots
    written. Nothing but a snapshot that was put on a stream is ever
    reported. *)
Theorem statuses_report_written_snapshots (tr : list Action) (w : World)
    (i : nat) (st : RaftSnapshotStatus) :
  run tr NewRaftTransport = Some w →
  log w !! i = Some (EvSnapshotStatus st) →
  Type_ (Message_ (Req st)) = MsgSnap
  ∧ (∃ j ch, (j < i)%nat
             ∧ log w !! j = Some (EvStreamSend ch (Req st) (Err st)))
  ∧ (length (snapshot_statuses (log w))
     ≤ length (snapshot_writes (log w)))%nat.
Proof.
  intros Hrun Hi.
  apply Inv2_reachable in Hrun as [_ _ _ Hstat Hcount].
  destruct (Hstat i st Hi) as [Hsnap Hsend].
  split; [| done]. unfold isSnap in Hsnap. by apply bool_decide_eq_true in Hsnap.
Qed.

Lemma statuses_report_written_snapshots_witness :
  let w := after heartbeat_before_snapshot in
  let st := mkSnapshotStatus (snapshot store2 1) None in
  run heartbeat_before_snapshot NewRaftTransport = Some w
  ∧ log w !! 6%nat = Some (EvSnapshotStatus st)
  ∧ Type_ (Message_ (Req st)) = MsgSnap
  ∧ (∃ j ch, (j < 6)%nat
             ∧ log w !! j = Some (EvStreamSend ch (Req st) (Err st)))
  ∧ (length (snapshot_statuses (log w))
     ≤ length (snapshot_writes (log w)))%nat.
Proof.
  intros w st.
  assert (Hrun : run heartbeat_before_snapshot NewRaftTransport = Some w)
    by (vm_compute; reflexivity).
  assert (Hi : log w !! 6%nat = Some (EvSnapshotStatus st))
    by (vm_compute; reflexivity).
  split; [exact Hrun |]. split; [exact Hi |].
  exact (statuses_report_written_snapshots heartbeat_before_snapshot w 6%nat st
           Hrun Hi).
Defined.

(** X11. A full queue refuses a message, and accepts it as soon as its
    worker has taken one message off and sent it: the buffer then holds
    the 99 messages that were waiting followed by the new one. *)
Theorem full_queue_accepts_after_one_send (w : World) (ch : chan)
    (wk : Worker) (head req : RaftMessageRequest)
    (rest : list RaftMessageRequest) (runTask : option error) :
  queue_of w (isSnap req) (ToReplica req) = Some ch →
  workers w !! ch = Some wk →
  w_phase wk = Draining →
  chans w ch = head :: rest →
  length rest = 99%nat →
  SendAsync runTask req w = (w, false)
  ∧ ∃ w1,
      worker_step ch (WSelect (SelQueue None PubDelivered)) w = Some w1
      ∧ (SendAsync runTask req w1).2 = true
      ∧ chans (SendAsync runTask req w1).1 ch = rest ++ [req].
Proof.
  intros Hq Hwk Hp Hbuf Hlen. split.
  - rewrite (SendAsync_hit _ _ _ _ Hq). apply try_send_full.
    rewrite Hbuf. simpl. unfold raftSendBufferSize. lia.
  - unfold worker_step, processQueue_select. rewrite Hwk, Hp, Hbuf.
    set (w0 := emit (EvStreamSend ch head None) (set_chan ch rest w)).
    assert (Hc0 : chans w0 ch = rest) by apply fn_lookup_insert.
    assert (Hsend : ∀ w1, queues w1 = queues w → chans w1 ch = rest →
              (SendAsync runTask req w1).2 = true
              ∧ chans (SendAsync runTask req w1).1 ch = rest ++ [req]).
    { intros w1 Hqs Hc1.
      assert (Hq1 : queue_of w1 (isSnap req) (ToReplica req) = Some ch)
        by (unfold queue_of in *; by rewrite Hqs).
      rewrite (SendAsync_hit _ _ _ _ Hq1).
      rewrite try_send_room
        by (rewrite Hc1, Hlen; unfold raftSendBufferSize; lia).
      simpl. by rewrite fn_lookup_insert, Hc1. }
    destruct (isSnap head); simpl; eexists; (split; [reflexivity |]);
      by apply Hsend.
Qed.

Lemma full_queue_accepts_after_one_send_witness :
  let reqs :=
    (fun i => (@None error, heartbeat store2 (Z.of_nat i))) <$> seq 1 100 in
  let w0 := (SendAsync_all reqs NewRaftTransport).1 in
  let w := default w0 (worker_step 0%nat (WDial dial_ok) w0) in
  let wk := mkWorker false store2 Draining in
  let req := heartbeat store2 101 in
  let rest := (fun i => heartbeat store2 (Z.of_nat i)) <$> seq 2 99 in
  queue_of w (isSnap req) (ToReplica req) = Some 0%nat
  ∧ workers w !! 0%nat = Some wk
  ∧ w_phase wk = Draining
  ∧ chans w 0%nat = heartbeat store2 1 :: rest
  ∧ length rest = 99%nat
  ∧ SendAsync None req w = (w, false)
  ∧ ∃ w1,
      worker_step 0%nat (WSelect (SelQueue None PubDelivered)) w = Some w1
      ∧ (SendAsync None req w1).2 = true
      ∧ chans (SendAsync None req w1).1 0%nat = rest ++ [req].
Proof.
  intros reqs w0 w wk req rest.
  assert (Hq : queue_of w (isSnap req) (ToReplica req) = Some 0%nat)
    by (vm_compute; reflexivity).
  assert (Hwk : workers w !! 0%nat = Some wk) by (vm_compute; reflexivity).
  assert (Hbuf : chans w 0%nat = heartbeat store2 1 :: rest)
    by (vm_compute; reflexivity).
  split; [exact Hq |]. split; [exact Hwk |]. split; [reflexivity |].
  split; [exact Hbuf |]. split; [reflexivity |].
  exact (full_queue_accepts_after_one_send w 0%nat wk (heartbeat store2 1) req
           rest None Hq Hwk eq_refl Hbuf eq_refl).
Defined.

End worker_ends.

(** ** Further properties of the inbound dispatcher and the registry *)

Section inbound_more.
Import Registry Inbound.

(** Once the loop has returned an error, the events that follow do
    not change what it returned. *)
Lemma recvLoop_returned_app (pre rest : list InboundEvent)
    (hs : handlers) (err : error) :
  recvLoop pre hs = Returned err →
  recvLoop (pre ++ rest) hs = Returned err.
Proof.
  revert hs. induction pre as [| ev pre IH]; intros hs Hpre;
    simpl in *; [done |].
  destruct ev as [[req | e] | s h | s]; try by apply IH.
  - destruct (hs !! StoreID_ (ToReplica req)) as [handler |]; [| done].
    destruct (handler req); [done |]. by apply IH.
  - done.
Qed.

(** X13. With the registry left alone, the reader is still reading
    after a sequence of [stream.Recv()] results exactly when every one
    of them is a message for a store whose registered handler returns
    nil on it; exactly then nothing is on [errCh], so that only the
    drain signal can end the session. The reader itself never changes
    the registry. *)
Theorem session_stays_open_iff (rs : list (RaftMessageRequest + error))
    (hs : handlers) (sendAndClose : option error) :
  let accepted r :=
    ∃ req handler,
      r = inl req ∧ hs !! StoreID_ (ToReplica req) = Some handler
      ∧ handler req = None in
  (∀ hs', recvLoop (InRecv <$> rs) hs = Reading hs' → hs' = hs)
  ∧ (recvLoop (InRecv <$> rs) hs = Reading hs ↔ Forall accepted rs)
  ∧ (RaftMessage None (InRecv <$> rs) hs SelectErrCh sendAndClose = None
     ↔ Forall accepted rs).
Proof.
  intros accepted.
  assert (Hsame : ∀ hs', recvLoop (InRecv <$> rs) hs = Reading hs' → hs' = hs).
  { clear. induction rs as [| [req | e] rs IH]; intros hs'; simpl.
    - by intros [= <-].
    - destruct (hs !! StoreID_ (ToReplica req)) as [handler |]; [| done].
      destruct (handler req); [done | apply IH].
    - done. }
  assert (Hiff : recvLoop (InRecv <$> rs) hs = Reading hs ↔ Forall accepted rs).
  { clear Hsame. induction rs as [| r rs IH]; simpl.
    - split; [constructor | done].
    - rewrite Forall_cons. destruct r as [req | e].
      + destruct (hs !! StoreID_ (ToReplica req)) as [handler |] eqn:Hh.
        * destruct (handler req) as [e |] eqn:Hr.
          -- split; [done |].
             intros [(req' & h' & [= <-] & Hh' & Hr') _]. congruence.
          -- rewrite IH. split; [| by intros [_ ?]].
             intros HF. split; [| done]. by exists req, handler.
        * split; [done |].
          intros [(req' & h' & [= <-] & Hh' & _) _]. congruence.
      + split; [done |]. by intros [(req' & h' & [=] & _) _]. }
  split; [done |]. split; [done |].
  rewrite <- Hiff. unfold RaftMessage.
  destruct (recvLoop (InRecv <$> rs) hs) as [hs' |] eqn:Hloop.
  - by rewrite (Hsame hs' eq_refl).
  - done.
Qed.

(** X14. How [Listen] and [Stop] compose. A later call for a store
    wins over an earlier one for the same store; registering a store
    that had no handler and stopping it again restores the registry;
    calls for different stores commute. *)
Theorem Listen_Stop_compose (S S' : StoreID) (H H' : raftMessageHandler)
    (hs : handlers) :
  S ≠ S' →
  Listen S H' (Listen S H hs) = Listen S H' hs
  ∧ Stop S (Listen S H hs) = Stop S hs
  ∧ Listen S H (Stop S hs) = Listen S H hs
  ∧ Stop S (Stop S hs) = Stop S hs
  ∧ (hs !! S = None → Stop S (Listen S H hs) = hs)
  ∧ Listen S H (Listen S' H' hs) = Listen S' H' (Listen S H hs)
  ∧ Listen S H (Stop S' hs) = Stop S' (Listen S H hs)
  ∧ Stop S (Stop S' hs) = Stop S' (Stop S hs).
Proof.
  intros Hne. unfold Listen, Stop. repeat split.
  - apply insert_insert_eq.
  - apply delete_insert_eq.
  - apply insert_delete_eq.
  - apply delete_delete_eq.
  - intros Hnone. rewrite delete_insert_eq. by apply delete_id.
  - by apply insert_insert_ne.
  - symmetry. by apply delete_insert_ne.
  - apply delete_delete.
Qed.

Lemma Listen_Stop_compose_witness :
  let accept : raftMessageHandler := fun _ => None in
  let refuse : raftMessageHandler := fun _ => Some broken_pipe in
  let hs : handlers := Listen 3 refuse empty in
  1 ≠ 2
  ∧ Listen 1 refuse (Listen 1 accept hs) = Listen 1 refuse hs
  ∧ Stop 1 (Listen 1 accept hs) = Stop 1 hs
  ∧ Listen 1 accept (Stop 1 hs) = Listen 1 accept hs
  ∧ Stop 1 (Stop 1 hs) = Stop 1 hs
  ∧ (hs !! 1 = None → Stop 1 (Listen 1 accept hs) = hs)
  ∧ Listen 1 accept (Listen 2 refuse hs) = Listen 2 refuse (Listen 1 accept hs)
  ∧ Listen 1 accept (Stop 2 hs) = Stop 2 (Listen 1 accept hs)
  ∧ Stop 1 (Stop 2 hs) = Stop 2 (Stop 1 hs).
Proof.
  intros accept refuse hs.
  split; [lia |].
  apply (Listen_Stop_compose 1 2 accept refuse hs). lia.
Defined.

End inbound_more.

(** ** What [SendAsync] and the workers do to the log *)

Section effects.

(** The log, the workers, the channel counter and the entry after a
    call of [SendAsync]. *)
Lemma SendAsync_effects_aux (runTask : option error) (req : RaftMessageRequest)
    (w : World) :
  let entry := queue_of w (isSnap req) (ToReplica req) in
  let ch := default (next_chan w) entry in
  let '(w', ok) := SendAsync runTask req w in
  log w'
  = log w
    ++ match entry, runTask with
       | Some _, _ => []
       | None, None => [EvSpawn ch (ToReplica req)]
       | None, Some err => [EvOnError (Some err) (ToReplica req)]
       end
    ++ (if ok then [EvEnqueue ch req] else [])
  ∧ workers w'
    = match entry, runTask with
      | None, None =>
          <[ch := mkWorker (isSnap req) (ToReplica req) Dialing]> (workers w)
      | _, _ => workers w
      end
  ∧ next_chan w' = match entry with
                   | Some _ => next_chan w
                   | None => S (next_chan w)
                   end
  ∧ queue_of w' (isSnap req) (ToReplica req) = Some ch.
Proof.
  cbv zeta.
  destruct (queue_of w (isSnap req) (ToReplica req)) as [c |] eqn:Hq; simpl.
  - rewrite (SendAsync_hit _ _ _ _ Hq). unfold try_send.
    case_decide; simpl; by rewrite ?app_nil_r.
  - rewrite (SendAsync_miss _ _ _ Hq).
    rewrite try_send_room
      by (rewrite chans_spawn_worker; simpl; rewrite fn_lookup_insert;
          unfold raftSendBufferSize; simpl; lia).
    assert (Hq' : ∀ e b x,
              queue_of (emit e (set_chan (next_chan w) b
                 (spawn_worker runTask (next_chan w) req
                    (with_new_queue (isSnap req) (ToReplica req) w))))
                (isSnap req) (ToReplica req) = x
              ↔ Some (next_chan w) = x).
    { intros e b x.
      change (queue_of (emit ?e (set_chan ?c ?b ?y))) with (queue_of y).
      rewrite queue_of_spawn_worker, queue_of_with_new_queue.
      by rewrite decide_True. }
    destruct runTask as [err |]; simpl;
      rewrite <- ?app_assoc; repeat split; try done; by apply Hq'.
Qed.

(** X15. All that a call of [SendAsync] does. On an existing entry it
    at most enqueues: it starts no worker and calls [onError] not at
    all, whatever [RunTask] would answer. When it makes the entry it
    also makes channel [next_chan w] and either starts a worker on it
    or, [RunTask] refusing with [err], calls [onError(err, toReplica)]
    once, before the enqueue. It never calls [onError] with a nil
    error. *)
Theorem SendAsync_effects (runTask : option error) (req : RaftMessageRequest)
    (w : World) :
  let entry := queue_of w (isSnap req) (ToReplica req) in
  let ch := default (next_chan w) entry in
  let '(w', ok) := SendAsync runTask req w in
  log w'
  = log w
    ++ match entry, runTask with
       | Some _, _ => []
       | None, None => [EvSpawn ch (ToReplica req)]
       | None, Some err => [EvOnError (Some err) (ToReplica req)]
       end
    ++ (if ok then [EvEnqueue ch req] else [])
  ∧ workers w'
    = match entry, runTask with
      | None, None =>
          <[ch := mkWorker (isSnap req) (ToReplica req) Dialing]> (workers w)
      | _, _ => workers w
      end
  ∧ next_chan w' = match entry with
                   | Some _ => next_chan w
                   | None => S (next_chan w)
                   end
  ∧ queue_of w' (isSnap req) (ToReplica req) = Some ch.
Proof. apply SendAsync_effects_aux. Qed.

Lemma processQueue_dial_error (d : DialOutcome) (err : error) :
  processQueue_dial d = Some err → err ∈ DialOutcome_errors d.
Proof.
  unfold processQueue_dial, DialOutcome_errors.
  destruct d as [[e1 |] [e2 |] [e3 |] [e4 |]]; simpl; intros [= <-]; by left.
Qed.

Lemma processQueue_select_onError (ch : chan) (sel : LoopSelect)
    (w w1 : World) (flow : Flow) :
  processQueue_select ch sel w = Some (w1, flow) →
  onError_calls (log w1) = onError_calls (log w)
  ∧ ∀ err, flow = Return (Some err) →
           err ∈ Action_errors (ActWorker ch (WSelect sel)).
Proof.
  destruct sel as [| | [e |] | [e |] pub]; simpl;
    try (intros [= <- <-]; split; [done |]; intros err Hret;
         simplify_eq; by left).
  all: destruct (chans w ch) as [| req rest]; [done |].
  all: destruct (isSnap req), pub; intros [= <- <-]; simpl;
    rewrite ?onError_calls_snoc; simpl; rewrite ?onError_calls_snoc; simpl;
    rewrite ?app_nil_r; (split; [done |]); intros err Hret;
    simplify_eq; by left.
Qed.

Lemma step_onError (a : Action) (w w' : World) :
  step a w = Some w' →
  ∃ calls,
    onError_calls (log w') = onError_calls (log w) ++ calls
    ∧ ∀ err to, (Some err, to) ∈ calls → err ∈ Action_errors a.
Proof.
  destruct a as [runTask req | ch ev]; simpl.
  - intros [= <-].
    pose proof (SendAsync_effects_aux runTask req w) as Heff. cbv zeta in Heff.
    destruct (SendAsync runTask req w) as [w' ok]. simpl.
    destruct Heff as (-> & _).
    destruct (queue_of w (isSnap req) (ToReplica req)), runTask as [e |];
      destruct ok; simpl.
    all: unfold onError_calls; rewrite !omap_app; simpl.
    all: eexists; (split; [reflexivity |]); intros err to Hin.
    all: try (apply list_elem_of_singleton in Hin; simplify_eq; by left).
    all: by apply elem_of_nil in Hin.
  - unfold worker_step.
    destruct (workers w !! ch) as [wk |]; [| done].
    destruct (w_phase wk), ev as [d | sel]; try done.
    + destruct (processQueue_dial d) as [e |] eqn:Hd; intros [= <-].
      * exists [(Some e, w_toReplica wk)].
        split; [apply worker_exit_calls_onError |].
        intros err to Hin. apply list_elem_of_singleton in Hin.
        simplify_eq. by apply processQueue_dial_error.
      * exists []. split; [by rewrite app_nil_r |].
        intros err to Hin. by apply elem_of_nil in Hin.
    + destruct (processQueue_select ch sel w) as [[w1 flow] |] eqn:Hsel;
        [| done].
      destruct (processQueue_select_onError _ _ _ _ _ Hsel) as [Hcalls Herr].
      destruct flow as [| ret]; intros [= <-].
      * exists []. split; [by rewrite app_nil_r |].
        intros err to Hin. by apply elem_of_nil in Hin.
      * exists [(ret, w_toReplica wk)].
        rewrite worker_exit_calls_onError, Hcalls. split; [done |].
        intros err to Hin. apply list_elem_of_singleton in Hin.
        simplify_eq. by apply Herr.
Qed.

Lemma run_onError (tr : list Action) (w w' : World) :
  run tr w = Some w' →
  ∀ err to, (Some err, to) ∈ onError_calls (log w') →
            (Some err, to) ∈ onError_calls (log w)
            ∨ err ∈ tr ≫= Action_errors.
Proof.
  revert w. induction tr as [| a tr IH]; intros w; simpl.
  - intros [= <-] err to Hin. by left.
  - destruct (step a w) as [w1 |] eqn:Hstep; [| done].
    intros Hrun err to Hin.
    destruct (step_onError _ _ _ Hstep) as (calls & Hcalls & Herr).
    destruct (IH _ Hrun _ _ Hin) as [Hin1 | Hin1].
    + rewrite Hcalls in Hin1. apply elem_of_app in Hin1 as [? | Hc].
      * by left.
      * right. apply elem_of_app. left. by eapply Herr.
    + right. apply elem_of_app. by right.
Qed.

(** X16. The transport makes up no error of its own on the outbound
    side: in every reachable world each non-nil error handed to
    [onError] is one that a collaborator returned in the course of the
    interleaving ([RunTask], the resolver, the dial, the opening of the
    stream, [stream.RecvMsg] or [stream.Send]). *)
Theorem onError_errors_come_from_collaborators (tr : list Action) (w : World)
    (err : error) (to : ReplicaDescriptor) :
  run tr NewRaftTransport = Some w →
  (Some err, to) ∈ onError_calls (log w) →
  err ∈ tr ≫= Action_errors.
Proof.
  intros Hrun Hin.
  destruct (run_onError _ _ _ Hrun _ _ Hin) as [Hnil | ?]; [| done].
  simpl in Hnil. by apply elem_of_nil in Hnil.
Qed.

Lemma onError_errors_come_from_collaborators_witness :
  let err := ExternalError "unable to look up descriptor for node 2" in
  run dial_fails NewRaftTransport = Some (after dial_fails)
  ∧ (Some err, store2) ∈ onError_calls (log (after dial_fails))
  ∧ err ∈ dial_fails ≫= Action_errors.
Proof.
  intros err.
  assert (Hrun : run dial_fails NewRaftTransport = Some (after dial_fails))
    by (vm_compute; reflexivity).
  assert (Hin : (Some err, store2) ∈ onError_calls (log (after dial_fails)))
    by (vm_compute; left).
  split; [exact Hrun |]. split; [exact Hin |].
  exact (onError_errors_come_from_collaborators dial_fails (after dial_fails)
           err store2 Hrun Hin).
Defined.

End effects.

(** ** From acceptance to the stream *)

Section end_to_end.

Lemma statuses_of_cons (req : RaftMessageRequest)
    (buf : list RaftMessageRequest) :
  statuses_of (req :: buf)
  = (if isSnap req then [mkSnapshotStatus req None] else [])
    ++ statuses_of buf.
Proof. unfold statuses_of. simpl. by destruct (isSnap req). Qed.

(** The loop, with sends and publications that all succeed, run until
    the queue is empty. *)
Lemma worker_drains_queue_in_order_aux (w : World) (ch : chan) (wk : Worker) :
  workers w !! ch = Some wk →
  w_phase wk = Draining →
  ∃ w',
    run (drain ch (length (chans w ch))) w = Some w'
    ∧ chans w' ch = []
    ∧ written_on ch (log w') = written_on ch (log w) ++ chans w ch
    ∧ snapshot_statuses (log w')
      = snapshot_statuses (log w) ++ statuses_of (chans w ch)
    ∧ onError_calls (log w') = onError_calls (log w)
    ∧ workers w' = workers w
    ∧ queues w' = queues w.
Proof.
  intros Hwk Hp.
  remember (chans w ch) as buf eqn:Hbuf. symmetry in Hbuf.
  revert w Hwk Hbuf. induction buf as [| req rest IH]; intros w Hwk Hbuf.
  - exists w. unfold statuses_of. simpl. rewrite !app_nil_r. done.
  - rewrite statuses_of_cons. unfold drain in *.
    cbn [length replicate run step].
    unfold worker_step, processQueue_select. rewrite Hwk, Hp, Hbuf.
    set (w0 := emit (EvStreamSend ch req None) (set_chan ch rest w)).
    assert (Hc0 : chans w0 ch = rest) by apply fn_lookup_insert.
    destruct (isSnap req) eqn:Hsnap; cbn [after_send].
    + set (w1 := emit _ w0).
      destruct (IH w1 Hwk Hc0) as (w' & Hrun & Hch & Hwr & Hst & Hon & Hws & Hq).
      exists w'. split; [done |]. split; [done |].
      rewrite Hwr, Hst, Hon, Hws, Hq. unfold w1, w0. simpl.
      rewrite !written_on_snoc, !snapshot_statuses_snoc, !onError_calls_snoc.
      simpl. rewrite decide_True by done.
      by rewrite !app_nil_r, <- !app_assoc.
    + destruct (IH w0 Hwk Hc0) as (w' & Hrun & Hch & Hwr & Hst & Hon & Hws & Hq).
      exists w'. split; [done |]. split; [done |].
      rewrite Hwr, Hst, Hon, Hws, Hq. unfold w0. simpl.
      rewrite !written_on_snoc, !snapshot_statuses_snoc, !onError_calls_snoc.
      simpl. rewrite decide_True by done.
      by rewrite !app_nil_r, <- !app_assoc.
Qed.

(** X17. A worker in its loop whose sends all succeed and whose status
    publications all go through empties its queue in as many
    iterations as the queue holds messages: it writes them to the
    stream in queue order, publishes one status with a nil error for
    each snapshot among them, in that order, calls [onError] not at all
    and stays in the table with its entry. *)
Theorem worker_drains_queue_in_order (w : World) (ch : chan) (wk : Worker) :
  workers w !! ch = Some wk →
  w_phase wk = Draining →
  ∃ w',
    run (drain ch (length (chans w ch))) w = Some w'
    ∧ chans w' ch = []
    ∧ written_on ch (log w') = written_on ch (log w) ++ chans w ch
    ∧ snapshot_statuses (log w')
      = snapshot_statuses (log w) ++ statuses_of (chans w ch)
    ∧ onError_calls (log w') = onError_calls (log w)
    ∧ workers w' = workers w
    ∧ queues w' = queues w.
Proof. apply worker_drains_queue_in_order_aux. Qed.

Lemma worker_drains_queue_in_order_witness :
  let tr := [ActSendAsync None (heartbeat store2 1);
             ActSendAsync None (heartbeat store2 2);
             ActSendAsync None (heartbeat store2 3);
             ActWorker 0%nat (WDial dial_ok)] in
  let w := after tr in
  let wk := mkWorker false store2 Draining in
  workers w !! 0%nat = Some wk
  ∧ w_phase wk = Draining
  ∧ ∃ w',
      run (drain 0%nat (length (chans w 0%nat))) w = Some w'
      ∧ chans w' 0%nat = []
      ∧ written_on 0%nat (log w') = written_on 0%nat (log w) ++ chans w 0%nat
      ∧ snapshot_statuses (log w')
        = snapshot_statuses (log w) ++ statuses_of (chans w 0%nat)
      ∧ onError_calls (log w') = onError_calls (log w)
      ∧ workers w' = workers w
      ∧ queues w' = queues w.
Proof.
  intros tr w wk.
  assert (Hwk : workers w !! 0%nat = Some wk) by (vm_compute; reflexivity).
  split; [exact Hwk |]. split; [reflexivity |].
  exact (worker_drains_queue_in_order w 0%nat wk Hwk eq_refl).
Defined.

(** X18. From acceptance to the stream. In a reachable world where the
    key has no entry, up to 100 calls of [SendAsync] for that key, the
    first of which gets its worker started, are all accepted; once the
    worker's calls before the loop have gone through, as many loop
    iterations with successful sends write exactly those messages to
    the stream, in the order of the calls, and leave the queue empty
    and the worker running, with no [onError] call. *)
Theorem accepted_messages_reach_the_stream (tr : list Action) (w : World)
    (snap : bool) (to : ReplicaDescriptor) (req : RaftMessageRequest)
    (reqs : list (option error * RaftMessageRequest)) (d : DialOutcome) :
  run tr NewRaftTransport = Some w →
  queue_of w snap to = None →
  same_key snap to ((None, req) :: reqs) →
  (length reqs < 100)%nat →
  processQueue_dial d = None →
  let ch := next_chan w in
  let '(w1, oks) := SendAsync_all ((None, req) :: reqs) w in
  oks = replicate (S (length reqs)) true
  ∧ ∃ w2,
      run (ActWorker ch (WDial d) :: drain ch (S (length reqs))) w1 = Some w2
      ∧ written_on ch (log w2) = req :: reqs.*2
      ∧ chans w2 ch = []
      ∧ onError_calls (log w2) = onError_calls (log w)
      ∧ workers w2 !! ch = Some (mkWorker snap to Draining)
      ∧ queue_of w2 snap to = Some ch.
Proof.
  intros Hrun Hq Hk Hlen Hd. cbv zeta.
  apply Inv_reachable in Hrun as [Hfifo Hfresh _ _ _].
  apply Forall_cons in Hk as [[Hs Ht] Hk]. simpl in Hs, Ht.
  assert (Hq' : queue_of w (isSnap req) (ToReplica req) = None)
    by (by rewrite Hs, Ht).
  cbn [SendAsync_all]. rewrite (SendAsync_miss _ _ _ Hq').
  set (w0 := spawn_worker _ _ _ _).
  assert (Hc0 : chans w0 (next_chan w) = []) by apply fn_lookup_insert.
  rewrite try_send_room by (rewrite Hc0; unfold raftSendBufferSize; simpl; lia).
  set (w1 := emit _ _).
  assert (Hq1 : queue_of w1 snap to = Some (next_chan w)).
  { change (queue_of w0 snap to = Some (next_chan w)).
    unfold w0. rewrite queue_of_spawn_worker, queue_of_with_new_queue.
    by rewrite decide_True. }
  assert (Hc1 : chans w1 (next_chan w) = [req]).
  { unfold w1; cbn [chans emit set_chan]. by rewrite fn_lookup_insert, Hc0. }
  assert (Hwr0 : written_on (next_chan w) (log w) = []).
  { pose proof (Hfifo (next_chan w)) as Hf. rewrite Hfresh in Hf by lia.
    symmetry in Hf. by apply app_eq_nil in Hf as [-> _]. }
  pose proof (SendAsync_all_hit reqs w1 _ _ _ Hq1 Hk) as Hall.
  cbv zeta in Hall. rewrite Hc1 in Hall.
  change (raftSendBufferSize - length [req])%nat with 99%nat in Hall.
  destruct (SendAsync_all reqs w1) as [w2 oks].
  destruct Hall as (-> & Hqs & Hws & _ & Hch & Hlog).
  rewrite take_ge in Hch, Hlog by (rewrite length_fmap; lia).
  split.
  { rewrite Nat.min_l by lia. replace (length reqs - 99)%nat with 0%nat by lia.
    simpl. by rewrite app_nil_r. }
  assert (Hwk2 : workers w2 !! next_chan w
                 = Some (mkWorker snap to Dialing)).
  { rewrite Hws. unfold w1, w0. simpl. rewrite lookup_insert_eq.
    by rewrite Hs, Ht. }
  set (w3 := set_phase (next_chan w) (mkWorker snap to Dialing) Draining w2).
  assert (Hstep : worker_step (next_chan w) (WDial d) w2 = Some w3).
  { unfold worker_step. by rewrite Hwk2, Hd. }
  assert (Hwk3 : workers w3 !! next_chan w = Some (mkWorker snap to Draining))
    by apply lookup_insert_eq.
  destruct (worker_drains_queue_in_order_aux w3 (next_chan w) _ Hwk3 eq_refl)
    as (w4 & Hrun4 & Hch4 & Hwr4 & _ & Hon4 & Hws4 & Hq4).
  exists w4.
  change (chans w3 (next_chan w)) with (chans w2 (next_chan w)) in *.
  rewrite Hch in Hrun4, Hwr4. simpl in Hrun4.
  rewrite length_fmap in Hrun4.
  split; [cbn [run step]; by rewrite Hstep |].
  split.
  { rewrite Hwr4. change (log w3) with (log w2). rewrite Hlog.
    unfold w1, w0. simpl.
    assert (Hwe : ∀ l rs, written_on (next_chan w)
                            (l ++ (EvEnqueue (next_chan w) <$> rs))
                          = written_on (next_chan w) l).
    { intros l rs. unfold written_on. rewrite omap_app.
      rewrite <- (app_nil_r (omap _ l)) at 2. f_equal.
      induction rs; [done | by simpl]. }
    rewrite Hwe, !written_on_snoc, Hwr0. by simpl. }
  split; [done |]. split.
  { rewrite Hon4. change (log w3) with (log w2). rewrite Hlog.
    unfold w1, w0. simpl.
    assert (Hoe : ∀ l rs, onError_calls
                            (l ++ (EvEnqueue (next_chan w) <$> rs))
                          = onError_calls l).
    { intros l rs. unfold onError_calls. rewrite omap_app.
      rewrite <- (app_nil_r (omap _ l)) at 2. f_equal.
      induction rs; [done | by simpl]. }
    by rewrite Hoe, !onError_calls_snoc, !app_nil_r. }
  split; [by rewrite Hws4 |].
  unfold queue_of in *. rewrite Hq4. change (queues w3) with (queues w2).
  by rewrite Hqs.
Qed.

Lemma accepted_messages_reach_the_stream_witness :
  let w := after idle_out in
  let req := heartbeat store2 10 in
  let reqs := [(Some stopping, heartbeat store2 11);
               (@None error, heartbeat store2 12)] in
  run idle_out NewRaftTransport = Some w
  ∧ queue_of w false store2 = None
  ∧ same_key false store2 ((None, req) :: reqs)
  ∧ (length reqs < 100)%nat
  ∧ processQueue_dial dial_ok = None
  ∧ let '(w1, oks) := SendAsync_all ((None, req) :: reqs) w in
    oks = replicate (S (length reqs)) true
    ∧ ∃ w2,
        run (ActWorker 1%nat (WDial dial_ok) :: drain 1%nat (S (length reqs)))
            w1 = Some w2
        ∧ written_on 1%nat (log w2) = req :: reqs.*2
        ∧ chans w2 1%nat = []
        ∧ onError_calls (log w2) = onError_calls (log w)
        ∧ workers w2 !! 1%nat = Some (mkWorker false store2 Draining)
        ∧ queue_of w2 false store2 = Some 1%nat.
Proof.
  intros w req reqs.
  assert (Hrun : run idle_out NewRaftTransport = Some w)
    by (vm_compute; reflexivity).
  assert (Hq : queue_of w false store2 = None) by (vm_compute; reflexivity).
  assert (Hk : same_key false store2 ((None, req) :: reqs))
    by (repeat constructor).
  assert (Hlen : (length reqs < 100)%nat) by (simpl; lia).
  split; [exact Hrun |]. split; [exact Hq |]. split; [exact Hk |].
  split; [exact Hlen |]. split; [reflexivity |].
  exact (accepted_messages_reach_the_stream idle_out w false store2 req reqs
           dial_ok Hrun Hq Hk Hlen eq_refl).
Defined.

End end_to_end.

(** ** Step by step between the lock boundaries *)

Section fine.

Lemma frun_app (t1 t2 : list FAction) (fw : FWorld) :
  frun (t1 ++ t2) fw = frun t1 fw ≫= frun t2.
Proof.
  revert fw. induction t1 as [| a t1 IH]; intros fw; simpl; [done |].
  destruct (fstep a fw); [apply IH | done].
Qed.

Lemma Inv0_init : Inv0 NewRaftTransport.
Proof.
  split; try done. intros ch. simpl. unfold raftSendBufferSize. lia.
Qed.

Lemma Inv0_silent (e : Event) (w : World) :
  silent e → Inv0 w → Inv0 (emit e w).
Proof.
  intros He [Hfifo Hfresh Htable Hinj Hbound]. split; simpl; try done.
  - intros ch. rewrite enqueued_on_silent, written_on_silent by done.
    apply Hfifo.
  - intros ch Hch. rewrite enqueued_on_silent by done. by apply Hfresh.
Qed.

(** A change of the workers or a removal from the table. *)
Lemma Inv0_frame (w w' : World) :
  log w' = log w → chans w' = chans w → next_chan w' = next_chan w →
  (∀ snap to ch, queue_of w' snap to = Some ch → queue_of w snap to = Some ch) →
  Inv0 w → Inv0 w'.
Proof.
  intros Hl Hc Hn Hq [Hfifo Hfresh Htable Hinj Hbound]. split.
  - intros ch. rewrite Hl, Hc. apply Hfifo.
  - intros ch. rewrite Hl, Hn. apply Hfresh.
  - intros snap to ch H. rewrite Hn. eapply Htable. by apply Hq.
  - intros s1 t1 s2 t2 ch H1 H2. eapply Hinj; by apply Hq.
  - intros ch. rewrite Hc. apply Hbound.
Qed.

Lemma Inv0_try_send (ch : chan) (req : RaftMessageRequest) (w : World) :
  (ch < next_chan w)%nat → Inv0 w → Inv0 (try_send ch req w).1.
Proof.
  intros Hlt Hinv. unfold try_send. case_decide; [| done].
  destruct Hinv as [Hfifo Hfresh Htable Hinj Hbound]. split; simpl; try done.
  - intros c. rewrite enqueued_on_snoc, written_on_snoc, app_nil_r.
    destruct (decide (ch = c)) as [<- | Hne].
    + by rewrite fn_lookup_insert, Hfifo, app_assoc.
    + by rewrite fn_lookup_insert_ne, app_nil_r.
  - intros c Hc. rewrite enqueued_on_snoc.
    rewrite decide_False by lia. rewrite app_nil_r. by apply Hfresh.
  - intros c. destruct (decide (ch = c)) as [<- | Hne].
    + rewrite fn_lookup_insert, length_app. simpl. lia.
    + rewrite fn_lookup_insert_ne by done. apply Hbound.
Qed.

Lemma Inv0_with_new_queue (snap : bool) (to : ReplicaDescriptor) (w : World) :
  queue_of w snap to = None →
  Inv0 w → Inv0 (with_new_queue snap to w).
Proof.
  intros Hq [Hfifo Hfresh Htable Hinj Hbound]. split.
  - intros c. simpl. destruct (decide (next_chan w = c)) as [<- | Hne].
    + rewrite fn_lookup_insert, app_nil_r.
      pose proof (Hfifo (next_chan w)) as Hf.
      rewrite Hfresh in Hf by lia. rewrite Hfresh by lia.
      symmetry in Hf. by apply app_eq_nil in Hf as [-> _].
    + rewrite fn_lookup_insert_ne by done. apply Hfifo.
  - intros c Hc. simpl in *. apply Hfresh. lia.
  - intros s t c. rewrite queue_of_with_new_queue. case_decide.
    + intros [= <-]. simpl. lia.
    + intros Hc. apply Htable in Hc. simpl. lia.
  - intros s1 t1 s2 t2 c. rewrite !queue_of_with_new_queue.
    destruct (decide (s1 = snap ∧ t1 = to)) as [[-> ->] | H1],
             (decide (s2 = snap ∧ t2 = to)) as [[-> ->] | H2]; try done.
    + intros [= <-] Hc. apply Htable in Hc. lia.
    + intros Hc [= <-]. apply Htable in Hc. lia.
    + apply Hinj.
  - intros c. simpl. destruct (decide (next_chan w = c)) as [<- | Hne].
    + rewrite fn_lookup_insert. simpl. lia.
    + rewrite fn_lookup_insert_ne by done. apply Hbound.
Qed.

Lemma Inv0_processQueue_select (ch : chan) (sel : LoopSelect)
    (w w1 : World) (flow : Flow) :
  processQueue_select ch sel w = Some (w1, flow) → Inv0 w → Inv0 w1.
Proof.
  destruct sel as [| | err | sendErr pub]; simpl; try by intros [= <- _].
  destruct (chans w ch) as [| req rest] eqn:Hbuf; [done |].
  intros Hsel Hinv.
  assert (Hinv1 : Inv0 (emit (EvStreamSend ch req sendErr)
                          (set_chan ch rest w))).
  { destruct Hinv as [Hfifo Hfresh Htable Hinj Hbound].
    split; simpl; try done.
    - intros c. rewrite enqueued_on_snoc, written_on_snoc, app_nil_r.
      destruct (decide (ch = c)) as [<- | Hne].
      + by rewrite fn_lookup_insert, Hfifo, Hbuf, <- app_assoc.
      + by rewrite fn_lookup_insert_ne, app_nil_r.
    - intros c Hc. rewrite enqueued_on_snoc, app_nil_r. by apply Hfresh.
    - intros c. destruct (decide (ch = c)) as [<- | Hne].
      + rewrite fn_lookup_insert. pose proof (Hbound ch) as Hl.
        rewrite Hbuf in Hl. simpl in Hl. lia.
      + rewrite fn_lookup_insert_ne by done. apply Hbound. }
  destruct (isSnap req), pub; injection Hsel as <- _; try done.
  by apply Inv0_silent.
Qed.

Lemma queue_of_delete_entry (ch : chan) (wk : Worker) (w : World)
    (snap : bool) (to : ReplicaDescriptor) :
  queue_of (delete_entry ch wk w) snap to
  = if decide (snap = w_isSnap wk ∧ to = w_toReplica wk) then None
    else queue_of w snap to.
Proof. apply (queue_of_worker_exit ch wk None w snap to). Qed.

Lemma FInv_init : FInv FNew.
Proof. split; [apply Inv0_init | done]. Qed.

Lemma FInv_fstep (a : FAction) (fw fw' : FWorld) :
  fstep a fw = Some fw' → FInv fw → FInv fw'.
Proof.
  intros Hstep [Hinv Hpend].
  destruct a as [sid req | sid runTask | sid | ch ev | ch | ch]; simpl in Hstep.
  - destruct (pending fw !! sid) eqn:Hsid; [done |].
    destruct (queue_of (base fw) (isSnap req) (ToReplica req)) as [ch |] eqn:Hq.
    + rewrite (lookup_or_create_hit _ _ _ Hq) in Hstep.
      injection Hstep as <-. split; [done |]. simpl.
      intros sid' p. destruct (decide (sid = sid')) as [<- | Hne].
      * rewrite lookup_insert_eq. intros [= <-]. simpl.
        by eapply (inv0_table _ Hinv).
      * rewrite lookup_insert_ne by done. apply Hpend.
    + rewrite (lookup_or_create_miss _ _ Hq) in Hstep.
      injection Hstep as <-. split; [by apply Inv0_with_new_queue |]. simpl.
      intros sid' p. destruct (decide (sid = sid')) as [<- | Hne].
      * rewrite lookup_insert_eq. intros [= <-]. simpl. lia.
      * rewrite lookup_insert_ne by done. intros Hp.
        apply Hpend in Hp. lia.
  - destruct (pending fw !! sid) as [[ch req [|]] |] eqn:Hsid; try done.
    injection Hstep as <-. pose proof (Hpend _ _ Hsid) as Hlt. simpl in Hlt.
    split.
    + destruct runTask; simpl; [by apply Inv0_silent |].
      apply Inv0_silent; [done |].
      eapply Inv0_frame; [| | | | exact Hinv]; done.
    + intros sid' p. simpl.
      assert (Hn : next_chan (spawn_worker runTask ch req (base fw))
                   = next_chan (base fw)) by (by destruct runTask).
      rewrite Hn. destruct (decide (sid = sid')) as [<- | Hne].
      * rewrite lookup_insert_eq. by intros [= <-].
      * rewrite lookup_insert_ne by done. apply Hpend.
  - destruct (pending fw !! sid) as [[ch req [|]] |] eqn:Hsid; try done.
    pose proof (Hpend _ _ Hsid) as Hlt. simpl in Hlt.
    pose proof (Inv0_try_send ch req (base fw) Hlt Hinv) as Hinv1.
    assert (Hn : next_chan (try_send ch req (base fw)).1 = next_chan (base fw))
      by (unfold try_send; by case_decide).
    destruct (try_send ch req (base fw)) as [w1 ok]. injection Hstep as <-.
    split; [done |]. simpl in *. intros sid' p Hp.
    apply lookup_delete_Some in Hp as [_ Hp]. rewrite Hn. by eapply Hpend.
  - destruct (workers (base fw) !! ch) as [wk |] eqn:Hwk; [| done].
    destruct (exiting fw !! ch); [done |].
    destruct (w_phase wk), ev as [d | sel]; try done.
    + destruct (processQueue_dial d); injection Hstep as <-; [done |].
      split; [| done]. eapply Inv0_frame; [| | | | exact Hinv]; done.
    + destruct (processQueue_select ch sel (base fw)) as [[w1 flow] |] eqn:Hsel;
        [| done].
      pose proof (Inv0_processQueue_select _ _ _ _ _ Hsel Hinv) as Hinv1.
      destruct (processQueue_select_frame _ _ _ _ _ Hsel) as (_ & _ & Hn).
      destruct flow; injection Hstep as <-; (split; [done |]); simpl;
        rewrite Hn; apply Hpend.
  - destruct (workers (base fw) !! ch) as [wk |]; [| done].
    destruct (exiting fw !! ch) as [[ret |] |]; try done.
    injection Hstep as <-. split; [by apply Inv0_silent | done].
  - destruct (workers (base fw) !! ch) as [wk |]; [| done].
    destruct (exiting fw !! ch) as [[ret |] |]; try done.
    injection Hstep as <-. split; [| done].
    eapply Inv0_frame; [| | | | exact Hinv]; try done.
    intros snap to c. cbn [base]. rewrite queue_of_delete_entry.
    by case_decide.
Qed.

Lemma FInv_frun (tr : list FAction) (fw fw' : FWorld) :
  frun tr fw = Some fw' → FInv fw → FInv fw'.
Proof.
  revert fw. induction tr as [| a tr IH]; intros fw; simpl.
  - by intros [= <-].
  - destruct (fstep a fw) as [fw1 |] eqn:Hstep; [| done].
    intros Hrun Hinv. eapply IH; [done |]. by eapply FInv_fstep.
Qed.

End fine.

Section fine_properties.

(** X19. Also when the regions of the calls of [SendAsync] and the ways
    out of the workers interleave step by step between the lock
    boundaries: what went onto a channel is what its worker wrote to
    the stream, in that order, followed by what is in its buffer; the
    written messages are a prefix of the accepted ones; and no buffer
    holds more than [raftSendBufferSize] messages. *)
Theorem fifo_between_lock_boundaries (ftr : list FAction) (fw : FWorld)
    (ch : chan) :
  frun ftr FNew = Some fw →
  enqueued_on ch (log (base fw))
  = written_on ch (log (base fw)) ++ chans (base fw) ch
  ∧ written_on ch (log (base fw)) `prefix_of` enqueued_on ch (log (base fw))
  ∧ (length (chans (base fw) ch) ≤ raftSendBufferSize)%nat.
Proof.
  intros Hrun.
  destruct (FInv_frun _ _ _ Hrun FInv_init) as [[Hfifo _ _ _ Hbound] _].
  split; [apply Hfifo |]. split; [| apply Hbound].
  rewrite (Hfifo ch). by apply prefix_app_r.
Qed.

Lemma fifo_between_lock_boundaries_witness :
  let ftr := call_SendAsync 0%nat None (heartbeat store2 1) true
             ++ [FWorker 0%nat (WDial dial_ok);
                 FWorker 0%nat (WSelect (SelQueue None PubDelivered))]
             ++ late_send 7%nat 0%nat (heartbeat store2 2) in
  let fw := default FNew (frun ftr FNew) in
  frun ftr FNew = Some fw
  ∧ enqueued_on 0%nat (log (base fw))
    = written_on 0%nat (log (base fw)) ++ chans (base fw) 0%nat
  ∧ written_on 0%nat (log (base fw))
      `prefix_of` enqueued_on 0%nat (log (base fw))
  ∧ (length (chans (base fw) 0%nat) ≤ raftSendBufferSize)%nat.
Proof.
  intros ftr fw.
  assert (Hrun : frun ftr FNew = Some fw) by (vm_compute; reflexivity).
  split; [exact Hrun |].
  exact (fifo_between_lock_boundaries ftr fw 0%nat Hrun).
Defined.

(** The three regions of a call, back to back, are [SendAsync]. *)
Lemma call_SendAsync_run (sid : nat) (runTask : option error)
    (req : RaftMessageRequest) (fw : FWorld) :
  pending fw !! sid = None →
  frun (call_SendAsync sid runTask req
          (bool_decide (queue_of (base fw) (isSnap req) (ToReplica req) = None)))
       fw
  = Some (mkFWorld (SendAsync runTask req (base fw)).1 (pending fw)
            (exiting fw)
            (<[sid := (SendAsync runTask req (base fw)).2]> (answers fw))).
Proof.
  intros Hsid. unfold call_SendAsync.
  destruct (queue_of (base fw) (isSnap req) (ToReplica req)) as [ch |] eqn:Hq.
  - rewrite bool_decide_eq_false_2 by done. simpl.
    rewrite Hsid, (lookup_or_create_hit _ _ _ Hq). simpl.
    rewrite lookup_insert_eq, (SendAsync_hit _ _ _ _ Hq).
    destruct (try_send ch req (base fw)) as [w1 ok]. simpl.
    by rewrite delete_insert_eq, delete_id.
  - rewrite bool_decide_eq_true_2 by done. simpl.
    rewrite Hsid, (lookup_or_create_miss _ _ Hq). simpl.
    rewrite lookup_insert_eq. simpl. rewrite lookup_insert_eq.
    rewrite (SendAsync_miss _ _ _ Hq).
    destruct (try_send _ req _) as [w1 ok]. simpl.
    by rewrite insert_insert_eq, delete_insert_eq, delete_id.
Qed.

(** A step of a worker, followed by its way out if [processQueue]
    returned, is the atomic step. *)
Lemma worker_step_run (ch : chan) (ev : WorkerEvent) (w' : World)
    (fw : FWorld) :
  worker_step ch ev (base fw) = Some w' →
  exiting fw !! ch = None →
  ∃ more,
    (more = [] ∨ more = leave ch)
    ∧ frun (FWorker ch ev :: more) fw
      = Some (mkFWorld w' (pending fw) (exiting fw) (answers fw)).
Proof.
  intros Hstep Hex. unfold worker_step in Hstep. simpl.
  destruct (workers (base fw) !! ch) as [wk |] eqn:Hwk; [| done].
  rewrite Hex.
  destruct (w_phase wk), ev as [d | sel]; try done.
  - destruct (processQueue_dial d) as [err |]; injection Hstep as <-.
    + exists (leave ch). split; [by right |]. simpl.
      rewrite Hwk, lookup_insert_eq. simpl. rewrite Hwk, lookup_insert_eq.
      by rewrite insert_insert_eq, delete_insert_eq, delete_id.
    + exists []. split; [by left | done].
  - destruct (processQueue_select ch sel (base fw)) as [[w1 flow] |] eqn:Hsel;
      [| done].
    destruct (processQueue_select_frame _ _ _ _ _ Hsel) as (_ & Hws & _).
    destruct flow as [| ret]; injection Hstep as <-.
    + exists []. split; [by left | done].
    + exists (leave ch). split; [by right |]. simpl.
      rewrite Hws, Hwk, lookup_insert_eq. simpl.
      rewrite Hws, Hwk, lookup_insert_eq.
      by rewrite insert_insert_eq, delete_insert_eq, delete_id.
Qed.

Lemma step_is_frun (a : Action) (w' : World) (fw : FWorld) :
  step a (base fw) = Some w' → quiet fw →
  ∃ ftr fw', frun ftr fw = Some fw' ∧ base fw' = w' ∧ quiet fw'.
Proof.
  intros Hstep [Hp He]. destruct a as [runTask req | ch ev]; simpl in Hstep.
  - injection Hstep as <-.
    eexists _, _. split; [apply (call_SendAsync_run 0%nat) |].
    + by rewrite Hp.
    + by split.
  - destruct (worker_step_run ch ev w' fw Hstep) as (more & _ & Hrun).
    + by rewrite He.
    + eexists _, _. split; [exact Hrun |]. by split.
Qed.

End fine_properties.

(** ** The message accepted too late *)

Section race.

Lemma fdead_fstep (ch : chan) (a : FAction) (fw fw' : FWorld) :
  FInv fw → fdead ch fw →
  fstep a fw = Some fw' →
  fdead ch fw' ∧ untouched ch (base fw) (base fw').
Proof.
  intros [[_ _ Htable _ _] Hpend] [(Hlt & Hws & Hq) Hp] Hstep.
  destruct a as [sid req | sid runTask | sid | c ev | c | c]; simpl in Hstep.
  - destruct (pending fw !! sid) eqn:Hsid; [done |].
    destruct (queue_of (base fw) (isSnap req) (ToReplica req)) as [c |] eqn:Hqr.
    + rewrite (lookup_or_create_hit _ _ _ Hqr) in Hstep.
      injection Hstep as <-. split; [| by repeat split].
      split; [done |]. simpl. intros sid' p.
      destruct (decide (sid = sid')) as [<- | Hne].
      * rewrite lookup_insert_eq. intros [= <-]. simpl.
        intros ->. by eapply Hq.
      * rewrite lookup_insert_ne by done. apply Hp.
    + rewrite (lookup_or_create_miss _ _ Hqr) in Hstep.
      injection Hstep as <-.
      assert (Hne : ch ≠ next_chan (base fw)) by lia.
      split; [split |].
      * split; [simpl; lia |]. split; [done |].
        intros snap to. simpl. rewrite queue_of_with_new_queue.
        case_decide; [congruence | apply Hq].
      * simpl. intros sid' p.
        destruct (decide (sid = sid')) as [<- | Hns].
        -- rewrite lookup_insert_eq. by intros [= <-].
        -- rewrite lookup_insert_ne by done. apply Hp.
      * repeat split; simpl. by rewrite fn_lookup_insert_ne.
  - destruct (pending fw !! sid) as [[c req [|]] |] eqn:Hsid; try done.
    injection Hstep as <-. pose proof (Hp _ _ Hsid) as Hne. simpl in Hne.
    split; [split |].
    + split; [by destruct runTask |]. split.
      * destruct runTask; simpl; [done |]. by rewrite lookup_insert_ne.
      * intros snap to. simpl. rewrite queue_of_spawn_worker. apply Hq.
    + simpl. intros sid' p.
      destruct (decide (sid = sid')) as [<- | Hns].
      * rewrite lookup_insert_eq. by intros [= <-].
      * rewrite lookup_insert_ne by done. apply Hp.
    + destruct runTask; repeat split; simpl;
        rewrite ?enqueued_on_snoc, ?written_on_snoc; by rewrite ?app_nil_r.
  - destruct (pending fw !! sid) as [[c req [|]] |] eqn:Hsid; try done.
    pose proof (Hp _ _ Hsid) as Hne. simpl in Hne.
    pose proof (untouched_try_send ch c req (base fw) (not_eq_sym Hne)) as Hu.
    assert (Hd : dead_chan ch (try_send c req (base fw)).1)
      by (unfold try_send; by case_decide).
    destruct (try_send c req (base fw)) as [w1 ok]. injection Hstep as <-.
    split; [| done]. split; [done |]. simpl. intros sid' p Hsid'.
    apply lookup_delete_Some in Hsid' as [_ Hsid']. by eapply Hp.
  - destruct (workers (base fw) !! c) as [wk |] eqn:Hwk; [| done].
    assert (Hne : ch ≠ c) by congruence.
    destruct (exiting fw !! c); [done |].
    destruct (w_phase wk), ev as [d | sel]; try done.
    + destruct (processQueue_dial d); injection Hstep as <-.
      * split; [by split | by repeat split].
      * split; [| by repeat split]. split; [| done].
        split; [done |]. split; [| done]. simpl. by rewrite lookup_insert_ne.
    + destruct (processQueue_select c sel (base fw)) as [[w1 flow] |] eqn:Hsel;
        [| done].
      destruct (processQueue_select_frame _ _ _ _ _ Hsel) as (Hqs & Hws1 & Hn).
      pose proof (untouched_processQueue_select _ _ _ _ _ _ Hne Hsel) as Hu.
      assert (Hd : dead_chan ch w1).
      { split; [lia |]. split; [by rewrite Hws1 |].
        intros snap to. unfold queue_of. rewrite Hqs. apply Hq. }
      destruct flow; injection Hstep as <-; by split.
  - destruct (workers (base fw) !! c) as [wk |]; [| done].
    destruct (exiting fw !! c) as [[ret |] |]; try done.
    injection Hstep as <-. split; [by split |].
    repeat split; simpl;
      rewrite ?enqueued_on_snoc, ?written_on_snoc; by rewrite ?app_nil_r.
  - destruct (workers (base fw) !! c) as [wk |] eqn:Hwk; [| done].
    assert (Hne : ch ≠ c) by congruence.
    destruct (exiting fw !! c) as [[ret |] |]; try done.
    injection Hstep as <-. split; [| by repeat split].
    split; [| done]. split; [done |]. split.
    + simpl. by rewrite lookup_delete_ne.
    + intros snap to. cbn [base]. rewrite queue_of_delete_entry.
      case_decide; [done | apply Hq].
Qed.

Lemma fdead_frun (ch : chan) (tr : list FAction) (fw fw' : FWorld) :
  FInv fw → fdead ch fw →
  frun tr fw = Some fw' →
  fdead ch fw' ∧ untouched ch (base fw) (base fw').
Proof.
  revert fw. induction tr as [| a tr IH]; intros fw Hinv Hd; simpl.
  - intros [= <-]. split; [done | apply untouched_refl].
  - destruct (fstep a fw) as [fw1 |] eqn:Hstep; [| done].
    intros Hrun.
    destruct (fdead_fstep _ _ _ _ Hinv Hd Hstep) as [Hd1 Hu1].
    destruct (IH fw1 (FInv_fstep _ _ _ Hstep Hinv) Hd1 Hrun) as [Hd' Hu'].
    split; [done |]. by eapply untouched_trans.
Qed.

(** X21. A message can be accepted and lost though nothing fails. A
    caller looks up the channel of a running worker; the worker then
    idles out, calls [onError] with a nil error and deletes its entry;
    only then does the caller enqueue. The call returns true, the
    message sits in the buffer of a channel that no worker drains and
    that the table no longer holds, and whatever follows it stays there
    and is never written to a stream. *)
Theorem late_send_is_accepted_and_lost (ftr0 : list FAction) (fw : FWorld)
    (sid : nat) (ch : chan) (wk : Worker) (req : RaftMessageRequest) :
  frun ftr0 FNew = Some fw →
  workers (base fw) !! ch = Some wk →
  w_phase wk = Draining →
  exiting fw !! ch = None →
  queue_of (base fw) (isSnap req) (ToReplica req) = Some ch →
  isSnap req = w_isSnap wk →
  ToReplica req = w_toReplica wk →
  pending fw !! sid = None →
  (∀ sid' p, pending fw !! sid' = Some p → p_ch p ≠ ch) →
  (length (chans (base fw) ch) < raftSendBufferSize)%nat →
  ∃ fw1,
    frun (late_send sid ch req) fw = Some fw1
    ∧ answers fw1 !! sid = Some true
    ∧ chans (base fw1) ch = chans (base fw) ch ++ [req]
    ∧ onError_calls (log (base fw1))
      = onError_calls (log (base fw)) ++ [(None, w_toReplica wk)]
    ∧ queue_of (base fw1) (isSnap req) (ToReplica req) = None
    ∧ workers (base fw1) !! ch = None
    ∧ ∀ ftr fw2,
        frun ftr fw1 = Some fw2 →
        chans (base fw2) ch = chans (base fw) ch ++ [req]
        ∧ written_on ch (log (base fw2)) = written_on ch (log (base fw)).
Proof.
  intros Hrun0 Hwk Hp Hex Hq Hs Ht Hsid Hpend Hroom.
  pose proof (FInv_frun _ _ _ Hrun0 FInv_init) as Hinv.
  destruct Hinv as [Hinv0 Hpb]. pose proof Hinv0 as [_ _ Htable Hinj _].
  pose proof (Htable _ _ _ Hq) as Hlt.
  set (w := base fw) in *.
  set (w1 := emit (EvOnError None (w_toReplica wk)) w).
  set (w2 := delete_entry ch wk w1).
  set (w3 := emit (EvEnqueue ch req) (set_chan ch (chans w ch ++ [req]) w2)).
  set (fw1 := mkFWorld w3 (pending fw) (exiting fw)
                (<[sid := true]> (answers fw))).
  assert (Hlate : frun (late_send sid ch req) fw = Some fw1).
  { unfold late_send. cbn [frun fstep].
    rewrite Hsid. fold w. rewrite (lookup_or_create_hit _ _ _ Hq).
    cbn [base exiting pending answers]. rewrite Hwk, Hex, Hp.
    cbn [processQueue_select base exiting pending answers].
    repeat first
      [ rewrite Hwk | rewrite lookup_insert_eq
      | progress cbn [base exiting pending answers workers emit] ].
    fold w1. fold w2. unfold try_send.
    change (chans w2 ch) with (chans w ch).
    rewrite decide_True by done. unfold fw1, w3.
    by rewrite !insert_insert_eq, !delete_insert_eq, !delete_id. }
  assert (Hq3 : ∀ snap to, queue_of w3 snap to ≠ Some ch).
  { intros snap to. change (queue_of w3 snap to)
      with (queue_of (delete_entry ch wk w) snap to).
    rewrite queue_of_delete_entry. case_decide as Hk; [done |].
    intros Hc. apply Hk. rewrite <- Hs, <- Ht. by eapply Hinj. }
  assert (Hinv1 : FInv fw1) by (by eapply FInv_frun; [exact Hlate |]).
  assert (Hdead : fdead ch fw1).
  { split; [| done]. split; [done |]. split; [| done].
    simpl. apply lookup_delete_eq. }
  exists fw1. split; [done |]. split; [apply lookup_insert_eq |].
  split; [apply fn_lookup_insert |].
  split; [simpl; by rewrite !onError_calls_snoc, app_nil_r |].
  split.
  { change (queue_of (delete_entry ch wk w) (isSnap req) (ToReplica req) = None).
    rewrite queue_of_delete_entry. by rewrite decide_True. }
  split; [simpl; apply lookup_delete_eq |].
  intros ftr fw2 Hrun2.
  destruct (fdead_frun _ _ _ _ Hinv1 Hdead Hrun2) as [_ (Hc & _ & Hwr)].
  rewrite Hc, Hwr. split; [apply fn_lookup_insert |].
  simpl. by rewrite !written_on_snoc, !app_nil_r.
Qed.

Lemma late_send_is_accepted_and_lost_witness :
  let ftr0 := call_SendAsync 0%nat None (heartbeat store2 1) true
              ++ [FWorker 0%nat (WDial dial_ok);
                  FWorker 0%nat (WSelect (SelQueue None PubDelivered))] in
  let fw := default FNew (frun ftr0 FNew) in
  let wk := mkWorker false store2 Draining in
  let req := heartbeat store2 2 in
  frun ftr0 FNew = Some fw
  ∧ workers (base fw) !! 0%nat = Some wk
  ∧ w_phase wk = Draining
  ∧ exiting fw !! 0%nat = None
  ∧ queue_of (base fw) (isSnap req) (ToReplica req) = Some 0%nat
  ∧ isSnap req = w_isSnap wk
  ∧ ToReplica req = w_toReplica wk
  ∧ pending fw !! 7%nat = None
  ∧ (∀ sid' p, pending fw !! sid' = Some p → p_ch p ≠ 0%nat)
  ∧ (length (chans (base fw) 0%nat) < raftSendBufferSize)%nat
  ∧ ∃ fw1,
      frun (late_send 7%nat 0%nat req) fw = Some fw1
      ∧ answers fw1 !! 7%nat = Some true
      ∧ chans (base fw1) 0%nat = chans (base fw) 0%nat ++ [req]
      ∧ onError_calls (log (base fw1))
        = onError_calls (log (base fw)) ++ [(None, store2)]
      ∧ queue_of (base fw1) (isSnap req) (ToReplica req) = None
      ∧ workers (base fw1) !! 0%nat = None
      ∧ ∀ ftr fw2,
          frun ftr fw1 = Some fw2 →
          chans (base fw2) 0%nat = chans (base fw) 0%nat ++ [req]
          ∧ written_on 0%nat (log (base fw2))
            = written_on 0%nat (log (base fw)).
Proof.
  intros ftr0 fw wk req.
  assert (Hrun : frun ftr0 FNew = Some fw) by (vm_compute; reflexivity).
  assert (Hwk : workers (base fw) !! 0%nat = Some wk)
    by (vm_compute; reflexivity).
  assert (Hex : exiting fw !! 0%nat = None) by (vm_compute; reflexivity).
  assert (Hq : queue_of (base fw) (isSnap req) (ToReplica req) = Some 0%nat)
    by (vm_compute; reflexivity).
  assert (Hsid : pending fw !! 7%nat = None) by (vm_compute; reflexivity).
  assert (Hpend : ∀ sid' p, pending fw !! sid' = Some p → p_ch p ≠ 0%nat).
  { intros sid' p Hp. assert (Hempty : pending fw = ∅)
      by (vm_compute; reflexivity).
    rewrite Hempty in Hp. by rewrite lookup_empty in Hp. }
  assert (Hroom : (length (chans (base fw) 0%nat) < raftSendBufferSize)%nat)
    by (vm_compute; lia).
  split; [exact Hrun |]. split; [exact Hwk |]. split; [reflexivity |].
  split; [exact Hex |]. split; [exact Hq |]. split; [reflexivity |].
  split; [reflexivity |]. split; [exact Hsid |]. split; [exact Hpend |].
  split; [exact Hroom |].
  exact (late_send_is_accepted_and_lost ftr0 fw 7%nat 0%nat wk req
           Hrun Hwk eq_refl Hex Hq eq_refl eq_refl Hsid Hpend Hroom).
Defined.

End race.

(** ** One worker per key, step by step *)

Section one_worker.

Lemma FInv2_init : FInv2 FNew.
Proof. by split. Qed.

Lemma FInv2_fstep (a : FAction) (fw fw' : FWorld) :
  fstep a fw = Some fw' → FInv fw → FInv2 fw → FInv2 fw'.
Proof.
  intros Hstep [[_ _ Htable Hinj _] Hpb] [Hworkers Hspawn Huniq].
  destruct a as [sid req | sid runTask | sid | ch ev | ch | ch]; simpl in Hstep.
  - destruct (pending fw !! sid) eqn:Hsid; [done |].
    destruct (queue_of (base fw) (isSnap req) (ToReplica req)) as [ch |] eqn:Hq.
    + rewrite (lookup_or_create_hit _ _ _ Hq) in Hstep.
      injection Hstep as <-. split; simpl; [done | |].
      * intros sid' p. destruct (decide (sid = sid')) as [<- | Hne].
        -- rewrite lookup_insert_eq. by intros [= <-].
        -- rewrite lookup_insert_ne by done. apply Hspawn.
      * intros sid1 sid2 p1 p2.
        destruct (decide (sid = sid1)) as [<- | Hn1];
          [rewrite lookup_insert_eq; by intros [= <-] |].
        destruct (decide (sid = sid2)) as [<- | Hn2];
          [rewrite lookup_insert_eq; by intros _ [= <-] |].
        rewrite !lookup_insert_ne by done. apply Huniq.
    + rewrite (lookup_or_create_miss _ _ Hq) in Hstep.
      injection Hstep as <-.
      assert (Hnone : workers (base fw) !! next_chan (base fw) = None).
      { destruct (workers (base fw) !! next_chan (base fw)) as [wk |] eqn:Hwk;
          [| done].
        pose proof (Htable _ _ _ (Hworkers _ _ Hwk)). lia. }
      split; simpl.
      * intros c wk Hwk. rewrite queue_of_with_new_queue.
        pose proof (Hworkers _ _ Hwk) as Hc.
        rewrite decide_False; [done |]. intros [Hs Ht].
        rewrite Hs, Ht in Hc. congruence.
      * intros sid' p. destruct (decide (sid = sid')) as [<- | Hne].
        -- rewrite lookup_insert_eq. intros [= <-] _. simpl.
           rewrite queue_of_with_new_queue. by rewrite decide_True.
        -- rewrite lookup_insert_ne by done. intros Hp Hst.
           destruct (Hspawn _ _ Hp Hst) as [Hqp Hwp]. split; [| done].
           rewrite queue_of_with_new_queue.
           rewrite decide_False; [done |]. intros [Hs Ht].
           rewrite Hs, Ht in Hqp. congruence.
      * intros sid1 sid2 p1 p2.
        destruct (decide (sid = sid1)) as [<- | Hn1],
                 (decide (sid = sid2)) as [<- | Hn2]; try done.
        -- rewrite lookup_insert_eq, lookup_insert_ne by done.
           intros [= <-] Hp2 _ _ Heq. simpl in Heq.
           pose proof (Hpb _ _ Hp2). lia.
        -- rewrite lookup_insert_eq, lookup_insert_ne by done.
           intros Hp1 [= <-] _ _ Heq. simpl in Heq.
           pose proof (Hpb _ _ Hp1). lia.
        -- rewrite !lookup_insert_ne by done. apply Huniq.
  - destruct (pending fw !! sid) as [[ch req [|]] |] eqn:Hsid; try done.
    injection Hstep as <-.
    destruct (Hspawn _ _ Hsid eq_refl) as [Hqp Hwp]. simpl in Hqp, Hwp.
    split; simpl.
    + intros c wk. rewrite queue_of_spawn_worker.
      destruct runTask; simpl; [apply Hworkers |].
      destruct (decide (c = ch)) as [-> | Hne].
      * rewrite lookup_insert_eq. by intros [= <-].
      * rewrite lookup_insert_ne by done. apply Hworkers.
    + intros sid' p. destruct (decide (sid = sid')) as [<- | Hne].
      * rewrite lookup_insert_eq. by intros [= <-].
      * rewrite lookup_insert_ne by done. intros Hp Hst.
        destruct (Hspawn _ _ Hp Hst) as [Hqp' Hwp'].
        rewrite queue_of_spawn_worker. split; [done |].
        destruct runTask; simpl; [done |].
        rewrite lookup_insert_ne; [done |]. intros Heq.
        apply Hne. by eapply (Huniq sid sid' _ p Hsid Hp).
    + intros sid1 sid2 p1 p2.
      destruct (decide (sid = sid1)) as [<- | Hn1];
        [rewrite lookup_insert_eq; by intros [= <-] |].
      destruct (decide (sid = sid2)) as [<- | Hn2];
        [rewrite lookup_insert_eq; by intros _ [= <-] |].
      rewrite !lookup_insert_ne by done. apply Huniq.
  - destruct (pending fw !! sid) as [[ch req [|]] |] eqn:Hsid; try done.
    assert (Hfr : queues (try_send ch req (base fw)).1 = queues (base fw)
                  ∧ workers (try_send ch req (base fw)).1 = workers (base fw))
      by (unfold try_send; by case_decide).
    destruct (try_send ch req (base fw)) as [w1 ok]. injection Hstep as <-.
    destruct Hfr as [Hqs Hws]. simpl in Hqs, Hws.
    assert (Hqo : ∀ s t, queue_of w1 s t = queue_of (base fw) s t)
      by (intros; unfold queue_of; by rewrite Hqs).
    split; simpl.
    + intros c wk. rewrite Hqo, Hws. apply Hworkers.
    + intros sid' p Hp. apply lookup_delete_Some in Hp as [_ Hp].
      rewrite Hqo, Hws. by eapply Hspawn.
    + intros sid1 sid2 p1 p2 H1 H2.
      apply lookup_delete_Some in H1 as [_ H1].
      apply lookup_delete_Some in H2 as [_ H2]. by eapply Huniq.
  - destruct (workers (base fw) !! ch) as [wk |] eqn:Hwk; [| done].
    destruct (exiting fw !! ch); [done |].
    destruct (w_phase wk), ev as [d | sel]; try done.
    + destruct (processQueue_dial d); injection Hstep as <-; [done |].
      split; simpl; [| | done].
      * intros c wk'. destruct (decide (c = ch)) as [-> | Hne].
        -- rewrite lookup_insert_eq. intros [= <-]. simpl. by apply Hworkers.
        -- rewrite lookup_insert_ne by done. apply Hworkers.
      * intros sid' p Hp Hst. destruct (Hspawn _ _ Hp Hst) as [Hqp Hwp].
        split; [done |]. rewrite lookup_insert_ne; [done | congruence].
    + destruct (processQueue_select ch sel (base fw)) as [[w1 flow] |] eqn:Hsel;
        [| done].
      destruct (processQueue_select_frame _ _ _ _ _ Hsel) as (Hqs & Hws & _).
      assert (Hqo : ∀ s t, queue_of w1 s t = queue_of (base fw) s t)
        by (intros; unfold queue_of; by rewrite Hqs).
      destruct flow; injection Hstep as <-; split; simpl; try done.
      all: try (intros c wk'; rewrite Hqo, Hws; apply Hworkers).
      all: intros sid' p Hp Hst; rewrite Hqo, Hws; by eapply Hspawn.
  - destruct (workers (base fw) !! ch) as [wk |]; [| done].
    destruct (exiting fw !! ch) as [[ret |] |]; try done.
    by injection Hstep as <-.
  - destruct (workers (base fw) !! ch) as [wk |] eqn:Hwk; [| done].
    destruct (exiting fw !! ch) as [[ret |] |]; try done.
    injection Hstep as <-. pose proof (Hworkers _ _ Hwk) as Hqk.
    split; cbn [base pending].
    + intros c wk' Hc. simpl in Hc.
      apply lookup_delete_Some in Hc as [Hne Hc].
      rewrite queue_of_delete_entry. pose proof (Hworkers _ _ Hc) as Hqc.
      rewrite decide_False; [done |]. intros [Hs Ht].
      rewrite Hs, Ht in Hqc. congruence.
    + intros sid' p Hp Hst. destruct (Hspawn _ _ Hp Hst) as [Hqp Hwp].
      rewrite queue_of_delete_entry. split.
      * rewrite decide_False; [done |]. intros [Hs Ht].
        rewrite Hs, Ht in Hqp. congruence.
      * simpl. destruct (decide (ch = p_ch p)) as [<- | Hne];
          [apply lookup_delete_eq | by rewrite lookup_delete_ne].
    + apply Huniq.
Qed.

Lemma FInv2_frun (tr : list FAction) (fw fw' : FWorld) :
  frun tr fw = Some fw' → FInv fw → FInv2 fw → FInv2 fw'.
Proof.
  revert fw. induction tr as [| a tr IH]; intros fw; simpl.
  - by intros [= <-].
  - destruct (fstep a fw) as [fw1 |] eqn:Hstep; [| done].
    intros Hrun Hinv Hinv2.
    eapply IH; [done | by eapply FInv_fstep | by eapply FInv2_fstep].
Qed.

(** X22. Also step by step between the lock boundaries, however the
    calls for a cold destination race: two workers with the same class
    and destination that have not yet deleted their entry are one and
    the same, the channel such a worker drains is the one the table
    holds for its key, and two entries for different keys hold
    different channels. *)
Theorem one_worker_per_key_between_lock_boundaries (ftr : list FAction)
    (fw : FWorld) (c1 c2 : chan) (wk1 wk2 : Worker) :
  frun ftr FNew = Some fw →
  workers (base fw) !! c1 = Some wk1 →
  workers (base fw) !! c2 = Some wk2 →
  w_isSnap wk1 = w_isSnap wk2 →
  w_toReplica wk1 = w_toReplica wk2 →
  c1 = c2 ∧ wk1 = wk2
  ∧ queue_of (base fw) (w_isSnap wk1) (w_toReplica wk1) = Some c1
  ∧ ∀ s1 t1 s2 t2 ch,
      queue_of (base fw) s1 t1 = Some ch →
      queue_of (base fw) s2 t2 = Some ch → s1 = s2 ∧ t1 = t2.
Proof.
  intros Hrun H1 H2 Hs Ht.
  pose proof (FInv_frun _ _ _ Hrun FInv_init) as Hinv.
  destruct (FInv2_frun _ _ _ Hrun FInv_init FInv2_init) as [Hworkers _ _].
  pose proof (Hworkers _ _ H1) as Hq1. pose proof (Hworkers _ _ H2) as Hq2.
  rewrite <- Hs, <- Ht in Hq2.
  assert (c1 = c2) as -> by congruence.
  split; [done |]. split; [congruence |]. split; [done |].
  by destruct Hinv as [[_ _ _ Hinj _] _].
Qed.

Lemma one_worker_per_key_between_lock_boundaries_witness :
  let fw := default FNew (frun cold_race FNew) in
  let wk := mkWorker false store2 Draining in
  frun cold_race FNew = Some fw
  ∧ workers (base fw) !! 0%nat = Some wk
  ∧ w_isSnap wk = w_isSnap wk
  ∧ w_toReplica wk = w_toReplica wk
  ∧ 0%nat = 0%nat ∧ wk = wk
  ∧ queue_of (base fw) false store2 = Some 0%nat
  ∧ ∀ s1 t1 s2 t2 ch,
      queue_of (base fw) s1 t1 = Some ch →
      queue_of (base fw) s2 t2 = Some ch → s1 = s2 ∧ t1 = t2.
Proof.
  intros fw wk.
  assert (Hrun : frun cold_race FNew = Some fw) by (vm_compute; reflexivity).
  assert (Hwk : workers (base fw) !! 0%nat = Some wk)
    by (vm_compute; reflexivity).
  split; [exact Hrun |]. split; [exact Hwk |].
  split; [reflexivity |]. split; [reflexivity |].
  exact (one_worker_per_key_between_lock_boundaries cold_race fw 0%nat 0%nat
           wk wk Hrun Hwk Hwk eq_refl eq_refl).
Defined.

End one_worker.

(** ** The inbound session, call by call *)

Section session.
Import Registry Inbound Session.

Lemma srun_app (a1 a2 : list SAction) (st : State) :
  srun (a1 ++ a2) st = st1 ← srun a1 st; srun a2 st1.
Proof.
  revert st. induction a1 as [| a a1 IH]; intros st; simpl; [done |].
  by destruct (sstep a st).
Qed.

Lemma reads_snoc (calls : list Call) (c : Call) :
  reads (calls ++ [c])
  = reads calls ++ match c with CallRecv r => [r] | _ => [] end.
Proof. unfold reads. rewrite omap_app. by destruct c. Qed.

Lemma handled_snoc (calls : list Call) (c : Call) :
  handled (calls ++ [c])
  = handled calls ++ match c with CallHandler req _ => [req] | _ => [] end.
Proof. unfold handled. rewrite omap_app. by destruct c. Qed.

Lemma replies_snoc (calls : list Call) (c : Call) :
  replies (calls ++ [c])
  = replies calls
    ++ match c with CallSendAndClose resp _ => [SendAndClose resp] | _ => [] end.
Proof. unfold replies. rewrite omap_app. by destruct c. Qed.


(** The turns of the reader's loop write no reply and leave what
    [RaftMessage] returned alone. *)
Lemma sstep_SRecv (r : RaftMessageRequest + error) (st st' : State) :
  sstep (SRecv r) st = Some st' →
  s_reader st = InLoop
  ∧ s_result st' = s_result st
  ∧ s_handlers st' = s_handlers st
  ∧ replies (s_calls st') = replies (s_calls st)
  ∧ reads (s_calls st') = reads (s_calls st) ++ [r]
  ∧ ∃ more, s_calls st' = s_calls st ++ more.
Proof.
  unfold sstep. destruct (s_reader st); try done.
  destruct r as [req | err].
  - destruct (s_handlers st !! StoreID_ (ToReplica req)) as [handler |].
    + destruct (handler req) as [err |]; intros [= <-]; simpl;
        rewrite !replies_snoc, !reads_snoc, !app_nil_r, <- app_assoc;
        repeat split; by eexists.
    + intros [= <-]; simpl. rewrite replies_snoc, reads_snoc, app_nil_r.
      repeat split; by eexists.
  - intros [= <-]; simpl. rewrite replies_snoc, reads_snoc, app_nil_r.
    repeat split; by eexists.
Qed.




(** When [RunTask] refused, nothing happens on the session any more. *)
Lemma srun_refused (acts : list SAction) (st st' : State)
    (ret : option error) :
  srun acts st = Some st' →
  s_reader st = NotStarted →
  s_result st = Some ret →
  s_calls st' = s_calls st ∧ s_result st' = Some ret.
Proof.
  revert st. induction acts as [| a acts IH]; intros st; simpl.
  - by intros [= <-].
  - destruct (sstep a st) as [st1 |] eqn:Hstep; [| done].
    intros Hrun Hrd Hret.
    destruct a as [r | s h | s | | sc]; simpl in Hstep.
    + by rewrite Hrd in Hstep.
    + injection Hstep as <-. by apply (IH _ Hrun).
    + injection Hstep as <-. by apply (IH _ Hrun).
    + by rewrite Hret in Hstep.
    + by rewrite Hret in Hstep.
Qed.

(** A reader that has returned makes no call any more; its error stays
    on [errCh] until the [select] takes it. *)
Lemma srun_ended (acts : list SAction) (st st' : State) (err : error) :
  srun acts st = Some st' →
  s_reader st = Ended →
  s_errCh st = Some err ∨ s_result st = Some (Some err) →
  s_reader st' = Ended
  ∧ (s_errCh st' = Some err ∨ s_result st' = Some (Some err))
  ∧ reads (s_calls st') = reads (s_calls st)
  ∧ handled (s_calls st') = handled (s_calls st)
  ∧ recvs acts = [].
Proof.
  revert st. induction acts as [| a acts IH]; intros st; simpl.
  - by intros [= <-].
  - destruct (sstep a st) as [st1 |] eqn:Hstep; [| done].
    intros Hrun Hrd Herr.
    destruct a as [r | s h | s | | sc]; simpl in Hstep.
    + by rewrite Hrd in Hstep.
    + injection Hstep as <-. by apply (IH _ Hrun).
    + injection Hstep as <-. by apply (IH _ Hrun).
    + destruct (s_result st) eqn:Hres; [done |].
      destruct (s_errCh st) as [e |] eqn:Hch; [| done].
      injection Hstep as <-.
      destruct Herr as [[= ->] | ?]; [| done].
      apply (IH _ Hrun); [done | by right].
    + destruct (s_result st) eqn:Hres; [done |].
      injection Hstep as <-.
      destruct Herr as [Hch | ?]; [| done].
      destruct (IH _ Hrun Hrd (or_introl Hch)) as (? & ? & Hr & Hh & ?).
      simpl in Hr, Hh.
      rewrite reads_snoc, app_nil_r in Hr.
      rewrite handled_snoc, app_nil_r in Hh. done.
Qed.

(** The reader of the session is the loop [recvLoop], run on what the
    steps bring. *)
Lemma reader_agrees (acts : list SAction) (st st' : State) :
  srun acts st = Some st' →
  s_reader st = InLoop →
  s_errCh st = None →
  match recvLoop (to_events acts) (s_handlers st) with
  | Reading hs' =>
      s_reader st' = InLoop ∧ s_handlers st' = hs' ∧ s_errCh st' = None
  | Returned err =>
      s_reader st' = Ended
      ∧ (s_errCh st' = Some err ∨ s_result st' = Some (Some err))
  end.
Proof.
  revert st. induction acts as [| a acts IH]; intros st; simpl.
  - by intros [= <-].
  - destruct (sstep a st) as [st1 |] eqn:Hstep; [| done].
    intros Hrun Hrd Hch.
    destruct a as [r | s h | s | | sc]; simpl in Hstep.
    + rewrite Hrd in Hstep. destruct r as [req | err]; cbn [recvLoop].
      * destruct (s_handlers st !! StoreID_ (ToReplica req)) as [handler |].
        -- destruct (handler req) as [err |]; injection Hstep as <-.
           ++ by destruct (srun_ended _ _ _ err Hrun eq_refl (or_introl eq_refl))
                as (? & ? & _).
           ++ by apply (IH _ Hrun).
        -- injection Hstep as <-.
           by destruct (srun_ended _ _ _ _ Hrun eq_refl (or_introl eq_refl))
             as (? & ? & _).
      * injection Hstep as <-.
        by destruct (srun_ended _ _ _ err Hrun eq_refl (or_introl eq_refl))
          as (? & ? & _).
    + injection Hstep as <-. by apply (IH _ Hrun).
    + injection Hstep as <-. by apply (IH _ Hrun).
    + rewrite Hch in Hstep. by destruct (s_result st).
    + destruct (s_result st); [done |]. injection Hstep as <-.
      by apply (IH _ Hrun).
Qed.

Lemma to_events_app (a1 a2 : list SAction) :
  to_events (a1 ++ a2) = to_events a1 ++ to_events a2.
Proof. apply omap_app. Qed.

(** Run step by step, a session returns what [Inbound.RaftMessage]
    returns, and has written the replies it gives. *)
Lemma session_returns_RaftMessage (runTask : option error) (hs : handlers)
    (acts : list SAction) (st : State) (ret : option error) :
  srun acts (RaftMessage_start runTask hs) = Some st →
  s_result st = Some ret →
  ∃ sel sendAndClose,
    RaftMessage runTask (to_events acts) hs sel sendAndClose
    = Some (ret, replies (s_calls st)).
Proof.
  destruct runTask as [err |].
  - intros Hrun Hret.
    destruct (srun_refused _ _ _ _ Hrun eq_refl eq_refl) as [Hc Hr].
    rewrite Hc. simpl in *. rewrite Hr in Hret. injection Hret as <-.
    by exists SelectErrCh, None.
  - assert (Hgen : srun acts (RaftMessage_start None hs) = Some st →
              match s_result st with
              | None => replies (s_calls st) = []
              | Some ret =>
                  replies (s_calls st) = [SendAndClose mkResponse]
                  ∨ (replies (s_calls st) = []
                     ∧ ∃ err, ret = Some err
                         ∧ recvLoop (to_events acts) hs = Returned err)
              end).
    { revert st. induction acts as [| a acts IH] using rev_ind; intros st.
      - by intros [= <-].
      - rewrite srun_app.
        destruct (srun acts (RaftMessage_start None hs)) as [st0 |] eqn:Hrun0;
          [| done].
        specialize (IH _ eq_refl). simpl.
        destruct (sstep a st0) as [st1 |] eqn:Hstep; [| done].
        intros [= <-]. rewrite to_events_app.
        assert (Hkeep : s_result st1 = s_result st0 →
                  replies (s_calls st1) = replies (s_calls st0) →
                  match s_result st1 with
                  | None => replies (s_calls st1) = []
                  | Some ret =>
                      replies (s_calls st1) = [SendAndClose mkResponse]
                      ∨ (replies (s_calls st1) = []
                         ∧ ∃ err, ret = Some err
                             ∧ recvLoop (to_events acts ++ to_events [a]) hs
                               = Returned err)
                  end).
        { intros -> ->. destruct (s_result st0); [| done].
          destruct IH as [? | (? & err & ? & Hloop)]; [by left |].
          right. split; [done |]. exists err. split; [done |].
          by apply recvLoop_returned_app. }
        destruct a as [r | s h | s | | sc].
        + apply sstep_SRecv in Hstep as (_ & ? & _ & ? & _). by apply Hkeep.
        + injection Hstep as <-. by apply Hkeep.
        + injection Hstep as <-. by apply Hkeep.
        + simpl in Hstep. destruct (s_result st0) eqn:Hres; [done |].
          destruct (s_errCh st0) as [err |] eqn:Hch; [| done].
          injection Hstep as <-. simpl. right. split; [done |].
          exists err. split; [done |]. rewrite app_nil_r.
          pose proof (reader_agrees _ _ _ Hrun0 eq_refl eq_refl) as Hag.
          simpl in Hag. destruct (recvLoop (to_events acts) hs) as [hs' | e].
          * destruct Hag as (_ & _ & ?). congruence.
          * destruct Hag as [_ [? | ?]]; congruence.
        + simpl in Hstep. destruct (s_result st0) eqn:Hres; [done |].
          injection Hstep as <-. simpl. left.
          by rewrite replies_snoc, IH. }
    intros Hrun Hret. specialize (Hgen Hrun). rewrite Hret in Hgen.
    destruct Hgen as [-> | (-> & err & -> & Hloop)].
    + by exists SelectShouldDrain, ret.
    + exists SelectErrCh, None. simpl. by rewrite Hloop.
Qed.






End session.

(** ** The last select of SendAsync, between lock boundaries *)

Section last_select.

(** X5. Between the lock boundaries, with other goroutines running in
    between: the last [select] of [SendAsync] (lines 287-292) never
    blocks; it answers false exactly when the buffer of the channel the
    call holds has [raftSendBufferSize] messages, and then it changes
    nothing; when it answers true it appends the message to that
    buffer. The lookup of a call that finds the entry of its key
    changes nothing either and takes the call straight to the
    [select], so that a call that found its entry and returns false
    has itself changed nothing. This is not so for a call that made
    the entry: in [crowded_out] caller 0 makes the entry, a hundred
    other calls fill the buffer before its [select], and it returns
    false after it has made the entry and started the worker. *)
Theorem select_false_changes_nothing (ftr : list FAction) (fw : FWorld)
    (sid : nat) (ch : chan) (req : RaftMessageRequest) :
  frun ftr FNew = Some fw →
  pending fw !! sid = Some (mkPending ch req ToSend) →
  (∃ fw',
     fstep (FSend sid) fw = Some fw'
     ∧ (answers fw' !! sid = Some false
        ↔ length (chans (base fw) ch) = raftSendBufferSize)
     ∧ (answers fw' !! sid = Some false → base fw' = base fw)
     ∧ (answers fw' !! sid = Some true →
        chans (base fw') ch = chans (base fw) ch ++ [req]))
  ∧ (∀ sid' req' ch',
       pending fw !! sid' = None →
       queue_of (base fw) (isSnap req') (ToReplica req') = Some ch' →
       ∃ fw1,
         fstep (FLookup sid' req') fw = Some fw1
         ∧ base fw1 = base fw
         ∧ pending fw1 !! sid' = Some (mkPending ch' req' ToSend))
  ∧ (fw2 ← frun crowded_out FNew;
     Some (answers fw2 !! 0%nat, spawned (log (base fw2)),
           queue_of (base fw2) false store2,
           length (chans (base fw2) 0%nat)))
    = Some (Some false, [(0%nat, store2)], Some 0%nat, raftSendBufferSize).
Proof.
  intros Hrun Hp.
  pose proof (FInv_frun _ _ _ Hrun FInv_init) as [[_ _ _ _ Hbound] _].
  specialize (Hbound ch).
  split; [| split].
  - simpl. rewrite Hp. unfold try_send. case_decide as Hroom.
    + eexists. split; [done |]. simpl. rewrite lookup_insert_eq.
      split; [| split].
      * split; [done | lia].
      * done.
      * intros _. by rewrite fn_lookup_insert.
    + eexists. split; [done |]. simpl. rewrite lookup_insert_eq.
      split; [| split].
      * split; [lia | done].
      * done.
      * done.
  - intros sid' req' ch' Hnone Hq. simpl.
    rewrite Hnone, (lookup_or_create_hit _ _ _ Hq).
    eexists. split; [done |]. simpl. by rewrite lookup_insert_eq.
  - vm_compute. reflexivity.
Qed.

Lemma select_false_changes_nothing_witness :
  let ftr := removelast crowded_out in
  let fw := default FNew (frun ftr FNew) in
  let req := heartbeat store2 0 in
  frun ftr FNew = Some fw
  ∧ pending fw !! 0%nat = Some (mkPending 0%nat req ToSend)
  ∧ (∃ fw',
       fstep (FSend 0%nat) fw = Some fw'
       ∧ (answers fw' !! 0%nat = Some false
          ↔ length (chans (base fw) 0%nat) = raftSendBufferSize)
       ∧ (answers fw' !! 0%nat = Some false → base fw' = base fw)
       ∧ (answers fw' !! 0%nat = Some true →
          chans (base fw') 0%nat = chans (base fw) 0%nat ++ [req]))
  ∧ (∀ sid' req' ch',
       pending fw !! sid' = None →
       queue_of (base fw) (isSnap req') (ToReplica req') = Some ch' →
       ∃ fw1,
         fstep (FLookup sid' req') fw = Some fw1
         ∧ base fw1 = base fw
         ∧ pending fw1 !! sid' = Some (mkPending ch' req' ToSend))
  ∧ (fw2 ← frun crowded_out FNew;
     Some (answers fw2 !! 0%nat, spawned (log (base fw2)),
           queue_of (base fw2) false store2,
           length (chans (base fw2) 0%nat)))
    = Some (Some false, [(0%nat, store2)], Some 0%nat, raftSendBufferSize).
Proof.
  intros ftr fw req.
  assert (Hrun : frun ftr FNew = Some fw) by (vm_compute; reflexivity).
  assert (Hp : pending fw !! 0%nat = Some (mkPending 0%nat req ToSend))
    by (vm_compute; reflexivity).
  split; [exact Hrun |]. split; [exact Hp |].
  exact (select_false_changes_nothing ftr fw 0%nat 0%nat req Hrun Hp).
Defined.

End last_select.
